(** * Trend analysis: text normalisation, sentence splitting, tokenizing,
      importance adjustment, sentiment and trend scoring

    A shallow embedding of the Python sources under [backend/patterns],
    [backend/constants] and [backend/services/trend], followed by the
    properties the specification states about them.

    Conventions.
    - A Python [str] is a sequence of Unicode code points: [pystr = list N].
      The literal of the source is written [u] applied to the same literal:
      [u] decodes the UTF-8 bytes of a Rocq string.
    - Pattern strings, dictionary keys and part-of-speech tags, which the
      code only passes on, compares and looks up, are kept as Rocq strings.
    - A Python float is a binary64 number: a primitive float of Rocq, whose
      operations round as Python's do.  The sentiment scorer alone, which
      raises a float to a float power, is modelled on the real numbers.
    - A Python exception is a value [Raise e] of the type [result].
    - The module [re] is an interface, the class [Re]: the properties of
      the second part hold for every implementation of it.  [py_re], a
      backtracking matcher for the fragment of the syntax the sources use,
      runs the code on concrete inputs. *)

From Stdlib Require Import String Ascii.
From Stdlib Require Import List NArith ZArith Bool Lia.
From Stdlib Require Import Floats.
From Stdlib Require Import Reals Lra.
Import ListNotations.

Set Warnings "-inexact-float".

#[local] Open Scope N_scope.
#[local] Open Scope list_scope.

(** ** Python strings *)

Definition codepoint := N.
Definition pystr := list codepoint.

(** UTF-8 decoding of the bytes of a Rocq string literal: [need] continuation
    bytes are still expected for the code point accumulated in [acc]. *)
Fixpoint utf8_decode (need : nat) (acc : N) (bs : list N) : pystr :=
  match bs with
  | [] => []
  | b :: rest =>
      match need with
      | O =>
          if b <? 128 then b :: utf8_decode 0 0 rest
          else if b <? 224 then utf8_decode 1 (b - 192) rest
          else if b <? 240 then utf8_decode 2 (b - 224) rest
          else utf8_decode 3 (b - 240) rest
      | S O => (acc * 64 + (b - 128)) :: utf8_decode 0 0 rest
      | S n => utf8_decode n (acc * 64 + (b - 128)) rest
      end
  end.

Definition u (s : string) : pystr :=
  utf8_decode 0 0 (map N_of_ascii (list_ascii_of_string s)).

(** The single code point of a one-character literal. *)
Definition cp (s : string) : codepoint := hd 0 (u s).

Definition in_range (lo hi c : codepoint) : bool := (lo <=? c) && (c <=? hi).

Fixpoint pystr_eqb (a b : pystr) : bool :=
  match a, b with
  | [], [] => true
  | x :: a', y :: b' => (x =? y) && pystr_eqb a' b'
  | _, _ => false
  end.

(** [x in xs] for a list of strings. *)
Definition str_in (x : pystr) (xs : list pystr) : bool := existsb (pystr_eqb x) xs.

(** [c in s]: membership of a character in a string. *)
Definition char_in (c : codepoint) (s : pystr) : bool := existsb (N.eqb c) s.

(** [str.isspace] on one character, and the class [\s] of [re]: the same
    twenty-nine code points. *)
Definition isspace (c : codepoint) : bool :=
  in_range 9 13 c || in_range 28 32 c || (c =? 133) || (c =? 160)
  || (c =? 5760) || in_range 8192 8202 c || (c =? 8232) || (c =? 8233)
  || (c =? 8239) || (c =? 8287) || (c =? 12288).

Definition isascii_char (c : codepoint) : bool := c <? 128.

Definition is_ascii_upper (c : codepoint) : bool := in_range 65 90 c.
Definition is_ascii_lower (c : codepoint) : bool := in_range 97 122 c.
Definition is_ascii_digit (c : codepoint) : bool := in_range 48 57 c.

(** [str.lower] on one character.  Cased letters outside ASCII and the
    full-width forms are left unchanged: the model agrees with Python on
    ASCII, full-width and caseless (kana, ideograph) text. *)
Definition lower_char (c : codepoint) : codepoint :=
  if is_ascii_upper c || in_range 65313 65338 c then c + 32 else c.

Definition upper_char (c : codepoint) : codepoint :=
  if is_ascii_lower c || in_range 65345 65370 c then c - 32 else c.

Definition lower (s : pystr) : pystr := map lower_char s.

(** The class [\w] of [re] ([str.isalnum] or an underscore), on the blocks
    the sources use: ASCII, Latin-1, CJK symbols, kana, ideographs and the
    half- and full-width forms.  Other scripts are not modelled. *)
Definition word_ranges : list (codepoint * codepoint) :=
  [(48, 57); (65, 90); (95, 95); (97, 122); (170, 170); (178, 179);
   (181, 181); (185, 186); (188, 190); (192, 214); (216, 246); (248, 255);
   (12293, 12295); (12321, 12329); (12337, 12341); (12344, 12348);
   (12353, 12438); (12445, 12447); (12449, 12538); (12540, 12543);
   (13312, 19903); (19968, 40959); (65296, 65305); (65313, 65338);
   (65345, 65370); (65382, 65470); (65474, 65479); (65482, 65487);
   (65490, 65495); (65498, 65500)].

Definition is_word_char (c : codepoint) : bool :=
  existsb (fun r => in_range (fst r) (snd r) c) word_ranges.

(** [str.strip()]: leading and trailing whitespace removed. *)
Fixpoint lstrip (s : pystr) : pystr :=
  match s with
  | c :: s' => if isspace c then lstrip s' else s
  | [] => []
  end.

Definition rstrip (s : pystr) : pystr := rev (lstrip (rev s)).

Definition strip (s : pystr) : pystr := rstrip (lstrip s).

(** [s.startswith(p)] and [s.endswith(p)]. *)
Fixpoint startswith (s p : pystr) : bool :=
  match p, s with
  | [], _ => true
  | x :: p', y :: s' => (x =? y) && startswith s' p'
  | _ :: _, [] => false
  end.

Definition endswith (s p : pystr) : bool := startswith (rev s) (rev p).

(** ** Exceptions *)

Inductive exn := ValueError | TypeError | KeyError | OverflowError | ReError.

Inductive result (A : Type) : Type :=
| Ok (a : A)
| Raise (e : exn).
Arguments Ok {A} a.
Arguments Raise {A} e.

Definition bind {A B} (m : result A) (k : A -> result B) : result B :=
  match m with
  | Ok a => k a
  | Raise e => Raise e
  end.

Declare Scope result_scope.
Delimit Scope result_scope with result.
Notation "x <- m ;; k" := (bind m (fun x => k))
  (at level 61, m at next level, right associativity) : result_scope.
Notation "' pat <- m ;; k" := (bind m (fun x => match x with pat => k end))
  (at level 61, pat pattern, m at next level, right associativity) : result_scope.

(** ** The regular expressions of Python's [re]

    The fragment the pattern tables use: literals, [.], classes [[...]] with
    ranges, negation and the escapes [\s \d \w], groups, alternation, the
    greedy quantifiers [* + ? {n} {n,} {n,m}], [\b], [^] and [$], with the
    flag [re.I].  Matching is by backtracking in Python's priority order:
    the first result is the match [re] reports.  A pattern outside the
    fragment (look-around, lazy quantifiers, back-references) does not
    parse. *)
Module Regex.

Inductive set_item :=
| SRange (lo hi : codepoint)
| SSpace | SDigit | SWord.

Inductive regex :=
| REps
| RChar (c : codepoint)
| RAny
| RSet (negated : bool) (items : list set_item)
| RCat (a b : regex)
| RAlt (a b : regex)
| RRepeat (r : regex) (lo : nat) (hi : option nat)
| RWordB
| RBol
| REol
| RLookahead (negated : bool) (r : regex)
| RLookbehind (negated : bool) (r : regex).

(** The number of characters a pattern consumes, when every match consumes
    the same number: what a look-behind requires. *)
Fixpoint width (r : regex) : option nat :=
  match r with
  | REps | RWordB | RBol | REol | RLookahead _ _ | RLookbehind _ _ => Some O
  | RChar _ | RAny | RSet _ _ => Some 1%nat
  | RCat a b =>
      match width a, width b with
      | Some m, Some n => Some (m + n)%nat
      | _, _ => None
      end
  | RAlt a b =>
      match width a, width b with
      | Some m, Some n => if Nat.eqb m n then Some m else None
      | _, _ => None
      end
  | RRepeat a lo hi =>
      match width a, hi with
      | Some m, Some h => if Nat.eqb lo h then Some (lo * m)%nat else None
      | _, _ => None
      end
  end.

(** *** Parsing *)

Definition ch (s : string) : codepoint := cp s.

Definition is_digit_class (c : codepoint) : bool :=
  is_ascii_digit c || in_range 65296 65305 c.

(** The item an escape [\c] denotes inside a class, and outside it. *)
Definition escape_item (c : codepoint) : set_item :=
  if c =? ch "s" then SSpace
  else if c =? ch "d" then SDigit
  else if c =? ch "w" then SWord
  else if c =? ch "n" then SRange 10 10
  else if c =? ch "t" then SRange 9 9
  else SRange c c.

Definition escape_atom (c : codepoint) : option regex :=
  if c =? ch "b" then Some RWordB
  else if c =? ch "s" then Some (RSet false [SSpace])
  else if c =? ch "d" then Some (RSet false [SDigit])
  else if c =? ch "w" then Some (RSet false [SWord])
  else if c =? ch "n" then Some (RChar 10)
  else if c =? ch "t" then Some (RChar 9)
  else if is_ascii_digit c || is_ascii_upper c || is_ascii_lower c then None
  else Some (RChar c).

(** One member of a class: an escape, a range [a-b], or a character. *)
Definition parse_set_item (s : pystr) : option (set_item * pystr) :=
  match s with
  | [] => None
  | c :: rest =>
      if c =? ch "\" then
        match rest with
        | e :: rest' => Some (escape_item e, rest')
        | [] => None
        end
      else
        match rest with
        | d :: hi :: rest' =>
            if (d =? ch "-") && negb (hi =? ch "]") then
              if hi =? ch "\" then
                match rest' with
                | e :: rest'' =>
                    if c <=? e then Some (SRange c e, rest'') else None
                | [] => None
                end
              else if c <=? hi then Some (SRange c hi, rest') else None
            else Some (SRange c c, rest)
        | _ => Some (SRange c c, rest)
        end
  end.

(** The members of a class up to its closing bracket; [first] is set while
    no member has been read, when a closing bracket stands for itself. *)
Fixpoint parse_set_items (fuel : nat) (first : bool) (s : pystr)
  : option (list set_item * pystr) :=
  match fuel with
  | O => None
  | S f =>
      match s with
      | [] => None
      | c :: rest =>
          if (c =? ch "]") && negb first then Some ([], rest)
          else
            match parse_set_item s with
            | None => None
            | Some (it, rest') =>
                match parse_set_items f false rest' with
                | None => None
                | Some (its, rest'') => Some (it :: its, rest'')
                end
            end
      end
  end.

Definition parse_set (s : pystr) : option (regex * pystr) :=
  let '(neg, s') :=
    match s with
    | c :: rest => if c =? ch "^" then (true, rest) else (false, s)
    | [] => (false, s)
    end in
  match parse_set_items (S (length s')) true s' with
  | Some (its, rest) => Some (RSet neg its, rest)
  | None => None
  end.

Fixpoint parse_nat (acc : nat) (s : pystr) : nat * pystr :=
  match s with
  | c :: rest =>
      if is_ascii_digit c then parse_nat (10 * acc + N.to_nat (c - 48)) rest
      else (acc, s)
  | [] => (acc, s)
  end.

(** A quantifier after the atom [a], if one follows. *)
Definition parse_quant (a : regex) (s : pystr) : option (regex * pystr) :=
  let lazy_or_possessive (rest : pystr) :=
    match rest with
    | c :: _ => (c =? ch "?") || (c =? ch "+") || (c =? ch "*")
    | [] => false
    end in
  let done (r : regex) (rest : pystr) :=
    if lazy_or_possessive rest then None else Some (r, rest) in
  match s with
  | c :: rest =>
      if c =? ch "*" then done (RRepeat a 0 None) rest
      else if c =? ch "+" then done (RRepeat a 1 None) rest
      else if c =? ch "?" then done (RRepeat a 0 (Some 1%nat)) rest
      else if c =? ch "{" then
        match rest with
        | d :: _ =>
            if is_ascii_digit d then
              let '(lo, r1) := parse_nat 0 rest in
              match r1 with
              | x :: r2 =>
                  if x =? ch "}" then done (RRepeat a lo (Some lo)) r2
                  else if x =? ch "," then
                    match r2 with
                    | y :: r3 =>
                        if y =? ch "}" then done (RRepeat a lo None) r3
                        else if is_ascii_digit y then
                          let '(hi, r4) := parse_nat 0 r2 in
                          match r4 with
                          | z :: r5 =>
                              if (z =? ch "}") && Nat.leb lo hi
                              then done (RRepeat a lo (Some hi)) r5
                              else None
                          | [] => None
                          end
                        else None
                    | [] => None
                    end
                  else None
              | [] => None
              end
            else Some (a, s)
        | [] => Some (a, s)
        end
      else Some (a, s)
  | [] => Some (a, s)
  end.

(** What opens a group, after its parenthesis: nothing or [?:] for a plain
    group, [?=] and [?!] for a look-ahead, [?<=] and [?<!] for a look-behind,
    which must have a fixed width.  The result wraps the body of the group. *)
Definition group_kind (s : pystr) : option ((regex -> option regex) * pystr) :=
  let behind (neg : bool) (r : regex) :=
    match width r with
    | Some _ => Some (RLookbehind neg r)
    | None => None
    end in
  match s with
  | q :: rest1 =>
      if q =? ch "?" then
        match rest1 with
        | k :: rest2 =>
            if k =? ch ":" then Some (Some, rest2)
            else if k =? ch "=" then Some (fun r => Some (RLookahead false r), rest2)
            else if k =? ch "!" then Some (fun r => Some (RLookahead true r), rest2)
            else if k =? ch "<" then
              match rest2 with
              | d :: rest3 =>
                  if d =? ch "=" then Some (behind false, rest3)
                  else if d =? ch "!" then Some (behind true, rest3)
                  else None
              | [] => None
              end
            else None
        | [] => None
        end
      else Some (Some, s)
  | [] => Some (Some, s)
  end.

Fixpoint parse_alt (fuel : nat) (s : pystr) : option (regex * pystr) :=
  match fuel with
  | O => None
  | S f =>
      match parse_cat f s with
      | None => None
      | Some (r, rest) =>
          match rest with
          | c :: rest' =>
              if c =? ch "|" then
                match parse_alt f rest' with
                | Some (r2, rest2) => Some (RAlt r r2, rest2)
                | None => None
                end
              else Some (r, rest)
          | [] => Some (r, rest)
          end
      end
  end
with parse_cat (fuel : nat) (s : pystr) : option (regex * pystr) :=
  match fuel with
  | O => None
  | S f =>
      match s with
      | [] => Some (REps, [])
      | c :: _ =>
          if (c =? ch "|") || (c =? ch ")") then Some (REps, s)
          else
            match parse_atom f s with
            | None => None
            | Some (a, rest) =>
                match parse_quant a rest with
                | None => None
                | Some (a', rest') =>
                    match parse_cat f rest' with
                    | Some (r, rest'') => Some (RCat a' r, rest'')
                    | None => None
                    end
                end
            end
      end
  end
with parse_atom (fuel : nat) (s : pystr) : option (regex * pystr) :=
  match fuel with
  | O => None
  | S f =>
      match s with
      | [] => None
      | c :: rest =>
          if c =? ch "(" then
            match group_kind rest with
            | None => None
            | Some (wrap, b) =>
                match parse_alt f b with
                | Some (r, x :: rest') =>
                    if x =? ch ")" then
                      match wrap r with
                      | Some r' => Some (r', rest')
                      | None => None
                      end
                    else None
                | _ => None
                end
            end
          else if c =? ch "[" then parse_set rest
          else if c =? ch "\" then
            match rest with
            | e :: rest' =>
                match escape_atom e with
                | Some r => Some (r, rest')
                | None => None
                end
            | [] => None
            end
          else if c =? ch "." then Some (RAny, rest)
          else if c =? ch "^" then Some (RBol, rest)
          else if c =? ch "$" then Some (REol, rest)
          else if (c =? ch "*") || (c =? ch "+") || (c =? ch "?") then None
          else Some (RChar c, rest)
      end
  end.

(** [re.compile(p)]: the whole pattern must be consumed. *)
Definition parse (p : pystr) : option regex :=
  match parse_alt (4 * length p + 8) p with
  | Some (r, []) => Some r
  | _ => None
  end.

(** *** Matching *)

(** The cursor: the characters before it, nearest first, and those after. *)
Record cursor := { seen : pystr; rest : pystr }.

Definition item_matches (ic : bool) (c : codepoint) (it : set_item) : bool :=
  match it with
  | SRange lo hi =>
      in_range lo hi c
      || (ic && (in_range lo hi (lower_char c) || in_range lo hi (upper_char c)))
  | SSpace => isspace c
  | SDigit => is_digit_class c
  | SWord => is_word_char c
  end.

Definition char_eq (ic : bool) (a b : codepoint) : bool :=
  (a =? b) || (ic && (lower_char a =? lower_char b)).

Definition at_word_boundary (k : cursor) : bool :=
  let before := match seen k with c :: _ => is_word_char c | [] => false end in
  let after := match rest k with c :: _ => is_word_char c | [] => false end in
  xorb before after.

Definition advance (k : cursor) (ok : codepoint -> bool) : list cursor :=
  match rest k with
  | c :: r => if ok c then [{| seen := c :: seen k; rest := r |}] else []
  | [] => []
  end.

(** Every way [r] matches at the cursor [k], best first. *)
Fixpoint rmatch (ic : bool) (r : regex) (k : cursor) : list cursor :=
  match r with
  | REps => [k]
  | RChar c => advance k (char_eq ic c)
  | RAny => advance k (fun c => negb (c =? 10))
  | RSet neg items =>
      advance k (fun c => xorb neg (existsb (item_matches ic c) items))
  | RCat a b => flat_map (rmatch ic b) (rmatch ic a k)
  | RAlt a b => rmatch ic a k ++ rmatch ic b k
  | RRepeat a lo hi =>
      (fix rep (fuel lo : nat) (hi : option nat) (k : cursor) : list cursor :=
         match fuel with
         | O => []
         | S f =>
             let again :=
               match hi with
               | Some O => []
               | _ =>
                   flat_map
                     (fun k' =>
                        if Nat.ltb (length (rest k')) (length (rest k))
                           || Nat.ltb 0 lo
                        then rep f (Nat.pred lo) (option_map Nat.pred hi) k'
                        else [])
                     (rmatch ic a k)
               end in
             again ++ (if Nat.eqb lo 0 then [k] else [])
         end) (S (length (rest k) + lo)) lo hi k
  | RWordB => if at_word_boundary k then [k] else []
  | RBol => match seen k with [] => [k] | _ => [] end
  | REol =>
      match rest k with
      | [] => [k]
      | [c] => if c =? 10 then [k] else []
      | _ => []
      end
  | RLookahead neg a =>
      match rmatch ic a k with
      | [] => if neg then [k] else []
      | _ :: _ => if neg then [] else [k]
      end
  | RLookbehind neg a =>
      let found :=
        match width a with
        | Some w =>
            Nat.leb w (length (seen k))
            && existsb (fun k' => Nat.eqb (length (rest k')) (length (rest k)))
                 (rmatch ic a {| seen := skipn w (seen k);
                                 rest := rev (firstn w (seen k)) ++ rest k |})
        | None => false
        end in
      if xorb neg found then [k] else []
  end.

(** The first match of [r] starting exactly at the cursor. *)
Definition match_at (ic : bool) (r : regex) (k : cursor) : option cursor :=
  hd_error (rmatch ic r k).

(** The leftmost match at or after the cursor: the text skipped before it
    (nearest first, with what was already seen) and the cursor after it. *)
Fixpoint search_from (ic : bool) (r : regex) (fuel : nat) (k : cursor)
  : option (cursor * cursor) :=
  match match_at ic r k with
  | Some k' => Some (k, k')
  | None =>
      match fuel, rest k with
      | S f, c :: t => search_from ic r f {| seen := c :: seen k; rest := t |}
      | _, _ => None
      end
  end.

Definition matched_text (k k' : cursor) : pystr :=
  firstn (length (rest k) - length (rest k')) (rest k).

End Regex.

(** [re.match(p, s, flags).group(0)], [None] when there is no match;
    [ic] is the flag [re.I]. *)
Definition py_re_match (p : pystr) (ic : bool) (s : pystr) : option pystr :=
  match Regex.parse p with
  | None => None
  | Some r =>
      let k := {| Regex.seen := []; Regex.rest := s |} in
      match Regex.match_at ic r k with
      | Some k' => Some (Regex.matched_text k k')
      | None => None
      end
  end.

(** [bool(re.search(p, s, flags))]. *)
Definition py_re_search (p : pystr) (ic : bool) (s : pystr) : bool :=
  match Regex.parse p with
  | None => false
  | Some r =>
      match Regex.search_from ic r (length s)
              {| Regex.seen := []; Regex.rest := s |} with
      | Some _ => true
      | None => false
      end
  end.

(** [re.sub(p, repl, s)] for a pattern that matches no empty string: the
    matches are replaced from left to right, without overlap. *)
Fixpoint sub_loop (ic : bool) (r : Regex.regex) (repl : pystr) (fuel : nat)
    (k : Regex.cursor) : pystr :=
  match fuel with
  | O => Regex.rest k
  | S f =>
      match Regex.rest k with
      | [] => match Regex.match_at ic r k with Some _ => repl | None => [] end
      | c :: t =>
          match Regex.match_at ic r k with
          | Some k' =>
              if Nat.ltb (length (Regex.rest k')) (length (Regex.rest k))
              then repl ++ sub_loop ic r repl f k'
              else repl ++ c :: sub_loop ic r repl f
                                  {| Regex.seen := c :: Regex.seen k; Regex.rest := t |}
          | None =>
              c :: sub_loop ic r repl f
                     {| Regex.seen := c :: Regex.seen k; Regex.rest := t |}
          end
      end
  end.

Definition py_re_sub (p : pystr) (ic : bool) (repl s : pystr) : pystr :=
  match Regex.parse p with
  | None => s
  | Some r => sub_loop ic r repl (S (length s)) {| Regex.seen := []; Regex.rest := s |}
  end.

(** [re.split(p, s)] for a pattern with no capturing group that matches no
    empty string: the pieces between the matches, from left to right.
    [piece] is the text read since the last match, nearest first. *)
Fixpoint split_loop (ic : bool) (r : Regex.regex) (fuel : nat)
    (piece : pystr) (k : Regex.cursor) : list pystr :=
  match fuel with
  | O => [rev piece ++ Regex.rest k]
  | S f =>
      match Regex.rest k with
      | [] => [rev piece]
      | c :: t =>
          match Regex.match_at ic r k with
          | Some k' =>
              if Nat.ltb (length (Regex.rest k')) (length (Regex.rest k))
              then rev piece :: split_loop ic r f [] k'
              else split_loop ic r f (c :: piece)
                     {| Regex.seen := c :: Regex.seen k; Regex.rest := t |}
          | None =>
              split_loop ic r f (c :: piece)
                {| Regex.seen := c :: Regex.seen k; Regex.rest := t |}
          end
      end
  end.

Definition py_re_split (p : pystr) (s : pystr) : list pystr :=
  match Regex.parse p with
  | None => [s]
  | Some r => split_loop false r (S (length s)) [] {| Regex.seen := []; Regex.rest := s |}
  end.

(** [len(re.findall(p, s))] for a pattern that matches no empty string: the
    number of matches found from left to right, without overlap. *)
Fixpoint count_loop (ic : bool) (r : Regex.regex) (fuel : nat) (k : Regex.cursor)
  : nat :=
  match fuel with
  | O => O
  | S f =>
      match Regex.rest k with
      | [] => O
      | c :: t =>
          match Regex.match_at ic r k with
          | Some k' =>
              if Nat.ltb (length (Regex.rest k')) (length (Regex.rest k))
              then S (count_loop ic r f k')
              else count_loop ic r f
                     {| Regex.seen := c :: Regex.seen k; Regex.rest := t |}
          | None =>
              count_loop ic r f
                {| Regex.seen := c :: Regex.seen k; Regex.rest := t |}
          end
      end
  end.

Definition py_re_findall_count (p : pystr) (s : pystr) : nat :=
  match Regex.parse p with
  | None => O
  | Some r => count_loop false r (S (length s)) {| Regex.seen := []; Regex.rest := s |}
  end.

(** [re.compile(p)] succeeds. *)
Definition py_re_compiles (p : pystr) : bool :=
  match Regex.parse p with Some _ => true | None => false end.

(** The functions of the module [re] the sources call, as an interface: the
    properties below hold for every implementation of it, and
    [py_re] is the one used to run the code on concrete inputs. *)
Class Re := {
  re_match : pystr -> bool -> pystr -> option pystr;
  re_search : pystr -> bool -> pystr -> bool;
  re_sub : pystr -> bool -> pystr -> pystr -> pystr;
  re_split : pystr -> pystr -> list pystr;
  re_findall_count : pystr -> pystr -> nat;
  re_compiles : pystr -> bool
}.

#[export] Instance py_re : Re := {|
  re_match := py_re_match;
  re_search := py_re_search;
  re_sub := py_re_sub;
  re_split := py_re_split;
  re_findall_count := py_re_findall_count;
  re_compiles := py_re_compiles
|}.

Definition is_some {A} (o : option A) : bool :=
  match o with Some _ => true | None => false end.

(** ** backend/constants/japanese.py *)

Definition KANJI_CHARS := "[一-龯]"%string.
Definition JAPANESE_CHARS := "[ぁ-んァ-ン一-龯]"%string.

Definition HIRAGANA := "[ぁ-んー・゛゜]+"%string.
Definition KATAKANA := "[ァ-ンー・゛゜]+"%string.
Definition KANJI := "[一-龯々〆ヶ]+"%string.

(** ** backend/patterns/tokenizer.py: tokens *)

Inductive Language := JAPANESE | ENGLISH | UNKNOWN.

Record Token := {
  text : pystr;
  pos : string;
  language : Language;
  is_compound : bool;
  original_form : option pystr;
  features : list (string * string)
}.

(** [str.isascii] and, on ASCII text, [str.isalpha]. *)
Definition isascii (s : pystr) : bool := forallb isascii_char s.

Definition isalpha (s : pystr) : bool :=
  match s with
  | [] => false
  | _ => forallb (fun c => is_ascii_upper c || is_ascii_lower c) s
  end.

Section Tokenizer.
Context {R : Re}.

Definition _create_token (text : pystr) : Token :=
  let '(lang, pos) :=
    if re_search (u JAPANESE_CHARS) false text then
      (JAPANESE,
       if is_some (re_match (u "[はがをのにへとでもや]") false text) then "助詞"%string
       else if is_some (re_match (u "[あ-ん]+") false text) then "動詞"%string
       else "名詞"%string)
    else if isascii text then
      (ENGLISH,
       if str_in (lower text) [u "a"; u "an"; u "the"] then "article"%string
       else if isalpha text then "word"%string
       else "symbol"%string)
    else (UNKNOWN, "unknown"%string) in
  {| text := text;
     pos := pos;
     language := lang;
     is_compound := false;
     original_form := None;
     features := [] |}.

(** The character kinds ["jp"], ["en"] and ["other"] of the loop. *)
Inductive char_type := CT_jp | CT_en | CT_other.

Definition char_type_eqb (a b : char_type) : bool :=
  match a, b with
  | CT_jp, CT_jp | CT_en, CT_en | CT_other, CT_other => true
  | _, _ => false
  end.

(** The loop state of [tokenize_sentence]. *)
Record tok_state := {
  tokens : list Token;
  current_word : pystr;
  current_type : option char_type
}.

(** [if current_word: tokens.append(_create_token(current_word))]. *)
Definition flush (st : tok_state) : list Token :=
  match current_word st with
  | [] => tokens st
  | w => tokens st ++ [_create_token w]
  end.

Definition is_separator (char : codepoint) : bool :=
  char_in char (u "、，,。．.") || isspace char.

Definition tokenize_step (st : tok_state) (char : codepoint) : tok_state :=
  if char_in char (u "、，,。．.") then
    {| tokens := flush st; current_word := []; current_type := None |}
  else if isspace char then
    {| tokens := flush st; current_word := []; current_type := None |}
  else
    let char_type :=
      if is_some (re_match (u JAPANESE_CHARS) false [char]) then CT_jp
      else if isascii_char char then CT_en
      else CT_other in
    let st1 :=
      if negb (match current_type st with
               | Some t => char_type_eqb t char_type
               | None => false
               end)
         || char_type_eqb char_type CT_jp
      then {| tokens := flush st; current_word := []; current_type := Some char_type |}
      else st in
    {| tokens := tokens st1;
       current_word := current_word st1 ++ [char];
       current_type := current_type st1 |}.

Definition tokenize_sentence (sentence : pystr) : list Token :=
  flush (fold_left tokenize_step sentence
           {| tokens := []; current_word := []; current_type := None |}).

(** A token as [_create_token] builds it. *)
Definition plain (t : Token) : Prop :=
  is_compound t = false /\ original_form t = None /\ features t = [].

(** What the loop has read so far, separators dropped, is the text of the
    tokens followed by the word being built. *)
Definition read_so_far (st : tok_state) : pystr :=
  concat (map text (tokens st)) ++ current_word st.

End Tokenizer.

(** ** backend/patterns/tokenizer.py: sentences *)

(** The dictionary [pairs] of [_is_balanced], in its order. *)
Definition pairs : list (codepoint * codepoint) :=
  [(cp "「", cp "」"); (cp "『", cp "』"); (cp "(", cp ")"); (cp "（", cp "）");
   (cp "[", cp "]"); (cp "［", cp "］"); (cp "{", cp "}"); (cp "｛", cp "｝");
   (cp "＜", cp "＞"); (cp "<", cp ">")].

(** [pairs[c]], when [c in pairs]. *)
Fixpoint pairs_get (d : list (codepoint * codepoint)) (c : codepoint)
  : option codepoint :=
  match d with
  | [] => None
  | (k, v) :: d' => if k =? c then Some v else pairs_get d' c
  end.

(** [c in pairs.values()]. *)
Definition in_values (d : list (codepoint * codepoint)) (c : codepoint) : bool :=
  existsb (fun kv => snd kv =? c) d.

(** The loop of [_is_balanced] from the character of index [i] on; the top
    of [stack] is its head.  A [return False] inside the loop ends it. *)
Fixpoint balanced_loop (text : pystr) (i : nat)
    (stack : list (codepoint * nat)) (escaped : bool) : bool :=
  match text with
  | [] => Nat.eqb (length stack) 0
  | char :: rest =>
      if char =? cp "\" then balanced_loop rest (S i) stack true
      else if escaped then balanced_loop rest (S i) stack false
      else if is_some (pairs_get pairs char) then
        balanced_loop rest (S i) ((char, i) :: stack) false
      else if in_values pairs char then
        match stack with
        | [] => false
        | (last_char, _) :: stack' =>
            match pairs_get pairs last_char with
            | Some close =>
                if negb (close =? char) then false
                else balanced_loop rest (S i) stack' false
            | None => false  (* only keys of [pairs] are pushed *)
            end
        end
      else balanced_loop rest (S i) stack false
  end.

Definition _is_balanced (text : pystr) : bool := balanced_loop text 0 [] false.

(** The two patterns of [split_sentences]. *)
Definition sentence_pattern : string :=
  "(?<!\.\.)(?<!Mr)(?<!Mrs)(?<!Dr)(?<!Jr)(?<!Sr)(?<!Ltd)(?<!Inc)"
  ++ "[。！？!?．.]+[\s]*"
  ++ "(?=(?:[^「」『』（）\(\)]*$|[「」『』（）\(\)][^「」『』（）\(\)]*$))".

Definition list_pattern : string :=
  "(?:^|\n)(?:\d+[\.)］】]|\-|\*|\・|\○|\◎|\●)\s*".

Section SentenceSplitter.
Context {R : Re}.

(** The state of the loops of [split_sentences]: the list [sentences] and
    the buffer [current]. *)
Definition split_state := (list pystr * pystr)%type.

(** [current += piece], then the balance check and the flush. *)
Definition accumulate (st : split_state) (piece : pystr) : split_state :=
  let '(sentences, current) := st in
  let current := current ++ piece in
  if _is_balanced current then (sentences ++ [strip current], [])
  else (sentences, current).

(** The body of [for s in raw_sentences]. *)
Definition split_step (st : split_state) (s : pystr) : split_state :=
  let list_items := re_split (u list_pattern) s in
  if Nat.ltb 1 (length list_items) then
    fold_left
      (fun st item =>
         match strip item with
         | [] => st
         | _ => accumulate st item
         end)
      list_items st
  else accumulate st s.

Definition split_sentences (text : pystr) : list pystr :=
  let raw_sentences := re_split (u sentence_pattern) text in
  let '(sentences, current) := fold_left split_step raw_sentences ([], []) in
  let sentences :=
    match current with
    | [] => sentences
    | _ => sentences ++ [strip current]
    end in
  filter (fun s => match s with [] => false | _ => true end) sentences.

(** The invariant of the loops: every sentence emitted so far is balanced,
    and the buffer is empty or unbalanced. *)
Definition split_inv (st : split_state) : Prop :=
  Forall (fun s => _is_balanced s = true) (fst st)
  /\ (snd st = [] \/ _is_balanced (snd st) = false).

End SentenceSplitter.

(** *** Balanced brackets, as a property of the string

    What the check of [_is_balanced] decides, stated without its loop:
    which characters of a string count, and when a string of counted
    characters is well nested for the table [pairs]. *)

(** The brackets of the table, opening and closing. *)
Definition brackets : list codepoint := map fst pairs ++ map snd pairs.

(** The well-nested strings: the empty string; a character that is no
    bracket of the table, then a well-nested string; an opening bracket, a
    well-nested string, the closing bracket of the same pair, and a
    well-nested string. *)
Inductive well_nested : pystr -> Prop :=
| wn_empty : well_nested []
| wn_other (c : codepoint) (w : pystr) :
    ~ In c brackets -> well_nested w -> well_nested (c :: w)
| wn_pair (o c : codepoint) (w1 w2 : pystr) :
    In (o, c) pairs -> well_nested w1 -> well_nested w2 ->
    well_nested (o :: w1 ++ c :: w2).

(** A backslash escapes the single character after it, read from the left:
    the escaping backslash and the character it escapes are left out, and
    an escaped backslash escapes nothing. *)
Fixpoint unescaped (text : pystr) : pystr :=
  match text with
  | [] => []
  | c :: rest =>
      if c =? cp "\" then
        match rest with
        | [] => []
        | _ :: rest' => unescaped rest'
        end
      else c :: unescaped rest
  end.

(** The characters that are no backslash and do not come directly after a
    backslash; [after_backslash] tells whether the character before [text]
    is one. *)
Fixpoint counted_from (after_backslash : bool) (text : pystr) : pystr :=
  match text with
  | [] => []
  | c :: rest =>
      if (c =? cp "\") || after_backslash
      then counted_from (c =? cp "\") rest
      else c :: counted_from (c =? cp "\") rest
  end.

Definition counted (text : pystr) : pystr := counted_from false text.

(** Whether two backslashes stand side by side in [text]. *)
Fixpoint backslash_run (text : pystr) : bool :=
  match text with
  | [] => false
  | c :: rest =>
      match rest with
      | [] => false
      | d :: _ => ((c =? cp "\") && (d =? cp "\")) || backslash_run rest
      end
  end.

(** The stack of [_is_balanced] alone, on a string every character of which
    counts: [stack] holds the brackets that are open, the last one first. *)
Fixpoint nested_loop (stack : list codepoint) (w : pystr) : bool :=
  match w with
  | [] => Nat.eqb (length stack) 0
  | char :: rest =>
      if is_some (pairs_get pairs char) then nested_loop (char :: stack) rest
      else if in_values pairs char then
        match stack with
        | [] => false
        | last_char :: stack' =>
            match pairs_get pairs last_char with
            | Some close =>
                if negb (close =? char) then false
                else nested_loop stack' rest
            | None => false
            end
        end
      else nested_loop stack rest
  end.

(** [w] closes the open brackets of [stack], the last one first, with
    well-nested strings in between and after. *)
Fixpoint closes (stack : list codepoint) (w : pystr) : Prop :=
  match stack with
  | [] => well_nested w
  | o :: stack' =>
      exists w1 c w2,
        w = w1 ++ c :: w2 /\ In (o, c) pairs /\ well_nested w1
        /\ closes stack' w2
  end.

(** ** backend/patterns/tokenizer.py: preprocess_text *)

(** [str.maketrans(a, b)] for two strings of the same length, and
    [str.translate]. *)
Definition maketrans (a b : pystr) : list (codepoint * codepoint) := combine a b.

Definition translate_char (table : list (codepoint * codepoint)) (c : codepoint)
  : codepoint :=
  match pairs_get table c with
  | Some d => d
  | None => c
  end.

Definition translate (table : list (codepoint * codepoint)) (s : pystr) : pystr :=
  map (translate_char table) s.

(** [re.sub] for a pattern [[class]{lo,}] with [lo >= 1]: every maximal run
    of at least [lo] characters of the class is replaced by [repl], and
    shorter runs are kept.  [run] is the run being read, nearest first. *)
Definition emit_run (lo : nat) (repl run : pystr) : pystr :=
  if Nat.leb lo (length run) then repl else rev run.

Fixpoint sub_runs_from (cls : codepoint -> bool) (lo : nat) (repl run s : pystr)
  : pystr :=
  match s with
  | [] => emit_run lo repl run
  | c :: s' =>
      if cls c then sub_runs_from cls lo repl (c :: run) s'
      else emit_run lo repl run ++ c :: sub_runs_from cls lo repl [] s'
  end.

Definition sub_runs (cls : codepoint -> bool) (lo : nat) (repl s : pystr) : pystr :=
  match s with
  | [] => []
  | _ => match lo with
         | O => s
         | _ => sub_runs_from cls lo repl [] s
         end
  end.

(** The class [[\x00-\x1F\x7F-\x9F]]. *)
Definition is_control (c : codepoint) : bool := in_range 0 31 c || in_range 127 159 c.

Definition fullwidth_alnum : string :=
  "０１２３４５６７８９ＡＢＣＤＥＦＧＨＩＪＫＬＭＮＯＰＱＲＳＴＵＶＷＸＹＺａｂｃｄｅｆｇｈｉｊｋｌｍｎｏｐｑｒｓｔｕｖｗｘｙｚ".
Definition halfwidth_alnum : string :=
  "0123456789ABCDEFGHIJKLMNOPQRSTUVWXYZabcdefghijklmnopqrstuvwxyz".
Definition fullwidth_punct : string := "：；？！（）［］｛｝＜＞、，".
Definition halfwidth_punct : string := ":;?!()[]{}<>,,".

Definition alnum_table := maketrans (u fullwidth_alnum) (u halfwidth_alnum).
Definition punct_table := maketrans (u fullwidth_punct) (u halfwidth_punct).

Definition is_period_mark (c : codepoint) : bool := char_in c (u "。．.").
Definition is_comma_mark (c : codepoint) : bool := char_in c (u "、，,").

Definition preprocess_text (text : pystr) : pystr :=
  match text with
  | [] => []
  | _ =>
      (* re.sub(r"\s+", " ", text.strip()) *)
      let text := sub_runs isspace 1 (u " ") (strip text) in
      let text := translate alnum_table text in
      let text := translate punct_table text in
      (* re.sub(r"[\x00-\x1F\x7F-\x9F]", "", text) *)
      let text := filter (fun c => negb (is_control c)) text in
      (* re.sub(r"[。．.]{2,}", "。", text) *)
      let text := sub_runs is_period_mark 2 (u "。") text in
      (* re.sub(r"[、，,]{2,}", "、", text) *)
      let text := sub_runs is_comma_mark 2 (u "、") text in
      strip text
  end.

(** No two neighbours of [s] are both in the class [P]; [prev] tells whether
    the character before [s] is in it. *)
Fixpoint no_adj_from (P : codepoint -> bool) (prev : bool) (s : pystr) : bool :=
  match s with
  | [] => true
  | c :: t => negb (prev && P c) && no_adj_from P (P c) t
  end.

Definition no_adjacent (P : codepoint -> bool) (s : pystr) : bool :=
  no_adj_from P false s.

(** Inputs on which [preprocess_text] is idempotent: no control character
    other than whitespace, and no two comma marks side by side. *)
Definition no_stray_control (s : pystr) : bool :=
  forallb (fun c => negb (is_control c) || isspace c) s.

Definition no_comma_run (s : pystr) : bool := no_adjacent is_comma_mark s.

(** The texts [preprocess_text] leaves alone. *)
Definition is_key (table : list (codepoint * codepoint)) (c : codepoint) : bool :=
  is_some (pairs_get table c).

(** The characters after the whitespace stage, after the first table and
    after the second. *)
Definition spaced_char (c : codepoint) : bool :=
  (negb (isspace c) || (c =? 32)) && negb (is_control c).

Definition narrowed_char (c : codepoint) : bool :=
  spaced_char c && negb (is_key alnum_table c).

Definition normal_char (c : codepoint) : bool :=
  narrowed_char c && negb (is_key punct_table c).

Definition normal_form (s : pystr) : Prop :=
  forallb normal_char s = true
  /\ no_adjacent isspace s = true
  /\ no_adjacent is_period_mark s = true
  /\ no_adjacent is_comma_mark s = true
  /\ strip s = s.

(** The text [preprocess_text] computes from a non-empty text, before the
    last [strip]. *)
Definition before_last_strip (text : pystr) : pystr :=
  sub_runs is_comma_mark 2 (u "、")
    (sub_runs is_period_mark 2 (u "。")
       (filter (fun c => negb (is_control c))
          (translate punct_table
             (translate alnum_table
                (sub_runs isspace 1 (u " ") (strip text)))))).


(** ** backend/patterns/tokenizer.py: the longest-match engine *)

(** A compiled pattern: its source and whether it was compiled with
    [re.IGNORECASE]. *)
Record Pattern := { source : pystr; ignorecase : bool }.

Definition _extract_jp_features (word : pystr) (pos : string)
  : list (string * string) :=
  if String.eqb pos "動詞" then
    if endswith word (u "する") then [("conjugation", "サ行変格")]%string
    else if endswith word (u "う") || endswith word (u "つ")
            || endswith word (u "る")
    then [("conjugation", "五段")]%string
    else []
  else if String.eqb pos "形容詞" then
    if endswith word (u "い") then [("type", "イ形容詞")]%string
    else if endswith word (u "な") then [("type", "ナ形容詞")]%string
    else []
  else [].

Definition _extract_en_features (word : pystr) (pos : string)
  : list (string * string) :=
  if String.eqb pos "verb" then
    if endswith word (u "ing") then [("tense", "progressive")]%string
    else if endswith word (u "ed") then [("tense", "past")]%string
    else if endswith word (u "s") then [("tense", "present")]%string
    else []
  else if String.eqb pos "noun" then
    if endswith word (u "s") && negb (endswith word (u "ss"))
    then [("number", "plural")]%string
    else [("number", "singular")]%string
  else [].

Definition extract_features (lang : Language) (word : pystr) (pos : string)
  : list (string * string) :=
  match lang with
  | JAPANESE => _extract_jp_features word pos
  | _ => _extract_en_features word pos
  end.

Section LongestMatch.
Context {R : Re}.

(** [pattern.match(text)]. *)
Definition pattern_match (p : Pattern) (text : pystr) : option pystr :=
  re_match (source p) (ignorecase p) text.

(** The loop variables of [_find_longest_match]. *)
Record longest_state := {
  longest_match : option pystr;
  longest_length : nat;
  matched_pos : string;
  matched_features : list (string * string)
}.

Definition longest_step (text : pystr) (lang : Language)
    (st : longest_state) (entry : Pattern * string) : longest_state :=
  let '(pattern, pos) := entry in
  match pattern_match pattern text with
  | Some g =>
      let word := strip g in
      match word with
      | [] => st
      | _ =>
          if Nat.ltb (longest_length st) (length word) then
            {| longest_match := Some word;
               longest_length := length word;
               matched_pos := pos;
               matched_features := extract_features lang word pos |}
          else st
      end
  | None => st
  end.

Definition _find_longest_match (text : pystr)
    (patterns : list (Pattern * string)) (lang : Language)
  : option (Token * nat) :=
  let st :=
    fold_left (longest_step text lang) patterns
      {| longest_match := None; longest_length := 0;
         matched_pos := ""; matched_features := [] |} in
  match longest_match st with
  | Some (c :: w) =>
      Some ({| text := c :: w;
               pos := matched_pos st;
               language := lang;
               is_compound := false;
               original_form := None;
               features := matched_features st |},
            longest_length st)
  | _ => None
  end.

(** The word a pattern proposes at the cursor: its match, stripped, when
    that is not empty. *)
Definition candidate (p : Pattern) (text : pystr) : option pystr :=
  match pattern_match p text with
  | Some g => match strip g with [] => None | w => Some w end
  | None => None
  end.

(** The state of the loop after the patterns [done]: nothing found among
    them, or the earliest of their longest candidates. *)
Definition longest_inv (text : pystr) (lang : Language)
    (done : list (Pattern * string)) (st : longest_state) : Prop :=
  match longest_match st with
  | None =>
      longest_length st = 0%nat
      /\ forall p pos, In (p, pos) done -> candidate p text = None
  | Some w =>
      w <> [] /\ longest_length st = length w
      /\ exists pre p pos post,
          done = pre ++ (p, pos) :: post
          /\ candidate p text = Some w
          /\ matched_pos st = pos
          /\ matched_features st = extract_features lang w pos
          /\ (forall q qpos w', In (q, qpos) pre ->
                candidate q text = Some w' -> (length w' < length w)%nat)
          /\ (forall q qpos w', In (q, qpos) post ->
                candidate q text = Some w' -> (length w' <= length w)%nat)
  end.

End LongestMatch.

(** ** The pattern tables *)

#[local] Open Scope string_scope.

(** An entry of a pattern table: a pattern string, a compiled pattern (kept
    by its source; none of the tables compiles with a flag), or a list of
    pattern strings. *)
Inductive pattern_entry :=
| PStr (p : string)
| PCompiled (p : string)
| PList (ps : list string).

(** A dictionary from a category to its patterns, in insertion order. *)
Definition patterns_dict := list (string * list pattern_entry).

(** [repr] of a string with no quote in it, and of a compiled pattern, as an
    f-string interpolates them. *)
Fixpoint double_backslashes (s : string) : string :=
  match s with
  | EmptyString => EmptyString
  | String c s' =>
      if Ascii.eqb c "\"%char then String c (String c (double_backslashes s'))
      else String c (double_backslashes s')
  end.

Definition repr_str (s : string) : string := "'" ++ double_backslashes s ++ "'".

Definition repr_compiled (p : string) : string := "re.compile(" ++ repr_str p ++ ")".

(** [str] of a list of pairs of strings. *)
Definition str_pairs (l : list (string * string)) : string :=
  "[" ++ String.concat ", "
           (map (fun ab => "(" ++ repr_str (fst ab) ++ ", " ++ repr_str (snd ab) ++ ")") l)
      ++ "]".

(** *** backend/constants/common.py *)

Definition ALPHA := "[A-Za-zａ-ｚＡ-Ｚ]".
Definition DIGIT := "[0-9０-９]".
Definition ALPHA_NUM := "(?:" ++ ALPHA ++ "+|" ++ DIGIT ++ "+)".

Definition SYMBOLS_brackets := "[「」『』（）\[\]｛｝\(\)\{\}〈〉《》【】]".
Definition SYMBOLS_punctuation := "[、。，．,.]".
Definition SYMBOLS_exclamation := "[！!？?‼⁉]".
Definition SYMBOLS_other := "[…―:：;；・~～=＝]".

(** *** backend/constants/japanese.py *)

Definition VERB_STEM_ENDINGS : list (string * string) := [
  ("う", "う"); ("く", "く"); ("ぐ", "ぐ"); ("す", "す"); ("つ", "つ");
  ("ぬ", "ぬ"); ("ぶ", "ぶ"); ("む", "む"); ("る", "る")
].

Definition VERB_CONJUGATION :=
  "(?:ない|ます|ました|まして|ません|ませんでした|"
  ++ "たい|たく|たかった|られる|られた|させる|させた|"
  ++ "そうだ|そうです|たがる|てある|ている|ておく|てしまう)".

Definition ADJ_CONJUGATION :=
  "(?:い|く|かった|くて|くない|かったです|"
  ++ "くありません|くありませんでした|"
  ++ "そうだ|そうです|がる|めだ|すぎる)".

(** *** backend/constants/english.py *)

Definition BE_VERBS : list string := ["\b(?:is|am|are|was|were|be|been|being)\b"].

Definition COMMON_VERBS :=
  "\b(?:have|has|had|do|does|did|"
  ++ "make|made|take|took|get|got|go|went|come|came|"
  ++ "say|said|think|thought|know|knew|see|saw|"
  ++ "want|wanted|use|used|find|found|tell|told|"
  ++ "ask|asked|work|worked|seem|seemed|feel|felt|"
  ++ "try|tried|leave|left|call|called|"
  ++ "love|loved|loves|loving)\b".

Definition VERB_ENDINGS := "(?:ed|ing|s|es|en)\b".
Definition ADJECTIVE_ENDINGS :=
  "(?:ful|less|ous|ive|able|ible|al|ical|ic|ish|like|ly|y|ent|ant)\b".
Definition NOUN_ENDINGS :=
  "(?:tion|sion|ment|ness|ity|ance|ence|ship|hood|dom|er|or|ist|"
  ++ "age|ure|ary|ery|ry|cy|graphy|logy|ics)\b".

(** *** backend/constants/particles.py *)

Definition CASE_PARTICLES : list pystr :=
  [u "は"; u "が"; u "を"; u "に"; u "へ"; u "で"].

Definition IMPORTANT_PARTICLES : list pystr :=
  (CASE_PARTICLES ++ [u "から"; u "まで"])%list.

(** *** backend/constants/patterns.py *)

Definition TRAILING_SYMBOLS :=
  "[" ++ SYMBOLS_punctuation ++ SYMBOLS_exclamation ++ SYMBOLS_brackets ++ "]$".

(** *** backend/patterns/jp_patterns.py *)

Definition JP_SYMBOLS : patterns_dict := [
  ("記号", [
     PStr ("[" ++ repr_compiled SYMBOLS_brackets ++ repr_compiled SYMBOLS_punctuation
           ++ repr_compiled SYMBOLS_exclamation ++ repr_compiled SYMBOLS_other ++ "]");
     PStr ("[" ++ "" ++ "]");
     PStr ("[" ++ "" ++ "]")
   ])
].

Definition JP_INDEPENDENT_WORDS : patterns_dict := [
  ("名詞", [
     PStr KANJI;
     PStr HIRAGANA;
     PStr KATAKANA;
     PCompiled ALPHA_NUM;
     PStr (KANJI_CHARS ++ JAPANESE_CHARS ++ "+");
     PStr "\d+(?:[年月日個円人回台分秒階]|[かが]?月|[かこ]?日)";
     PStr ("(?:" ++ KANJI_CHARS ++ "|" ++ JAPANESE_CHARS
           ++ ")+(?:性|化|法|式|的|論|学|者|家|場|室|所|品)")
   ]);
  ("動詞", [
     PStr (JAPANESE_CHARS ++ "+" ++ str_pairs VERB_STEM_ENDINGS ++ "\b");
     PStr (JAPANESE_CHARS ++ "+" ++ VERB_CONJUGATION ++ "\b");
     PStr ("(?:" ++ JAPANESE_CHARS
           ++ "+)?(?:する|される|した|された|している|されている|しよう|されよう)\b");
     PStr "(?:来|き|く|こ)(?:る|れる|られる|よう|ない|させる)\b";
     PStr (JAPANESE_CHARS ++ "+(?:える|られる)\b")
   ]);
  ("形容詞", [
     PStr (JAPANESE_CHARS ++ "+" ++ ADJ_CONJUGATION ++ "\b");
     PStr (JAPANESE_CHARS ++ "+(?:な|に|だ|で|です|でした|だった|だろう)\b");
     PStr (JAPANESE_CHARS ++ "+たる\b")
   ]);
  ("副詞", [
     PStr ("(?:"
           ++ "とても|非常に|かなり|少し|ちょっと|"
           ++ "全く|まったく|特に|既に|直ぐに|"
           ++ "すぐに|最も|もっと|どう|そう|"
           ++ "ああ|こう|やはり|確か|多分|"
           ++ "恐らく|きっと|必ず|絶対に|"
           ++ "徐々に|次第に|段々|急に|突然|"
           ++ "実に|本当に|正に|大変|相当"
           ++ ")\b");
     PStr (JAPANESE_CHARS ++ "+(?:く|に)\b");
     PStr "(?:[あ-ん]{2})+(?:り|と)?\b"
   ])
].

Definition DEPENDENT_WORDS : patterns_dict := [
  ("助詞", [
     PStr ("(?:"
           ++ "が|の|を|に|へ|と|から|より|で|"
           ++ "による|において|について|として|"
           ++ "ながら|つつ|にて|をもって|において|"
           ++ "によって|に関して|に対して|を通じて"
           ++ ")\b");
     PStr ("(?:"
           ++ "ば|たら|なら|ても|のに|から|"
           ++ "ので|けれども|けど|し|て|"
           ++ "ものの|ところ|ところで|とともに|"
           ++ "ものの|にもかかわらず|ために"
           ++ ")\b");
     PStr ("(?:"
           ++ "は|も|こそ|さえ|でも|しか|"
           ++ "まで|ばかり|だけ|ほど|くらい|"
           ++ "など|なんか|かな|よ|ね|"
           ++ "やら|なり|かしら|っけ|わ|ぞ|ぜ"
           ++ ")\b");
     PStr "(?:や|か|なり|だの|とか)\b"
   ]);
  ("助動詞", [
     PStr "(?:れる|られる|せる|させる|れた|られた|せた|させた|させられる)\b";
     PStr "(?:ない|ぬ|ん|まい|なかった|ません|ませんでした)\b";
     PStr "(?:です|ます|でした|ました|でしょう|ましょう|ください|いただく|なさる)\b";
     PStr "(?:そうだ|ようだ|らしい|かもしれない|にちがいない|はずだ|べきだ|ことができる)\b";
     PStr "(?:ている|てある|ておく|てしまう|ていく|てくる)\b"
   ])
].

Definition SPECIAL : patterns_dict := [
  ("接続詞", [
     PStr ("(?:"
           ++ "しかし|けれども|ただし|また|"
           ++ "および|そして|それに|それから|"
           ++ "したがって|それでは|すなわち|"
           ++ "つまり|例えば|ところで|では|"
           ++ "ところが|だから|そのため|"
           ++ "ならびに|あるいは|もしくは|"
           ++ "なお|ただ|但し|さらに|"
           ++ "というのは|なぜなら|要するに"
           ++ ")\b")
   ]);
  ("感動詞", [
     PStr ("(?:"
           ++ "あ|あっ|ああ|うん|えっ|おお|"
           ++ "おっ|わあ|はい|いいえ|さあ|"
           ++ "よし|よしよし|ええ|あら|まあ|"
           ++ "へえ|ふむ|なるほど|おや|"
           ++ "やあ|いやいや|おっと|わっ|"
           ++ "ありがとう|すみません|失礼|"
           ++ "ごめん|おめでとう|さようなら"
           ++ ")\b")
   ]);
  ("連体詞", [
     PStr ("(?:"
           ++ "この|その|あの|どの|"
           ++ "いわゆる|例の|大きな|小さな|"
           ++ "ある|いろんな|そんな|こんな|"
           ++ "あんな|どんな|たいした"
           ++ ")\b")
   ])
].

(** The four dictionaries have no key in common: merging them is
    concatenation. *)
Definition JP_PATTERNS : patterns_dict :=
  (JP_INDEPENDENT_WORDS ++ DEPENDENT_WORDS ++ SPECIAL ++ JP_SYMBOLS)%list.

(** *** backend/patterns/en_patterns.py *)

Definition EN_SYMBOLS : patterns_dict := [
  ("punctuation", [
     PStr ("[" ++ repr_compiled SYMBOLS_punctuation ++ repr_compiled SYMBOLS_exclamation
           ++ repr_compiled SYMBOLS_other ++ "]");
     PStr ("[" ++ "''" ++ "'']+");
     PStr "[-–—]+"
   ])
].

Definition INDEPENDENT_WORDS : patterns_dict := [
  ("noun", [
     PStr ("\b[A-Z]" ++ repr_compiled ALPHA ++ "[a-z]+\b");
     PStr ("\b" ++ repr_compiled ALPHA ++ "[a-z]+[-\s]" ++ repr_compiled ALPHA
           ++ "[a-z]+\b");
     PStr ("\b[a-z]+" ++ NOUN_ENDINGS);
     PStr ("\b(?:"
           ++ "data|system|user|time|way|day|year|"
           ++ "people|man|woman|child|world|life|work|"
           ++ "part|place|case|group|company|number|"
           ++ "problem|fact|thing|name|area|family|"
           ++ "question|study|business|issue|point|"
           ++ "government|money|service|information"
           ++ ")\b")
   ]);
  ("verb", [
     PList BE_VERBS;
     PStr COMMON_VERBS;
     PStr ("\b[a-z]+" ++ VERB_ENDINGS);
     PStr "\b(?:look|come|go|put|take|get|make|set)\s+(?:up|down|in|out|off|on|away|back)\b"
   ]);
  ("adjective", [
     PStr ("\b[a-z]+" ++ ADJECTIVE_ENDINGS);
     PStr "\b[a-z]+[-][a-z]+(?:ed|ing)\b";
     PStr ("\b(?:"
           ++ "good|bad|big|small|high|low|"
           ++ "new|old|great|important|different|"
           ++ "same|right|wrong|true|false|"
           ++ "happy|sad|beautiful|difficult|"
           ++ "easy|hard|possible|impossible|"
           ++ "long|short|young|strong|weak|"
           ++ "early|late|full|empty|rich|poor|"
           ++ "hot|cold|warm|cool|clean|dirty"
           ++ ")\b")
   ]);
  ("adverb", [
     PStr "\b[a-z]+ly\b";
     PStr "\b(?:extremely|incredibly|absolutely|completely|totally)\b";
     PStr ("\b(?:"
           ++ "very|really|quite|rather|too|"
           ++ "also|just|only|even|still|"
           ++ "again|already|often|always|"
           ++ "never|ever|sometimes|usually|"
           ++ "perhaps|maybe|now|then|here|"
           ++ "there|today|tomorrow|yesterday|"
           ++ "well|quickly|slowly|carefully|"
           ++ "together|apart|anyway|somehow"
           ++ ")\b")
   ])
].

Definition FUNCTION_WORDS : patterns_dict := [
  ("preposition", [
     PStr ("\b(?:"
           ++ "in|on|at|to|for|of|with|by|"
           ++ "from|about|into|through|after|"
           ++ "over|between|out|against|during|"
           ++ "without|before|under|around|among|"
           ++ "across|behind|beyond|within|throughout|"
           ++ "despite|except|like|near|opposite"
           ++ ")\b")
   ]);
  ("article", [
     PStr "\b(?:a|an|the)\b"
   ]);
  ("pronoun", [
     PStr ("\b(?:"
           ++ "I|you|he|she|it|we|they|"
           ++ "me|him|her|us|them|"
           ++ "my|your|his|its|our|their|"
           ++ "mine|yours|hers|ours|theirs"
           ++ ")\b");
     PStr "\b(?:this|that|these|those)\b";
     PStr "\b(?:who|whom|whose|which|what)\b";
     PStr "\b(?:all|any|both|each|every|few|many|none|some|several)\b"
   ]);
  ("conjunction", [
     PStr ("\b(?:"
           ++ "and|or|but|so|because|if|when|while|"
           ++ "although|unless|since|as|than|whether"
           ++ ")\b")
   ])
].

Definition EN_PATTERNS : patterns_dict :=
  (INDEPENDENT_WORDS ++ FUNCTION_WORDS ++ EN_SYMBOLS)%list.

(** *** backend/constants/colors.py *)

Definition GRAY := "#999999".
Definition BLACK := "#000000".
Definition PRIMARY := "#2196F3".
Definition SECONDARY := "#FF9800".
Definition SUCCESS := "#4CAF50".

Definition POS_COLORS : list (string * string) := [
  ("名詞", SUCCESS); ("代名詞", "#8BC34A"); ("動詞", PRIMARY);
  ("形容詞", SECONDARY); ("形容動詞", "#FF5722"); ("副詞", "#9C27B0");
  ("連体詞", "#795548"); ("助詞", "#757575"); ("助動詞", "#607D8B");
  ("接続詞", "#795548"); ("感動詞", "#E91E63"); ("記号", GRAY);
  ("noun", SUCCESS); ("pronoun", "#8BC34A"); ("verb", PRIMARY);
  ("adjective", SECONDARY); ("adverb", "#9C27B0"); ("preposition", "#757575");
  ("conjunction", "#795548"); ("article", "#757575"); ("determiner", "#795548");
  ("interjection", "#E91E63"); ("symbol", GRAY)
].

(** [d.get(key)] for a dictionary with string keys. *)
Fixpoint dict_get {A} (d : list (string * A)) (key : string) : option A :=
  match d with
  | [] => None
  | (k, v) :: d' => if String.eqb k key then Some v else dict_get d' key
  end.

#[local] Close Scope string_scope.

(** ** backend/services/trend/analyzer.py *)

#[local] Open Scope float_scope.

(** An element of the list [_analyze_with_context] returns. *)
Record annotated := {
  word : pystr;
  word_pos : string;
  importance : float;
  color : string
}.

(** [min(a, b)] and [max(a, b)] of Python on floats: the first argument
    unless the second is smaller (larger). *)
Definition py_min (a b : float) : float := if b <? a then b else a.
Definition py_max (a b : float) : float := if a <? b then b else a.

Section Analyzer.
Context {R : Re}.

(** [bool(self.japanese_chars.search(text))]. *)
Definition _is_japanese_text (text : pystr) : bool :=
  re_search (u JAPANESE_CHARS) false text.

(** [bool(re.match(pattern, word))] and [bool(re.match(pattern, word, re.I))]
    for an entry of a table: a compiled pattern accepts no flag, and a list
    is no pattern. *)
Definition match_entry (flag : bool) (pattern : pattern_entry) (word : pystr)
  : result bool :=
  match pattern with
  | PStr p => Ok (is_some (re_match (u p) flag word))
  | PCompiled p =>
      if flag then Raise ValueError else Ok (is_some (re_match (u p) false word))
  | PList _ => Raise TypeError
  end.

(** The first entry of [patterns] that [test] accepts, if any: the inner
    loops, which return at the first match. *)
Fixpoint any_entry (test : pattern_entry -> result bool)
    (patterns : list pattern_entry) : result bool :=
  match patterns with
  | [] => Ok false
  | pattern :: rest =>
      bind (test pattern) (fun b => if b then Ok true else any_entry test rest)
  end.

(** The first category of [table] one of whose patterns is accepted: the
    outer loops. *)
Fixpoint first_category (test : list pattern_entry -> result bool)
    (table : patterns_dict) : result (option string) :=
  match table with
  | [] => Ok None
  | (pos, patterns) :: rest =>
      bind (test patterns)
        (fun b => if b then Ok (Some pos) else first_category test rest)
  end.

Definition _identify_japanese_pos (word : pystr) : result (string * float) :=
  bind (first_category (any_entry (fun p => match_entry false p word)) DEPENDENT_WORDS)
    (fun found =>
       match found with
       | Some pos => Ok (pos, 0.5)
       | None =>
           bind (first_category (any_entry (fun p => match_entry false p word))
                   JP_INDEPENDENT_WORDS)
             (fun found =>
                match found with
                | Some pos => Ok (pos, 2.0)
                | None => Ok ("記号"%string, 0.1)
                end)
       end).

Definition _match_patterns (word : pystr) (patterns : list pattern_entry)
  : result bool :=
  any_entry
    (fun pattern =>
       match pattern with
       | PList ps => Ok (existsb (fun p => is_some (re_match (u p) true word)) ps)
       | _ => match_entry true pattern word
       end)
    patterns.

Definition _identify_english_pos (word : pystr) : result (string * float) :=
  if is_some (re_match (u (hd ""%string BE_VERBS)) true word)
     || is_some (re_match (u COMMON_VERBS) true word)
  then Ok ("verb"%string, 2.0)
  else
    bind (first_category (_match_patterns word) FUNCTION_WORDS)
      (fun found =>
         match found with
         | Some pos => Ok (pos, 0.5)
         | None =>
             bind (first_category (_match_patterns word) INDEPENDENT_WORDS)
               (fun found =>
                  match found with
                  | Some pos => Ok (pos, 2.0)
                  | None => Ok ("symbol"%string, 0.1)
                  end)
         end).

Definition _identify_part_of_speech (word : pystr) : result (string * float) :=
  if _is_japanese_text word then _identify_japanese_pos word
  else _identify_english_pos word.

(** The loop of [_extract_words]: the words found and the word being
    built. *)
Definition extract_step (st : list pystr * pystr) (char : codepoint)
  : list pystr * pystr :=
  let '(words, current_word) := st in
  let flushed :=
    match current_word with
    | [] => words
    | _ => (words ++ [current_word])%list
    end in
  if isspace char then (flushed, [])
  else if _is_japanese_text [char] then (flushed, [char])
  else if _is_japanese_text current_word then (flushed, [char])
  else (words, (current_word ++ [char])%list).

Definition _extract_words (text : pystr) : list pystr :=
  match text with
  | [] => []
  | _ =>
      let '(words, current_word) := fold_left extract_step text ([], []) in
      match current_word with
      | [] => words
      | _ => (words ++ [current_word])%list
      end
  end.

Definition _adjust_by_position (importance : float) (index length : Z) : float :=
  if (index =? 0)%Z || (index =? length - 1)%Z then importance * 1.2
  else importance.

Definition _adjust_by_context (importance : float) (word : pystr)
    (prev_words next_words : list pystr) : float :=
  if str_in word prev_words || str_in word next_words then importance * 1.5
  else importance.

(** [words[i]] for an index in range. *)
Definition word_at (words : list pystr) (i : Z) : pystr :=
  nth (Z.to_nat i) words [].

(** [_identify_part_of_speech(words[index - 1])[0] in tags], evaluated only
    when [pos == tag and index > 0]. *)
Definition previous_tag_in (guard : bool) (words : list pystr) (index : Z)
    (tags : list string) : result bool :=
  if guard then
    bind (_identify_part_of_speech (word_at words (index - 1)))
      (fun r => Ok (existsb (String.eqb (fst r)) tags))
  else Ok false.

Definition _adjust_by_grammar (importance : float) (word : pystr) (pos : string)
    (words : list pystr) (index : Z) : result float :=
  let len := Z.of_nat (length words) in
  if _is_japanese_text word then
    if String.eqb pos "名詞" && (index <? len - 1)%Z
       && str_in (word_at words (index + 1)) IMPORTANT_PARTICLES
    then Ok (importance * 1.3)
    else if String.eqb pos "動詞" && (index =? len - 1)%Z
    then Ok (importance * 1.2)
    else Ok importance
  else
    bind (previous_tag_in (String.eqb pos "noun" && (0 <? index)%Z) words index
            ["article"; "adjective"]%string)
      (fun after_modifier =>
         if after_modifier then Ok (importance * 1.3)
         else
           bind (previous_tag_in (String.eqb pos "verb" && (0 <? index)%Z) words
                   index ["noun"; "pronoun"]%string)
             (fun after_subject =>
                if after_subject then Ok (importance * 1.2) else Ok importance)).

Definition _adjust_importance (word : pystr) (pos : string)
    (base_importance : float) (current_words : list pystr) (current_index : Z)
    (prev_words next_words : list pystr) : result float :=
  let importance := base_importance in
  let importance :=
    _adjust_by_position importance current_index
      (Z.of_nat (length current_words)) in
  let importance := _adjust_by_context importance word prev_words next_words in
  bind (_adjust_by_grammar importance word pos current_words current_index)
    (fun importance => Ok (py_min importance 3.0)).

Definition _get_color_for_pos (pos : string) (importance : float) : string :=
  if importance <=? 0.5 then GRAY
  else match dict_get POS_COLORS pos with
       | Some c => c
       | None => BLACK
       end.

(** The body of the loop of [_analyze_with_context] for the word of index
    [i]. *)
Definition analyze_word (words prev_words next_words : list pystr)
    (i : Z) (w : pystr) : result annotated :=
  bind (_identify_part_of_speech w)
    (fun r =>
       let '(pos, importance) := r in
       bind (_adjust_importance w pos importance words i prev_words next_words)
         (fun importance =>
            Ok {| word := w;
                  word_pos := pos;
                  importance := importance;
                  color := _get_color_for_pos pos importance |})).

(** The loop over [enumerate(words)] from the index [i] on. *)
Fixpoint analyze_from (words prev_words next_words : list pystr)
    (i : Z) (todo : list pystr) : result (list annotated) :=
  match todo with
  | [] => Ok []
  | w :: rest =>
      bind (analyze_word words prev_words next_words i w)
        (fun a =>
           bind (analyze_from words prev_words next_words (i + 1) rest)
             (fun results => Ok (a :: results)))
  end.

Definition _analyze_with_context (sentence : pystr)
    (prev_sentence next_sentence : option pystr) : result (list annotated) :=
  let words := _extract_words sentence in
  let context_words (s : option pystr) :=
    match s with
    | Some (c :: t) => _extract_words (c :: t)
    | _ => []
    end in
  analyze_from words (context_words prev_sentence) (context_words next_sentence)
    0%Z words.

End Analyzer.

#[local] Close Scope float_scope.

(** The base importances of the three classes, and the range of the
    adjusted importance. *)
Definition base_importance (x : float) : Prop :=
  x = 0.5%float \/ x = 2.0%float \/ x = 0.1%float.

Definition importance_in_range (x : float) : Prop :=
  (0 <? x)%float = true /\ (x <=? 3.0)%float = true.

(** Entries [re.match] accepts without a flag, and with one. *)
Definition plain_or_compiled (e : pattern_entry) : bool :=
  match e with PList _ => false | _ => true end.

Definition plain_or_list (e : pattern_entry) : bool :=
  match e with PCompiled _ => false | _ => true end.

(** ** backend/services/trend/analyzer.py: update_trends *)

(** A row of the table [trends], as [update_trends] reads it. *)
Record trend_row := { trend_id : nat; keyword : pystr; count : Z }.

(** The statements that change the store, and [db.commit()]. *)
Inductive db_op :=
| OpUpdate (id : nat) (count : Z)
| OpInsert (keyword : pystr) (count : Z)
| OpCommit.

(** The session: the rows of the table and the statements executed, oldest
    first. *)
Record db := { rows : list trend_row; log : list db_op }.

(** [SELECT id, keyword, count FROM trends WHERE keyword = :word], then
    [fetchone()]. *)
Definition select_by_keyword (d : db) (w : pystr) : option trend_row :=
  find (fun r => pystr_eqb (keyword r) w) (rows d).

(** [UPDATE trends SET count = :count WHERE id = :id]. *)
Definition execute_update (d : db) (id : nat) (c : Z) : db :=
  {| rows := map (fun r => if Nat.eqb (trend_id r) id
                           then {| trend_id := trend_id r; keyword := keyword r; count := c |}
                           else r) (rows d);
     log := log d ++ [OpUpdate id c] |}.

(** [INSERT INTO trends (keyword, count, created_at) VALUES ... RETURNING
    id, keyword, count]: the key is the next one of the auto-increment. *)
Definition execute_insert (d : db) (w : pystr) (c : Z) : trend_row * db :=
  let id := S (fold_right Nat.max 0%nat (map trend_id (rows d))) in
  let r := {| trend_id := id; keyword := w; count := c |} in
  (r, {| rows := rows d ++ [r]; log := log d ++ [OpInsert w c] |}).

Definition commit (d : db) : db := {| rows := rows d; log := log d ++ [OpCommit] |}.

Definition is_write (op : db_op) : Prop :=
  match op with OpCommit => False | _ => True end.

Section UpdateTrends.
Context {R : Re}.

(** What the loop of [update_trends] does with a word that passed the two
    filters: one [UPDATE] or one [INSERT], then the commit. *)
Definition store_keyword (d : db) (w : pystr) : trend_row * db :=
  let '(result, d) :=
    match select_by_keyword d w with
    | Some result => (result, execute_update d (trend_id result) (count result + 1))
    | None => execute_insert d w 1
    end in
  (result, commit d).

(** The word as the loop stores it, or nothing when it is skipped. *)
Definition trend_keyword (w : pystr) : result (option pystr) :=
  bind (_identify_part_of_speech w)
    (fun r =>
       let '(_, importance) := r in
       if (importance <=? 0.5)%float then Ok None
       else
         match re_sub (u TRAILING_SYMBOLS) false [] w with
         | [] => Ok None
         | w' => Ok (Some w')
         end).

Fixpoint update_loop (words : list pystr) (trends : list trend_row) (d : db)
  : result (list trend_row * db) :=
  match words with
  | [] => Ok (trends, d)
  | w :: rest =>
      bind (trend_keyword w)
        (fun kept =>
           match kept with
           | None => update_loop rest trends d
           | Some w' =>
               let '(result, d') := store_keyword d w' in
               update_loop rest (trends ++ [result]) d'
           end)
  end.

Definition update_trends (d : db) (text : pystr) : result (list trend_row * db) :=
  update_loop (_extract_words text) [] d.

(** The keywords one pass stores, with their repetitions, in order. *)
Fixpoint trend_keywords (words : list pystr) : result (list pystr) :=
  match words with
  | [] => Ok []
  | w :: rest =>
      bind (trend_keyword w)
        (fun kept =>
           bind (trend_keywords rest)
             (fun kws => Ok (match kept with Some w' => w' :: kws | None => kws end)))
  end.

End UpdateTrends.

(** ** backend/services/trend/scoring/calculator.py *)

#[local] Open Scope float_scope.

(** The conversion of a Python [int] to a float: round to nearest, ties to
    even, and [OverflowError] beyond the range. *)
Definition float_of_nonneg (z : Z) : float :=
  let n := (Z.log2 z + 1)%Z in
  if (n <=? 62)%Z then of_uint63 (Uint63.of_Z z)
  else
    let shift := (n - 55)%Z in
    let q := Z.shiftr z shift in
    let m := if (z mod 2 ^ shift =? 0)%Z then q else Z.lor q 1 in
    Z.ldexp (of_uint63 (Uint63.of_Z m)) shift.

Definition py_float_of_int (z : Z) : result float :=
  let a := float_of_nonneg (Z.abs z) in
  if is_infinity a then Raise OverflowError
  else Ok (if (z <? 0)%Z then - a else a).

(** [len(str(n))] for an [int]. *)
Fixpoint decimal_digits (fuel : nat) (z : Z) : Z :=
  match fuel with
  | O => 1
  | S f => if (z <? 10)%Z then 1 else (1 + decimal_digits f (z / 10))%Z
  end.

Definition len_str_int (z : Z) : Z :=
  let a := Z.abs z in
  ((if z <? 0 then 1 else 0) + decimal_digits (Z.to_nat (Z.log2 a)) a)%Z.

(** [round(x, 2)] on a float: the float nearest to the decimal with two
    places nearest to [x], ties to even.  Exact while the hundredths of [x]
    fit in 53 bits, as they do below the cap of 10000. *)
Definition py_round2 (x : float) : float :=
  match Prim2SF x with
  | S754_finite s m e =>
      let '(num, den) :=
        if (0 <=? e)%Z then (Zpos m * 2 ^ e * 100, 1)%Z
        else (Zpos m * 100, 2 ^ (- e))%Z in
      let q := (num / den)%Z in
      let r := (num mod den)%Z in
      let k := if (2 * r <? den)%Z then q
               else if (den <? 2 * r)%Z then (q + 1)%Z
               else if Z.even q then q else (q + 1)%Z in
      let v := float_of_nonneg k / 100 in
      if s then - v else v
  | _ => x
  end.

(** [needle in hay] for two strings. *)
Fixpoint substring_in (needle hay : pystr) : bool :=
  startswith hay needle
  || match hay with
     | [] => false
     | _ :: hay' => substring_in needle hay'
     end.

(** [s.split()]: the maximal runs of characters that are no whitespace. *)
Fixpoint split_ws_from (current : pystr) (s : pystr) : list pystr :=
  match s with
  | [] => match current with [] => [] | _ => [rev current] end
  | c :: s' =>
      if isspace c then
        match current with
        | [] => split_ws_from [] s'
        | _ => rev current :: split_ws_from [] s'
        end
      else split_ws_from (c :: current) s'
  end.

Definition split_ws (s : pystr) : list pystr := split_ws_from [] s.

(** The dictionary [_compile_regex_cache], by its keys: the compiled object
    of a key is [re.compile(key, re.I)]. *)
Definition regex_cache := list string.

Record ScoringCalculator := {
  importance_weights : list (string * float);
  (* the set [trend_indicators], in the order its iteration yields *)
  trend_indicators : list pystr
}.

Section Calculator.
Context {R : Re}.
Variable self : ScoringCalculator.

Definition _calculate_time_weight (hours_old : float) : float :=
  if hours_old <=? 0.5 then 1.5
  else if hours_old <=? 1 then 1.2
  else if hours_old <=? 3 then 1.0
  else if hours_old <=? 6 then 0.9
  else if hours_old <=? 12 then 0.7
  else if hours_old <=? 24 then 0.5
  else 0.3.

(** The body of the innermost loop of [check_patterns]: the state is
    [max_weight] and the cache. *)
Definition check_pattern (keyword : pystr) (pattern_type : string)
    (st : float * regex_cache) (pattern : pattern_entry)
  : result (float * regex_cache) :=
  let '(max_weight, cache) := st in
  match pattern with
  | PList _ => Raise TypeError                (* unhashable type: 'list' *)
  | PCompiled _ => Raise ValueError           (* flags with a compiled pattern *)
  | PStr p =>
      bind (if existsb (String.eqb p) cache then Ok cache
            else if re_compiles (u p) then Ok (cache ++ [p])%list
            else Raise ReError)
        (fun cache =>
           if re_search (u p) true keyword then
             match dict_get (importance_weights self) pattern_type with
             | Some weight => Ok (py_max max_weight weight, cache)
             | None => Raise KeyError
             end
           else Ok (max_weight, cache))
  end.

Fixpoint check_pattern_list (keyword : pystr) (pattern_type : string)
    (patterns : list pattern_entry) (st : float * regex_cache)
  : result (float * regex_cache) :=
  match patterns with
  | [] => Ok st
  | pattern :: rest =>
      bind (check_pattern keyword pattern_type st pattern)
        (check_pattern_list keyword pattern_type rest)
  end.

Fixpoint check_patterns (keyword : pystr) (patterns_dict : patterns_dict)
    (st : float * regex_cache) : result (float * regex_cache) :=
  match patterns_dict with
  | [] => Ok st
  | (pattern_type, patterns) :: rest =>
      bind (check_pattern_list keyword pattern_type patterns st)
        (check_patterns keyword rest)
  end.

Definition _calculate_keyword_importance (cache : regex_cache) (keyword : pystr)
    (jp_patterns en_patterns : patterns_dict) : result (float * regex_cache) :=
  let max_weight := 1.0 in
  let keyword := lower keyword in
  bind (check_patterns keyword jp_patterns (max_weight, cache))
    (check_patterns keyword en_patterns).

Definition _evaluate_trend_indicators (keyword : pystr) : float :=
  let keyword_lower := lower keyword in
  let bonus :=
    fold_left
      (fun bonus indicator =>
         if substring_in indicator keyword_lower then bonus + 0.2
         else if existsb (fun part => substring_in part keyword_lower)
                   (split_ws indicator)
         then bonus + 0.1
         else bonus)
      (trend_indicators self) 0.0 in
  let bonus := if char_in (cp "#") keyword then bonus + 0.3 else bonus in
  let bonus := if char_in (cp "@") keyword then bonus + 0.2 else bonus in
  let bonus := if re_search (u "\d+") false keyword then bonus + 0.1 else bonus in
  let bonus := if Nat.leb (length keyword) 10 then bonus + 0.1 else bonus in
  let bonus := if re_search (u "[!?！？]+") false keyword then bonus + 0.15 else bonus in
  let bonus :=
    if re_search (u "(速報|breaking|urgent)") false keyword_lower
    then bonus + 0.25 else bonus in
  py_min bonus 1.0.

Definition calculate_popularity_score (cache : regex_cache) (count : Z)
    (hours_old : float) (keyword : pystr)
    (jp_patterns en_patterns : patterns_dict) : result (float * regex_cache) :=
  match keyword with
  | [] => Ok (0.0, cache)
  | _ =>
      if hours_old <? 0 then Ok (0.0, cache)
      else
        bind (py_float_of_int (count * 10))
          (fun count10 =>
             let base_score :=
               count10 * (1 + 0.1 * float_of_nonneg (len_str_int count)) in
             let time_weight := _calculate_time_weight hours_old in
             bind (_calculate_keyword_importance cache keyword jp_patterns
                     en_patterns)
               (fun r =>
                  let '(importance_weight, cache) := r in
                  let trend_bonus := _evaluate_trend_indicators keyword in
                  let raw_score :=
                    base_score * time_weight * importance_weight
                    * (1 + trend_bonus) in
                  let normalized_score := py_min raw_score 10000 in
                  Ok (py_round2 normalized_score, cache)))
  end.

(** Tables the scan reads without an error: plain patterns that compile,
    in categories that have a weight; and the weights of the patterns of a
    table found in the keyword, in the order of the scan. *)
Definition scannable (table : patterns_dict) : bool :=
  forallb
    (fun kv =>
       is_some (dict_get (importance_weights self) (fst kv))
       && forallb (fun p => match p with
                            | PStr s => re_compiles (u s)
                            | _ => false
                            end) (snd kv))
    table.

Definition matched_weights (keyword : pystr) (table : patterns_dict) : list float :=
  flat_map
    (fun kv =>
       match dict_get (importance_weights self) (fst kv) with
       | Some weight =>
           flat_map (fun p => match p with
                              | PStr s =>
                                  if re_search (u s) true keyword then [weight] else []
                              | _ => []
                              end) (snd kv)
       | None => []
       end)
    table.

End Calculator.

(** *** backend/services/trend/scoring/trend_scoring.py *)

Definition configured_calculator : ScoringCalculator := {|
  importance_weights := [
    ("名詞", 1.0); ("複合名詞", 1.3); ("造語", 1.5); ("ハッシュタグ", 1.4);
    ("noun", 1.0); ("compound", 1.3); ("neologism", 1.5); ("hashtag", 1.4)
  ]%string;
  trend_indicators := [
    u "話題"; u "注目"; u "人気"; u "流行"; u "急上昇"; u "最新"; u "新機能";
    u "trend"; u "viral"; u "popular"; u "new"; u "breaking"; u "latest";
    u "hot"; u "buzz"; u "trending"
  ]
|}.

(** [TrendScoring.calculate_popularity_score]: the calculator is called with
    the two configured tables. *)
Definition trend_score {R : Re} (cache : regex_cache) (count : Z)
    (hours_old : float) (keyword : pystr) : result (float * regex_cache) :=
  calculate_popularity_score configured_calculator cache count hours_old keyword
    JP_PATTERNS EN_PATTERNS.

#[local] Close Scope float_scope.

(** ** backend/patterns/sentiment.py

    The scorer raises a float to a float power.  Its floats are modelled by
    the real numbers they denote: [**] is [Rpower], and [round(x, 3)] rounds
    a real to the nearest multiple of 1/1000, ties to even. *)

#[local] Open Scope R_scope.

Record SentimentPattern := {
  sentiment_word : string;
  score : R;
  weight : R
}.

Definition SENTIMENT_PATTERNS : list SentimentPattern := [
  {| sentiment_word := "ポジティブ"; score := 12/10; weight := 1 |};
  {| sentiment_word := "最高"; score := 15/10; weight := 12/10 |};
  {| sentiment_word := "素晴らしい"; score := 14/10; weight := 1 |};
  {| sentiment_word := "良い"; score := 11/10; weight := 1 |};
  {| sentiment_word := "好き"; score := 12/10; weight := 1 |};
  {| sentiment_word := "嬉しい"; score := 13/10; weight := 1 |};
  {| sentiment_word := "楽しい"; score := 13/10; weight := 1 |};
  {| sentiment_word := "ネガティブ"; score := 7/10; weight := 1 |};
  {| sentiment_word := "悪い"; score := 8/10; weight := 1 |};
  {| sentiment_word := "残念"; score := 7/10; weight := 1 |};
  {| sentiment_word := "嫌い"; score := 7/10; weight := 1 |};
  {| sentiment_word := "つまらない"; score := 8/10; weight := 1 |};
  {| sentiment_word := "不満"; score := 7/10; weight := 1 |}
].

(** The integer nearest to a real, ties to even. *)
Definition round_half_even (y : R) : Z :=
  let f := Int_part y in
  if Rlt_dec (y - IZR f) (1/2) then f
  else if Rlt_dec (1/2) (y - IZR f) then (f + 1)%Z
  else if Z.even f then f else (f + 1)%Z.

(** [round(x, 3)]. *)
Definition py_round3 (x : R) : R := IZR (round_half_even (x * 1000)) / 1000.

Section Sentiment.
Context {re_module : Re}.

(** The first loop: the dictionary [word_counts], by insertion. *)
Definition word_counts (text : pystr) : list (string * nat) :=
  fold_left
    (fun counts pattern =>
       let count := re_findall_count (u (sentiment_word pattern)) text in
       if Nat.ltb 0 count
       then (counts ++ [(sentiment_word pattern, count)])%list
       else counts)
    SENTIMENT_PATTERNS [].

(** The second loop, from the score [sentiment_score] on. *)
Definition sentiment_product (counts : list (string * nat))
    (patterns : list SentimentPattern) (sentiment_score : R) : R :=
  fold_left
    (fun sentiment_score pattern =>
       match dict_get counts (sentiment_word pattern) with
       | Some count =>
           sentiment_score * Rpower (score pattern) (INR count * weight pattern)
       | None => sentiment_score
       end)
    patterns sentiment_score.

Definition analyze_sentiment (text : pystr) : R :=
  match text with
  | [] => 1
  | _ =>
      py_round3 (sentiment_product (word_counts text) SENTIMENT_PATTERNS 1)
  end.

End Sentiment.

#[local] Close Scope R_scope.

(** * The rest of the pipeline

    The functions of the same modules that surround the ones above: the
    entry point [analyze] of the analyzer and what [update_trends] leaves
    in the store, the helpers of the tokenizer for compounds, unknown tokens
    and base forms, and the orders on binary64 numbers the calculator
    compares with. *)

(** ** backend/constants/patterns.py: SENTENCE_SEPARATORS *)

#[local] Open Scope string_scope.

Definition SENTENCE_SEPARATORS : string :=
  "(?<=[。．.!?！？])\s*(?=[^」』）\]｝}、。．.!?！？]|$)|"
  ++ "(?<=[\n])\s*(?=[^\s])|"
  ++ "(?<=」|』|）|\]|｝|})\s*(?=[^、。．.!?！？])".

#[local] Close Scope string_scope.

(** ** backend/services/trend/analyzer.py: analyze *)

(** The entry [analyze] puts between two sentences. *)
Definition sentence_break : annotated :=
  {| word := u "。"; word_pos := "記号"; importance := 0.1%float; color := GRAY |}.

(** [if s.strip()]. *)
Definition nonblank (s : pystr) : bool :=
  match strip s with [] => false | _ => true end.

Section Analyze.
Context {R : Re}.

(** The loop over [enumerate(sentences)] from the index [i] on; the result
    is what the loop adds to [all_results]. *)
Fixpoint analyze_loop (sentences : list pystr) (i : Z) (todo : list pystr)
  : result (list annotated) :=
  match todo with
  | [] => Ok []
  | sentence :: rest =>
      let last := (Z.of_nat (length sentences) - 1)%Z in
      let prev_sentence :=
        if (0 <? i)%Z then Some (nth (Z.to_nat (i - 1)) sentences []) else None in
      let next_sentence :=
        if (i <? last)%Z then Some (nth (Z.to_nat (i + 1)) sentences []) else None in
      bind (_analyze_with_context sentence prev_sentence next_sentence)
        (fun results =>
           let added :=
             results ++ (if (i <? last)%Z then [sentence_break] else []) in
           bind (analyze_loop sentences (i + 1) rest)
             (fun more => Ok (added ++ more)))
  end.

Definition analyze (text : pystr) : result (list annotated) :=
  let sentences := re_split (u SENTENCE_SEPARATORS) text in
  let sentences := map strip (filter nonblank sentences) in
  analyze_loop sentences 0%Z sentences.

End Analyze.

(** The words of several sentences in one list, with [sep] between the
    words of two consecutive sentences. *)
Fixpoint join_with (sep : pystr) (groups : list (list pystr)) : list pystr :=
  match groups with
  | [] => []
  | [g] => g
  | g :: rest => g ++ sep :: join_with sep rest
  end.

(** The tags of the three classes of [_identify_part_of_speech], by
    language. *)
Definition JP_DEPENDENT_TAGS : list string := ["助詞"; "助動詞"]%string.
Definition JP_INDEPENDENT_TAGS : list string :=
  ["名詞"; "動詞"; "形容詞"; "副詞"]%string.
Definition EN_FUNCTION_TAGS : list string :=
  ["preposition"; "article"; "pronoun"; "conjunction"]%string.
Definition EN_INDEPENDENT_TAGS : list string :=
  ["noun"; "verb"; "adjective"; "adverb"]%string.

(** ** backend/services/trend/analyzer.py: the store after update_trends *)

(** The count the table holds for a keyword, 0 when it holds none, and the
    number of times a keyword occurs in a list. *)
Definition stored_count (d : db) (w : pystr) : Z :=
  match select_by_keyword d w with
  | Some r => count r
  | None => 0%Z
  end.

Definition occurrences (w : pystr) (kws : list pystr) : Z :=
  Z.of_nat (length (filter (pystr_eqb w) kws)).

(** The count of the entry [update_trends] returns for the keyword [w]
    after it has stored the keywords [before] in the same pass: the count
    read before the increment, or 1 for a keyword the table did not hold. *)
Definition reported_count (d : db) (before : list pystr) (w : pystr) : Z :=
  if is_some (select_by_keyword d w) || (0 <? occurrences w before)%Z
  then (stored_count d w + occurrences w before)%Z
  else 1%Z.

(** ** backend/constants/english.py and japanese.py: the words of the
       tokenizer helpers *)

#[local] Open Scope string_scope.

Definition COMPOUND_WORDS : list string := [
  "\b[A-Za-z]+[-][A-Za-z]+\b";
  "\b(?:"
  ++ "database|software|hardware|network|"
  ++ "website|smartphone|background|"
  ++ "everything|something|nothing|"
  ++ "anyone|everyone|somebody|nobody|"
  ++ "lifestyle|workplace|hometown|"
  ++ "worldwide|nationwide|citywide|"
  ++ "downtown|uptown|indoor|outdoor|"
  ++ "daytime|nighttime|lifetime|"
  ++ "healthcare|elsewhere|nevertheless|"
  ++ "nowadays|otherwise|meanwhile"
  ++ ")\b"
].

Definition TECH_WORDS : list string := [
  "\b[A-Za-z]+(?:"
  ++ "tech|net|web|app|bot|"
  ++ "gram|book|tube|pod|cast|"
  ++ "ware|gate|cloud|data|code|"
  ++ "stack|base|store|space|"
  ++ "link|chain|coin|verse|"
  ++ "sync|flow|hub|lab|"
  ++ "soft|cyber|crypto"
  ++ ")\b"
].

Definition BASIC_PARTICLES := "[はがをのにへとでもや]".

#[local] Close Scope string_scope.

(** ** backend/patterns/tokenizer.py: the helpers *)

(** [Token(text, pos, language)], the other fields at their defaults. *)
Definition simple_token (text : pystr) (pos : string) (language : Language)
  : Token :=
  {| text := text; pos := pos; language := language;
     is_compound := false; original_form := None; features := [] |}.

(** [Token(compound, pos, language, is_compound=True)]. *)
Definition compound_token (compound : pystr) (pos : string) (language : Language)
  : Token :=
  {| text := compound; pos := pos; language := language;
     is_compound := true; original_form := None; features := [] |}.

(** [_check_compound_word]: the result, and the set [seen_compounds] as the
    call leaves it.  The set is kept by its members. *)
Definition _check_compound_word (text : pystr) (lang : Language)
    (seen_compounds : list pystr)
  : option (Token * nat) * list pystr :=
  match lang with
  | JAPANESE =>
      let compounds :=
        filter (fun w => negb (str_in w seen_compounds)) (map u COMPOUND_WORDS) in
      match find (fun compound => startswith text compound) compounds with
      | Some compound =>
          (Some (compound_token compound "複合語" JAPANESE, length compound),
           compound :: seen_compounds)
      | None => (None, seen_compounds)
      end
  | _ =>
      let compounds :=
        filter (fun w => negb (str_in w seen_compounds)) (map u TECH_WORDS) in
      match find (fun compound => startswith (lower text) (lower compound))
              compounds with
      | Some compound =>
          (Some (compound_token compound "compound" ENGLISH, length compound),
           compound :: seen_compounds)
      | None => (None, seen_compounds)
      end
  end.

(** [word.endswith((s1, s2, ...))]. *)
Definition endswith_any (word : pystr) (suffixes : list string) : bool :=
  existsb (fun s => endswith word (u s)) suffixes.

Definition _guess_en_pos (word : pystr) : string :=
  if endswith_any word ["tion"; "sion"; "ness"; "ment"]%string then "noun"
  else if endswith word (u "ly") then "adverb"
  else if endswith_any word ["ful"; "ous"; "ive"; "able"; "ible"]%string
  then "adjective"
  else if endswith_any word ["ize"; "ise"; "ate"; "ify"]%string then "verb"
  else "unknown".

(** [word[:-n]]; with [n = 0] the slice [word[:0]] is empty. *)
Definition drop_last (n : nat) (word : pystr) : pystr :=
  match n with
  | O => []
  | _ => firstn (length word - n) word
  end.

(** The loop of [_estimate_base_form] over the pairs [(ending, base)]: the
    value it returns, if it returns. *)
Fixpoint estimate_by_ending (endings : list (string * string)) (word : pystr)
  : option pystr :=
  match endings with
  | [] => None
  | (ending, base) :: rest =>
      if endswith word (u ending)
      then Some (drop_last (length (u ending)) word ++ u base)
      else estimate_by_ending rest word
  end.

(** What [text[0]] returns, or the [IndexError] it raises on an empty
    string. *)
Inductive or_index_error (A : Type) : Type :=
| Returns (a : A)
| IndexError.
Arguments Returns {A} a.
Arguments IndexError {A}.

Section TokenizerHelpers.
Context {R : Re}.

Definition _estimate_base_form (word : pystr) (lang : Language) : pystr :=
  match lang with
  | JAPANESE =>
      match estimate_by_ending VERB_STEM_ENDINGS word with
      | Some base_form => base_form
      | None => word
      end
  | _ =>
      if endswith word (u "ing") then re_sub (u "ing$") false [] word
      else if endswith word (u "ed") then re_sub (u "ed$") false [] word
      else if endswith word (u "s") then re_sub (u "s$") false [] word
      else word
  end.

(** The two ratios are quotients of lengths, exact as floats below 2^53. *)
Definition _detect_language (text : pystr) : Language :=
  let ratio (pattern : pystr) : float :=
    match text with
    | [] => 0%float
    | _ =>
        (float_of_nonneg (Z.of_nat (re_findall_count pattern text))
         / float_of_nonneg (Z.of_nat (length text)))%float
    end in
  if (0.3 <? ratio (u JAPANESE_CHARS))%float then JAPANESE
  else if (0.3 <? ratio (u "[a-zA-Z]"))%float then ENGLISH
  else UNKNOWN.

Definition _handle_unknown_token (text : pystr) : or_index_error Token :=
  match re_match (u "\b[a-zA-Z]+(?:'[a-zA-Z]+)?\b") false text with
  | Some word => Returns (simple_token word (_guess_en_pos word) ENGLISH)
  | None =>
      match re_match (u "\b\d+(?:\.\d+)?\b") false text with
      | Some number => Returns (simple_token number "number" UNKNOWN)
      | None =>
          match re_match (u BASIC_PARTICLES) false text with
          | Some particle => Returns (simple_token particle "助詞" JAPANESE)
          | None =>
              match text with
              | [] => IndexError
              | first :: _ =>
                  Returns (simple_token [first] "unknown" (_detect_language [first]))
              end
          end
      end
  end.

End TokenizerHelpers.

(** The least number of characters a match of a pattern consumes. *)
Fixpoint min_width (r : Regex.regex) : nat :=
  match r with
  | Regex.REps | Regex.RWordB | Regex.RBol | Regex.REol
  | Regex.RLookahead _ _ | Regex.RLookbehind _ _ => 0
  | Regex.RChar _ | Regex.RAny | Regex.RSet _ _ => 1
  | Regex.RCat a b => min_width a + min_width b
  | Regex.RAlt a b => Nat.min (min_width a) (min_width b)
  | Regex.RRepeat a lo _ => lo * min_width a
  end.

(** ** Binary64 numbers: sign and order

    The numbers the calculator adds are zero or positive; [nonneg] says so
    of the value of a float, and excludes NaN. *)
Definition sf_nonneg (x : spec_float) : bool :=
  match x with
  | S754_zero _ | S754_finite false _ _ | S754_infinity false => true
  | _ => false
  end.

Definition nonneg (x : float) : bool := sf_nonneg (Prim2SF x).

(** ** Invariants of the loops

    What the proofs below keep true from one iteration to the next. *)

Section Invariants.
Context {R : Re}.

(** *** _extract_words *)

(** What [_extract_words] promises of a word: it is not empty, holds no
    whitespace, and is one character long or holds no character the
    analyzer takes for Japanese. *)
Definition extracted_word (w : pystr) : Prop :=
  w <> []
  /\ forallb (fun c => negb (isspace c)) w = true
  /\ (length w = 1%nat
      \/ forallb (fun c => negb (_is_japanese_text [c])) w = true).

(** The word being built: empty, or one Japanese character, or characters
    none of which is Japanese. *)
Definition building (current_word : pystr) : Prop :=
  forallb (fun c => negb (isspace c)) current_word = true
  /\ ((exists c, current_word = [c] /\ _is_japanese_text current_word = true)
      \/ forallb (fun c => negb (_is_japanese_text [c])) current_word = true).

Definition extract_inv (read : pystr) (st : list pystr * pystr) : Prop :=
  Forall extracted_word (fst st)
  /\ building (snd st)
  /\ concat (fst st) ++ snd st = filter (fun c => negb (isspace c)) read.

(** *** tokenize_sentence *)

(** The text of a token: not empty, free of separators, all ASCII or free
    of ASCII, and one character long when it holds a character the pattern
    [JAPANESE_CHARS] matches. *)
Definition token_text (w : pystr) : Prop :=
  w <> []
  /\ forallb (fun c => negb (is_separator c)) w = true
  /\ (forallb isascii_char w = true
      \/ forallb (fun c => negb (isascii_char c)) w = true)
  /\ (length w = 1%nat
      \/ forallb (fun c => negb (is_some (re_match (u JAPANESE_CHARS) false [c]))) w
         = true).

(** The word being built, by the kind of its characters. *)
Definition word_of_type (ty : option char_type) (w : pystr) : Prop :=
  forallb (fun c => negb (is_separator c)) w = true
  /\ match ty with
     | None => w = []
     | Some CT_jp => (length w <= 1)%nat
     | Some CT_en =>
         forallb isascii_char w = true
         /\ forallb (fun c => negb (is_some (re_match (u JAPANESE_CHARS) false [c]))) w
            = true
     | Some CT_other =>
         forallb (fun c => negb (isascii_char c)) w = true
         /\ forallb (fun c => negb (is_some (re_match (u JAPANESE_CHARS) false [c]))) w
            = true
     end.

Definition shape_inv (st : tok_state) : Prop :=
  Forall (fun t => token_text (text t)) (tokens st)
  /\ word_of_type (current_type st) (current_word st).

(** *** split_sentences: every sentence emitted so far is stripped *)

Definition stripped_inv (st : split_state) : Prop :=
  Forall (fun s => strip s = s) (fst st).

End Invariants.

(** The three classes of a tag and its importance. *)
Definition class_of (dependent independent : list string) (symbol : string)
    (pos : string) (imp : float) : Prop :=
  (imp = 0.5%float /\ In pos dependent)
  \/ (imp = 2.0%float /\ In pos independent)
  \/ (imp = 0.1%float /\ pos = symbol).

(** The loop of a repetition, with the matcher of the repeated pattern as
    a parameter. *)
Definition repeat_matches (step : Regex.cursor -> list Regex.cursor) :=
  fix rep (fuel lo : nat) (hi : option nat) (k : Regex.cursor)
    : list Regex.cursor :=
    match fuel with
    | O => []
    | S f =>
        let again :=
          match hi with
          | Some O => []
          | _ =>
              flat_map
                (fun k' =>
                   if Nat.ltb (length (Regex.rest k')) (length (Regex.rest k))
                      || Nat.ltb 0 lo
                   then rep f (Nat.pred lo) (option_map Nat.pred hi) k'
                   else [])
                (step k)
          end in
        again ++ (if Nat.eqb lo 0 then [k] else [])
    end.


(** The pattern strings of a table, in the order of the scan. *)
Definition table_patterns (table : patterns_dict) : list string :=
  flat_map
    (fun kv => flat_map (fun p => match p with PStr s => [s] | _ => [] end) (snd kv))
    table.

(** * Properties *)

(** ** Python strings *)

Lemma pystr_eqb_eq (a b : pystr) : pystr_eqb a b = true <-> a = b.
Proof.
  revert b; induction a as [|x a IH]; intros [|y b]; simpl; try easy.
  rewrite andb_true_iff, N.eqb_eq, IH. split.
  - intros [-> ->]; reflexivity.
  - intros H; injection H; auto.
Qed.


(** ** tokenize_sentence *)

Section TokenizerFacts.
Context {R : Re}.

Lemma _create_token_plain (w : pystr) : plain (_create_token w).
Proof.
  unfold plain, _create_token.
  destruct (re_search _ _ _); [|destruct (isascii w)]; simpl; auto.
Qed.

Lemma _create_token_text (w : pystr) : text (_create_token w) = w.
Proof.
  unfold _create_token.
  destruct (re_search _ _ _); [|destruct (isascii w)]; reflexivity.
Qed.

Lemma flush_plain (st : tok_state) :
  Forall plain (tokens st) -> Forall plain (flush st).
Proof.
  intros H. unfold flush. destruct (current_word st); [assumption|].
  apply Forall_app; split; [assumption|].
  constructor; [apply _create_token_plain | constructor].
Qed.

Lemma tokenize_step_plain (st : tok_state) (c : codepoint) :
  Forall plain (tokens st) -> Forall plain (tokens (tokenize_step st c)).
Proof.
  intros H. unfold tokenize_step.
  destruct (char_in c _); [apply flush_plain, H|].
  destruct (isspace c); [apply flush_plain, H|].
  simpl. match goal with |- context [if ?b then _ else st] => destruct b end;
    simpl; [apply flush_plain, H | exact H].
Qed.

Lemma fold_tokenize_plain (s : pystr) (st : tok_state) :
  Forall plain (tokens st) ->
  Forall plain (tokens (fold_left tokenize_step s st)).
Proof.
  revert st; induction s as [|c s IH]; intros st H; simpl; [exact H|].
  apply IH, tokenize_step_plain, H.
Qed.

Lemma flush_text (st : tok_state) :
  concat (map text (flush st)) = read_so_far st.
Proof.
  unfold flush, read_so_far. destruct (current_word st) as [|c w] eqn:E.
  - now rewrite app_nil_r.
  - rewrite map_app, concat_app. simpl.
    now rewrite _create_token_text, app_nil_r.
Qed.

Lemma tokenize_step_text (st : tok_state) (c : codepoint) :
  read_so_far (tokenize_step st c) =
  read_so_far st ++ (if is_separator c then [] else [c]).
Proof.
  unfold tokenize_step, is_separator.
  destruct (char_in c _); simpl.
  - unfold read_so_far at 1; simpl. now rewrite flush_text, !app_nil_r.
  - destruct (isspace c); simpl.
    + unfold read_so_far at 1; simpl. now rewrite flush_text, !app_nil_r.
    + match goal with |- context [if ?b then _ else st] => destruct b end.
      * unfold read_so_far at 1; simpl. now rewrite flush_text.
      * unfold read_so_far; simpl. now rewrite app_assoc.
Qed.

Lemma fold_tokenize_text (s : pystr) (st : tok_state) :
  read_so_far (fold_left tokenize_step s st) =
  read_so_far st ++ filter (fun c => negb (is_separator c)) s.
Proof.
  revert st; induction s as [|c s IH]; intros st; simpl.
  - now rewrite app_nil_r.
  - rewrite IH, tokenize_step_text, <- app_assoc.
    destruct (is_separator c); reflexivity.
Qed.

Lemma tokenize_sentence_text (s : pystr) :
  concat (map text (tokenize_sentence s)) =
  filter (fun c => negb (is_separator c)) s.
Proof.
  unfold tokenize_sentence. rewrite flush_text, fold_tokenize_text.
  reflexivity.
Qed.

(** C10.  Every token [tokenize_sentence] returns has [is_compound = False],
    [original_form = None] and an empty [features] mapping: each one is
    built by [_create_token], and neither the compound-word check nor the
    feature extraction is called on this path. *)
Theorem tokenize_sentence_tokens_plain (sentence : pystr) :
  Forall (fun t => is_compound t = false /\ original_form t = None
                   /\ features t = [])
         (tokenize_sentence sentence).
Proof.
  unfold tokenize_sentence.
  apply flush_plain, fold_tokenize_plain. constructor.
Qed.

(** C4, as amended.  A sentence with at least one character that is neither
    whitespace nor one of the six comma and period marks yields at least one
    token; the texts of the tokens, in order, spell the sentence without its
    separators; and the result is a function of the sentence alone. *)
Theorem tokenize_sentence_nonempty (sentence : pystr) :
  existsb (fun c => negb (is_separator c)) sentence = true ->
  tokenize_sentence sentence <> []
  /\ concat (map text (tokenize_sentence sentence)) =
     filter (fun c => negb (is_separator c)) sentence
  /\ (forall s', s' = sentence -> tokenize_sentence s' = tokenize_sentence sentence).
Proof.
  intros H. split; [|split].
  - intros E. pose proof (tokenize_sentence_text sentence) as T.
    rewrite E in T. simpl in T.
    apply existsb_exists in H. destruct H as [c [Hin Hc]].
    assert (In c (filter (fun c => negb (is_separator c)) sentence)) as F
      by (apply filter_In; split; assumption).
    rewrite <- T in F. exact F.
  - apply tokenize_sentence_text.
  - intros s' ->. reflexivity.
Qed.

End TokenizerFacts.

(** The amended C4 at the sentence "AI 猫": three tokens. *)
Lemma tokenize_sentence_nonempty_witness :
  tokenize_sentence (u "AI 猫") <> []
  /\ concat (map text (tokenize_sentence (u "AI 猫"))) =
     filter (fun c => negb (is_separator c)) (u "AI 猫")
  /\ (forall s', s' = u "AI 猫" ->
      tokenize_sentence s' = tokenize_sentence (u "AI 猫")).
Proof. apply (tokenize_sentence_nonempty (u "AI 猫")). vm_compute. reflexivity. Defined.

(** C4 as stated fails: a sentence of one space, or of one period, is not
    empty and has no token. *)
Lemma tokenize_sentence_blank_has_no_token :
  u " " <> [] /\ tokenize_sentence (u " ") = []
  /\ u "。" <> [] /\ tokenize_sentence (u "。") = [].
Proof. vm_compute. repeat split; discriminate. Qed.

(** ** _is_balanced and split_sentences *)

Lemma pairs_get_In (d : list (codepoint * codepoint)) (c v : codepoint) :
  pairs_get d c = Some v -> In (c, v) d.
Proof.
  induction d as [|[k w] d IH]; simpl; [discriminate|].
  destruct (N.eqb_spec k c) as [->|_].
  - intros [= ->]. now left.
  - intros H. right. now apply IH.
Qed.

Lemma pairs_not_space :
  forallb (fun kv => negb (isspace (fst kv)) && negb (isspace (snd kv))) pairs
  = true.
Proof. vm_compute. reflexivity. Qed.

(** A whitespace character is no backslash and no bracket of [pairs]. *)
Lemma space_inert (c : codepoint) :
  isspace c = true ->
  (c =? cp "\") = false
  /\ is_some (pairs_get pairs c) = false
  /\ in_values pairs c = false.
Proof.
  intros Hs. pose proof pairs_not_space as P.
  rewrite forallb_forall in P. split; [|split].
  - apply N.eqb_neq. intros ->. vm_compute in Hs. discriminate.
  - destruct (pairs_get pairs c) as [v|] eqn:E; [|reflexivity].
    apply pairs_get_In, P in E. simpl in E. rewrite Hs in E. discriminate.
  - destruct (in_values pairs c) eqn:E; [|reflexivity].
    unfold in_values in E. apply existsb_exists in E.
    destruct E as [kv [Hin Heq]]. apply N.eqb_eq in Heq.
    apply P in Hin. cbv beta in Hin. subst c.
    apply andb_true_iff in Hin. destruct Hin as [_ Hin].
    apply negb_true_iff in Hin.
    exact (eq_trans (eq_sym Hs) Hin).
Qed.

Lemma balanced_loop_cons (char : codepoint) (rest : pystr) (i : nat)
    (stack : list (codepoint * nat)) (escaped : bool) :
  balanced_loop (char :: rest) i stack escaped =
  if char =? cp "\" then balanced_loop rest (S i) stack true
  else if escaped then balanced_loop rest (S i) stack false
  else if is_some (pairs_get pairs char) then
    balanced_loop rest (S i) ((char, i) :: stack) false
  else if in_values pairs char then
    match stack with
    | [] => false
    | (last_char, _) :: stack' =>
        match pairs_get pairs last_char with
        | Some close =>
            if negb (close =? char) then false
            else balanced_loop rest (S i) stack' false
        | None => false
        end
    end
  else balanced_loop rest (S i) stack false.
Proof. reflexivity. Qed.

(** The indices kept on the stack play no part in the answer. *)
Lemma balanced_loop_index (text : pystr) :
  forall i j stack stack' escaped,
    map fst stack = map fst stack' ->
    balanced_loop text i stack escaped = balanced_loop text j stack' escaped.
Proof.
  induction text as [|c text IH]; intros i j stack stack' escaped E.
  - simpl. now rewrite <- (length_map fst stack), E, length_map.
  - rewrite !balanced_loop_cons.
    destruct (c =? cp "\"); [now apply IH|].
    destruct escaped; [now apply IH|].
    destruct (is_some (pairs_get pairs c)).
    + apply IH. simpl. now rewrite E.
    + destruct (in_values pairs c); [|now apply IH].
      destruct stack as [|[l n] stack], stack' as [|[l' n'] stack'];
        try discriminate; [reflexivity|].
      injection E as -> E.
      destruct (pairs_get pairs l') as [close|]; [|reflexivity].
      destruct (negb (close =? c)); [reflexivity|now apply IH].
Qed.

Lemma balanced_loop_spaces (ws : pystr) :
  Forall (fun c => isspace c = true) ws ->
  forall i stack escaped,
    balanced_loop ws i stack escaped = Nat.eqb (length stack) 0.
Proof.
  induction 1 as [|c ws Hc _ IH]; intros i stack escaped; [reflexivity|].
  rewrite balanced_loop_cons.
  destruct (space_inert c Hc) as [-> [-> ->]].
  destruct escaped; apply IH.
Qed.

Lemma balanced_loop_app_spaces (s ws : pystr) :
  Forall (fun c => isspace c = true) ws ->
  forall i stack escaped,
    balanced_loop (s ++ ws) i stack escaped = balanced_loop s i stack escaped.
Proof.
  intros H. induction s as [|c s IH]; intros i stack escaped.
  - now apply balanced_loop_spaces.
  - rewrite <- app_comm_cons, !balanced_loop_cons.
    destruct (c =? cp "\"); [apply IH|].
    destruct escaped; [apply IH|].
    destruct (is_some (pairs_get pairs c)); [apply IH|].
    destruct (in_values pairs c); [|apply IH].
    destruct stack as [|[l n] stack]; [reflexivity|].
    destruct (pairs_get pairs l) as [close|]; [|reflexivity].
    destruct (negb (close =? c)); [reflexivity|apply IH].
Qed.

Lemma lstrip_spec (s : pystr) :
  exists ws, Forall (fun c => isspace c = true) ws /\ s = ws ++ lstrip s.
Proof.
  induction s as [|c s [ws [Hws E]]]; simpl.
  - exists []. split; [constructor|reflexivity].
  - destruct (isspace c) eqn:Hc.
    + exists (c :: ws). split; [now constructor|]. simpl. now rewrite <- E.
    + exists []. split; [constructor|reflexivity].
Qed.

Lemma rstrip_spec (s : pystr) :
  exists ws, Forall (fun c => isspace c = true) ws /\ s = rstrip s ++ ws.
Proof.
  destruct (lstrip_spec (rev s)) as [ws [Hws E]].
  exists (rev ws). split.
  - apply Forall_rev, Hws.
  - unfold rstrip. rewrite <- rev_app_distr, <- E. now rewrite rev_involutive.
Qed.

Lemma _is_balanced_lstrip (s : pystr) : _is_balanced (lstrip s) = _is_balanced s.
Proof.
  unfold _is_balanced. induction s as [|c s IH]; [reflexivity|].
  cbn [lstrip]. destruct (isspace c) eqn:Hc; [|reflexivity].
  rewrite (balanced_loop_cons c).
  destruct (space_inert c Hc) as [-> [-> ->]].
  rewrite IH. now apply balanced_loop_index.
Qed.

(** Stripping a string does not change whether it is balanced. *)
Lemma _is_balanced_strip (s : pystr) : _is_balanced (strip s) = _is_balanced s.
Proof.
  unfold strip. rewrite <- (_is_balanced_lstrip s).
  destruct (rstrip_spec (lstrip s)) as [ws [Hws E]].
  rewrite E at 2. unfold _is_balanced.
  now rewrite balanced_loop_app_spaces.
Qed.

(** *** The check of [_is_balanced], stated on the string *)

Lemma pairs_get_key (d : list (codepoint * codepoint)) (c : codepoint) :
  is_some (pairs_get d c) = true -> In c (map fst d).
Proof.
  induction d as [|[k v] d IH]; cbn [pairs_get map fst]; [discriminate|].
  destruct (N.eqb_spec k c) as [->|_]; [now left|].
  intros H. right. now apply IH.
Qed.

Lemma in_values_value (d : list (codepoint * codepoint)) (c : codepoint) :
  in_values d c = true -> In c (map snd d).
Proof.
  unfold in_values. rewrite existsb_exists. intros [[k v] [Hin E]].
  apply N.eqb_eq in E. cbn [snd] in E. subst v.
  apply in_map_iff. exists (k, c). now split.
Qed.

(** A character that is no bracket passes both tests of the loop. *)
Lemma not_bracket (c : codepoint) :
  ~ In c brackets ->
  is_some (pairs_get pairs c) = false /\ in_values pairs c = false.
Proof.
  unfold brackets. intros H. split.
  - destruct (is_some (pairs_get pairs c)) eqn:E; [|reflexivity].
    exfalso. apply H, in_or_app. left. now apply pairs_get_key.
  - destruct (in_values pairs c) eqn:E; [|reflexivity].
    exfalso. apply H, in_or_app. right. now apply in_values_value.
Qed.

(** A character that passes both tests is no bracket. *)
Lemma bracket_tests (c : codepoint) :
  is_some (pairs_get pairs c) = false -> in_values pairs c = false ->
  ~ In c brackets.
Proof.
  unfold brackets. intros Hk Hv H. apply in_app_or in H. destruct H as [H|H].
  - apply in_map_iff in H. destruct H as [[k v] [E H]]. cbn [fst] in E. subst k.
    revert Hk. clear Hv. induction pairs as [|[k' v'] d IH];
      cbn [pairs_get]; [destruct H|].
    destruct (N.eqb_spec k' c) as [->|Hne]; [discriminate|].
    destruct H as [[= -> ->]|H]; [now destruct Hne|now apply IH].
  - apply in_map_iff in H. destruct H as [[k v] [E H]]. cbn [snd] in E. subst v.
    assert (in_values pairs c = true) as E; [|congruence].
    unfold in_values. apply existsb_exists. exists (k, c).
    split; [exact H|apply N.eqb_refl].
Qed.

(** The pairs of the table: the opening bracket of a pair is a key with the
    closing bracket as its value; the closing bracket is a value and no
    key. *)
Lemma pairs_table :
  forallb (fun kv =>
             match pairs_get pairs (fst kv) with
             | Some v => v =? snd kv
             | None => false
             end
             && negb (is_some (pairs_get pairs (snd kv)))
             && in_values pairs (snd kv)) pairs = true.
Proof. vm_compute. reflexivity. Qed.

Lemma pair_tests (o c : codepoint) :
  In (o, c) pairs ->
  pairs_get pairs o = Some c
  /\ is_some (pairs_get pairs c) = false
  /\ in_values pairs c = true.
Proof.
  intros H. pose proof pairs_table as P. rewrite forallb_forall in P.
  specialize (P _ H). cbn [fst snd] in P.
  apply andb_true_iff in P. destruct P as [P Hv].
  apply andb_true_iff in P. destruct P as [Hk Hn].
  apply negb_true_iff in Hn.
  destruct (pairs_get pairs o) as [v|]; [|discriminate].
  apply N.eqb_eq in Hk. subst v. now repeat split.
Qed.

Lemma nested_loop_cons (char : codepoint) (rest : pystr)
    (stack : list codepoint) :
  nested_loop stack (char :: rest) =
  if is_some (pairs_get pairs char) then nested_loop (char :: stack) rest
  else if in_values pairs char then
    match stack with
    | [] => false
    | last_char :: stack' =>
        match pairs_get pairs last_char with
        | Some close =>
            if negb (close =? char) then false
            else nested_loop stack' rest
        | None => false
        end
    end
  else nested_loop stack rest.
Proof. reflexivity. Qed.

(** The loop of [_is_balanced] is the stack discipline on the characters
    that are no backslash and follow none. *)
Lemma balanced_loop_counted (text : pystr) :
  forall i stack escaped,
    balanced_loop text i stack escaped
    = nested_loop (map fst stack) (counted_from escaped text).
Proof.
  induction text as [|c text IH]; intros i stack escaped.
  - cbn [balanced_loop counted_from nested_loop]. now rewrite length_map.
  - rewrite balanced_loop_cons. cbn [counted_from].
    destruct (c =? cp "\") eqn:Ec; cbn [orb]; [apply IH|].
    destruct escaped; [apply IH|].
    rewrite nested_loop_cons.
    destruct (is_some (pairs_get pairs c)); [apply (IH _ ((c, i) :: stack))|].
    destruct (in_values pairs c); [|apply IH].
    destruct stack as [|[l n] stack]; [reflexivity|]. cbn [map fst].
    destruct (pairs_get pairs l) as [close|]; [|reflexivity].
    destruct (negb (close =? c)); [reflexivity|apply IH].
Qed.

(** A well-nested string leaves the stack as it found it. *)
Lemma nested_loop_well_nested (w : pystr) :
  well_nested w ->
  forall stack rest, nested_loop stack (w ++ rest) = nested_loop stack rest.
Proof.
  induction 1 as [|c w Hc _ IH|o c w1 w2 Hp _ IH1 _ IH2]; intros stack rest.
  - reflexivity.
  - rewrite <- app_comm_cons, nested_loop_cons.
    destruct (not_bracket c Hc) as [-> ->]. apply IH.
  - destruct (pair_tests o c Hp) as (Ho & Hk & Hv).
    rewrite <- app_comm_cons, nested_loop_cons, Ho. cbn [is_some].
    rewrite <- app_assoc, IH1, <- app_comm_cons, nested_loop_cons, Hk, Hv, Ho.
    rewrite N.eqb_refl. cbn [negb]. apply IH2.
Qed.

Lemma closes_other (c : codepoint) (stack : list codepoint) (w : pystr) :
  ~ In c brackets -> closes stack w -> closes stack (c :: w).
Proof.
  intros Hc. destruct stack as [|o stack]; cbn [closes].
  - now apply wn_other.
  - intros (w1 & c' & w2 & -> & Hp & H1 & H2).
    exists (c :: w1), c', w2. repeat split; try assumption.
    now apply wn_other.
Qed.

Lemma closes_pair (o c : codepoint) (stack : list codepoint) (w1 w2 : pystr) :
  In (o, c) pairs -> well_nested w1 -> closes stack w2 ->
  closes stack (o :: w1 ++ c :: w2).
Proof.
  intros Hp H1. destruct stack as [|o' stack]; cbn [closes].
  - now apply wn_pair.
  - intros (v1 & c' & v2 & -> & Hp' & Hv1 & Hv2).
    exists (o :: w1 ++ c :: v1), c', v2. split; [|repeat split; try assumption].
    + cbn [app]. now rewrite <- app_assoc.
    + now apply wn_pair.
Qed.

(** What the stack discipline accepts closes the open brackets. *)
Lemma nested_loop_closes (w : pystr) :
  forall stack, nested_loop stack w = true -> closes stack w.
Proof.
  induction w as [|c w IH]; intros stack.
  - cbn [nested_loop]. destruct stack; [intros _; apply wn_empty|discriminate].
  - rewrite nested_loop_cons.
    destruct (is_some (pairs_get pairs c)) eqn:Ek.
    + intros H. apply IH in H. cbn [closes] in H.
      destruct H as (w1 & c' & w2 & -> & Hp & H1 & H2).
      now apply closes_pair.
    + destruct (in_values pairs c) eqn:Ev.
      * destruct stack as [|o stack]; [discriminate|].
        destruct (pairs_get pairs o) as [close|] eqn:Eo; [|discriminate].
        destruct (N.eqb_spec close c) as [->|_]; [|discriminate].
        cbn [negb]. intros H. apply IH in H. cbn [closes].
        exists [], c, w. repeat split; try assumption.
        -- now apply pairs_get_In.
        -- apply wn_empty.
      * intros H. apply closes_other; [now apply bracket_tests|now apply IH].
Qed.

(** [_is_balanced] holds of exactly the strings whose characters that are
    no backslash and follow none are well nested for the table. *)
Lemma _is_balanced_spec (text : pystr) :
  _is_balanced text = true <-> well_nested (counted text).
Proof.
  unfold _is_balanced, counted. rewrite balanced_loop_counted. cbn [map].
  split.
  - apply (nested_loop_closes _ []).
  - intros H. rewrite <- (app_nil_r (counted_from false text)).
    now rewrite nested_loop_well_nested.
Qed.

(** Where no two backslashes stand side by side, the characters counted are
    those left when each backslash escapes the single character after it. *)
Lemma counted_unescaped (text : pystr) :
  backslash_run text = false -> counted text = unescaped text.
Proof.
  unfold counted.
  assert (forall s : pystr,
             (backslash_run s = false -> counted_from false s = unescaped s)
             /\ (forall c, backslash_run (c :: s) = false ->
                           counted_from false (c :: s) = unescaped (c :: s)))
    as H; [|apply H].
  induction s as [|d s [IH1 IH2]].
  - split; [reflexivity|]. intros c _. cbn [counted_from unescaped].
    now destruct (c =? cp "\").
  - split; [apply IH2|]. intros c. cbn [backslash_run]. intros H.
    apply orb_false_iff in H. destruct H as [Hcd Hrun].
    change (unescaped (c :: d :: s))
      with (if c =? cp "\" then unescaped s else c :: unescaped (d :: s)).
    change (counted_from false (c :: d :: s))
      with (if (c =? cp "\") || false
            then counted_from (c =? cp "\") (d :: s)
            else c :: counted_from (c =? cp "\") (d :: s)).
    destruct (c =? cp "\") eqn:Ec; cbn [orb].
    + cbn [andb] in Hcd. cbn [counted_from]. rewrite Hcd. cbn [orb].
      assert (backslash_run s = false) as Hs.
      { revert Hrun. cbn [backslash_run]. destruct s as [|e s]; [reflexivity|].
        intros Hr. apply orb_false_iff in Hr. cbn [backslash_run]. apply Hr. }
      now apply IH1.
    + f_equal. now apply IH2.
Qed.

Section SentenceSplitterFacts.
Context {R : Re}.

Lemma accumulate_inv (st : split_state) (piece : pystr) :
  split_inv st -> split_inv (accumulate st piece).
Proof.
  destruct st as [sentences current]. intros [Hs _]. unfold accumulate.
  destruct (_is_balanced (current ++ piece)) eqn:B; split; simpl in *.
  - apply Forall_app. split; [assumption|].
    constructor; [|constructor]. now rewrite _is_balanced_strip.
  - now left.
  - assumption.
  - now right.
Qed.

Lemma split_step_inv (st : split_state) (s : pystr) :
  split_inv st -> split_inv (split_step st s).
Proof.
  unfold split_step. destruct (Nat.ltb 1 _); [|apply accumulate_inv].
  generalize (re_split (u list_pattern) s) as items.
  intros items; revert st. induction items as [|item items IH]; intros st H; simpl.
  - exact H.
  - apply IH. destruct (strip item); [exact H|now apply accumulate_inv].
Qed.

Lemma fold_split_step_inv (raw : list pystr) (st : split_state) :
  split_inv st -> split_inv (fold_left split_step raw st).
Proof.
  revert st; induction raw as [|s raw IH]; intros st H; simpl; [exact H|].
  now apply IH, split_step_inv.
Qed.

Lemma Forall_removelast {A} (P : A -> Prop) (l : list A) :
  Forall P l -> Forall P (removelast l).
Proof.
  induction 1 as [|x l Hx Hl IH]; simpl; [constructor|].
  destruct l; [constructor|]. constructor; assumption.
Qed.

Lemma Forall_filter {A} (P : A -> Prop) (f : A -> bool) (l : list A) :
  Forall P l -> Forall P (filter f l).
Proof.
  induction 1 as [|x l Hx Hl IH]; simpl; [constructor|].
  destruct (f x); [constructor|]; assumption.
Qed.

(** Every string [split_sentences] returns, except possibly the last, has
    passed the check of [_is_balanced]: the buffer is emitted inside the
    loops only when the check succeeds, and an unbalanced remainder is
    appended once, after them. *)
Lemma split_sentences_checked (text : pystr) :
  Forall (fun s => _is_balanced s = true) (removelast (split_sentences text)).
Proof.
  unfold split_sentences.
  pose proof (fold_split_step_inv (re_split (u sentence_pattern) text) ([], []))
    as H.
  destruct (fold_left split_step _ _) as [sentences current].
  destruct H as [Hs _]; [split; [constructor|now left]|]. simpl in Hs.
  destruct current as [|c current].
  - now apply Forall_removelast, Forall_filter.
  - rewrite filter_app. simpl.
    destruct (strip (c :: current)) eqn:E.
    + rewrite app_nil_r. now apply Forall_removelast, Forall_filter.
    + rewrite removelast_last. now apply Forall_filter.
Qed.

(** C5, amended.  In every string [split_sentences] returns, except
    possibly the last, the brackets of the table [pairs] are well nested,
    counting the characters that are no backslash and do not come directly
    after a backslash.  So a string whose brackets are not well nested can
    only be the last one returned; the function is total and raises
    nothing.  This holds for every behaviour of [re.split]. *)
Theorem split_sentences_balanced (text : pystr) :
  Forall (fun s => well_nested (counted s)) (removelast (split_sentences text)).
Proof.
  eapply Forall_impl; [|apply split_sentences_checked].
  intros s H. now apply _is_balanced_spec.
Qed.

End SentenceSplitterFacts.

(** C5 as stated fails after two backslashes: in \\(a the first backslash
    escapes the second, so the bracket is open; the check re-arms the
    escape at the second backslash and skips the bracket, and the string is
    returned before the last one. *)
Lemma split_sentences_bracket_after_two_backslashes :
  split_sentences (R := py_re) (u "\\(a。b") = [u "\\(a"; u "b"]
  /\ unescaped (u "\\(a") = u "(a"
  /\ ~ well_nested (unescaped (u "\\(a"))
  /\ counted (u "\\(a") = u "a"
  /\ _is_balanced (u "\\(a") = true.
Proof.
  split; [vm_compute; reflexivity|]. split; [vm_compute; reflexivity|].
  split; [|split; vm_compute; reflexivity].
  intros H. apply nested_loop_well_nested with (stack := []) (rest := []) in H.
  vm_compute in H. discriminate.
Qed.

(** ** preprocess_text *)

(** *** Classes of neighbours *)

Lemma no_adj_from_weaken (P : codepoint -> bool) (prev : bool) (s : pystr) :
  no_adj_from P prev s = true -> no_adj_from P false s = true.
Proof. destruct s as [|c t]; simpl; [easy|]. now rewrite andb_true_iff. Qed.

Lemma no_adj_from_app (P : codepoint -> bool) (a b : pystr) (prev : bool) :
  no_adj_from P prev (a ++ b) = true ->
  no_adj_from P prev a = true /\ no_adj_from P false b = true.
Proof.
  revert prev. induction a as [|c a IH]; intros prev; simpl.
  - intros H. split; [reflexivity|]. now apply no_adj_from_weaken in H.
  - rewrite !andb_true_iff. intros [H1 H2]. apply IH in H2. tauto.
Qed.

Lemma no_adj_from_none (P : codepoint -> bool) (s : pystr) (prev : bool) :
  Forall (fun c => P c = false) s -> no_adj_from P prev s = true.
Proof.
  intros H. revert prev. induction H as [|c s Hc _ IH]; intros prev; simpl.
  - reflexivity.
  - now rewrite Hc, andb_false_r, IH.
Qed.

(** After a non-empty part with no member of the class, what was before it
    does not matter. *)
Lemma no_adj_from_skip (P : codepoint -> bool) (a b : pystr) (prev : bool) :
  Forall (fun c => P c = false) a ->
  no_adj_from P (match a with [] => prev | _ => false end) b = true ->
  no_adj_from P prev (a ++ b) = true.
Proof.
  intros H. revert prev. induction H as [|c a Hc Ha IH]; intros prev; simpl.
  - easy.
  - intros Hb. rewrite Hc, andb_false_r. simpl.
    apply IH. destruct a; assumption.
Qed.

Lemma no_adj_from_map (P : codepoint -> bool) (f : codepoint -> codepoint)
    (s : pystr) (prev : bool) :
  Forall (fun c => P (f c) = P c) s ->
  no_adj_from P prev (map f s) = no_adj_from P prev s.
Proof.
  intros H. revert prev. induction H as [|c s Hc _ IH]; intros prev; simpl.
  - reflexivity.
  - now rewrite Hc, IH.
Qed.

(** *** [sub_runs] *)

Lemma emit_run_none (P : codepoint -> bool) (lo : nat) (r : codepoint)
    (run : pystr) :
  P r = false -> Forall (fun c => P c = false) run ->
  Forall (fun c => P c = false) (emit_run lo [r] run).
Proof.
  intros Hr Hrun. unfold emit_run. destruct (Nat.leb lo (length run)).
  - now constructor.
  - now apply Forall_rev.
Qed.

Lemma emit_run_nil (lo : nat) (repl : pystr) : emit_run (S lo) repl [] = [].
Proof. reflexivity. Qed.

(** Replacing runs of one class by a character outside [P] joins no two
    members of [P], when the class and [P] are disjoint. *)
Lemma sub_runs_from_no_adj (cls P : codepoint -> bool) (lo : nat) (r : codepoint) :
  (forall c, cls c = true -> P c = false) -> P r = false ->
  forall (s run : pystr) (prev : bool),
    Forall (fun c => cls c = true) run ->
    no_adj_from P (match run with [] => prev | _ => false end) s = true ->
    no_adj_from P prev (sub_runs_from cls (S lo) [r] run s) = true.
Proof.
  intros Hcls Hr. induction s as [|c s IH]; intros run prev Hrun Hs.
  - simpl. apply no_adj_from_none, emit_run_none; [assumption|].
    eapply Forall_impl; [|exact Hrun]. auto.
  - simpl in *. apply andb_true_iff in Hs. destruct Hs as [Hc Hs].
    destruct (cls c) eqn:Ec.
    + apply IH; [now constructor|]. now rewrite (Hcls c Ec) in Hs.
    + apply no_adj_from_skip.
      * apply emit_run_none; [assumption|].
        eapply Forall_impl; [|exact Hrun]. auto.
      * simpl. apply andb_true_iff. split.
        -- destruct run as [|x run]; [rewrite emit_run_nil; exact Hc|].
           unfold emit_run. destruct (Nat.leb _ _); [reflexivity|].
           destruct (rev (x :: run)) eqn:Er; [|reflexivity].
           apply (f_equal (@length _)) in Er. rewrite length_rev in Er.
           discriminate.
        -- apply (IH [] (P c)); [constructor|exact Hs].
Qed.

Lemma sub_runs_no_adj (cls P : codepoint -> bool) (lo : nat) (r : codepoint)
    (s : pystr) :
  (forall c, cls c = true -> P c = false) -> P r = false ->
  no_adjacent P s = true ->
  no_adjacent P (sub_runs cls (S lo) [r] s) = true.
Proof.
  intros Hcls Hr Hs. destruct s as [|c s]; [reflexivity|].
  apply sub_runs_from_no_adj; auto.
Qed.

(** The characters of the result are characters of the text, or [r]. *)
Lemma sub_runs_from_Forall (Q : codepoint -> Prop) (cls : codepoint -> bool)
    (lo : nat) (r : codepoint) :
  Q r ->
  forall s run, Forall Q run -> Forall Q s ->
    Forall Q (sub_runs_from cls lo [r] run s).
Proof.
  intros Hr. induction s as [|c s IH]; intros run Hrun Hs; simpl.
  - unfold emit_run. destruct (Nat.leb _ _); [now constructor|now apply Forall_rev].
  - inversion Hs; subst. destruct (cls c).
    + apply IH; [now constructor|assumption].
    + apply Forall_app. split.
      * unfold emit_run. destruct (Nat.leb _ _); [now constructor|now apply Forall_rev].
      * constructor; [assumption|]. now apply IH.
Qed.

Lemma sub_runs_Forall (Q : codepoint -> Prop) (cls : codepoint -> bool)
    (lo : nat) (r : codepoint) (s : pystr) :
  Q r -> Forall Q s -> Forall Q (sub_runs cls lo [r] s).
Proof.
  intros Hr Hs. destruct s as [|c s]; [constructor|].
  destruct lo; [assumption|]. now apply sub_runs_from_Forall.
Qed.

(** With no two neighbours in the class, [[class]{2,}] matches nowhere. *)
Lemma sub_runs_from_2_id (cls : codepoint -> bool) (repl : pystr) :
  forall s run, (length run <= 1)%nat ->
    no_adj_from cls (match run with [] => false | _ => true end) s = true ->
    sub_runs_from cls 2 repl run s = rev run ++ s.
Proof.
  induction s as [|c s IH]; intros run Hlen Hs; simpl.
  - rewrite app_nil_r. unfold emit_run.
    destruct run as [|x [|y run]]; simpl in *; try reflexivity; lia.
  - simpl in Hs. apply andb_true_iff in Hs. destruct Hs as [Hc Hs].
    destruct (cls c) eqn:Ec.
    + destruct run as [|x run]; [|discriminate].
      rewrite (IH [c]); [reflexivity|simpl; lia|exact Hs].
    + rewrite (IH []); [|simpl; lia|exact Hs].
      unfold emit_run. destruct run as [|x [|y run]]; simpl in *; try reflexivity; lia.
Qed.

Lemma sub_runs_2_id (cls : codepoint -> bool) (repl s : pystr) :
  no_adjacent cls s = true -> sub_runs cls 2 repl s = s.
Proof.
  intros H. destruct s as [|c s]; [reflexivity|].
  unfold sub_runs. rewrite sub_runs_from_2_id; [reflexivity|simpl; lia|exact H].
Qed.

(** The result of [[class]{2,}] replaced by one member of the class has no
    two neighbours in the class. *)
Lemma sub_runs_from_2_out (cls : codepoint -> bool) (r : codepoint) :
  forall s run,
    no_adj_from cls false (sub_runs_from cls 2 [r] run s) = true.
Proof.
  induction s as [|c s IH]; intros run; simpl.
  - unfold emit_run. destruct (Nat.leb 2 (length run)) eqn:E.
    + reflexivity.
    + apply Nat.leb_gt in E. destruct run as [|x [|y run]]; simpl in *;
        try reflexivity; lia.
  - destruct (cls c) eqn:Ec; [apply IH|].
    assert (forall l prev, no_adj_from cls prev (l ++ c :: sub_runs_from cls 2 [r] [] s)
                           = no_adj_from cls prev l) as K.
    { induction l as [|x l IHl]; intros prev; simpl.
      - now rewrite Ec, andb_false_r, IH.
      - now rewrite IHl. }
    rewrite K. unfold emit_run. destruct (Nat.leb 2 (length run)) eqn:E.
    + reflexivity.
    + apply Nat.leb_gt in E. destruct run as [|x [|y run]]; simpl in *;
        try reflexivity; try lia.
Qed.

Lemma sub_runs_2_out (cls : codepoint -> bool) (r : codepoint) (s : pystr) :
  no_adjacent cls (sub_runs cls 2 [r] s) = true.
Proof. destruct s as [|c s]; [reflexivity|]. apply sub_runs_from_2_out. Qed.

(** [[class]+] replaced by one member [r] of the class: the members of the
    class left are single occurrences of [r]. *)
Lemma sub_runs_from_1_out (cls : codepoint -> bool) (r : codepoint) :
  forall s run,
    no_adj_from cls false (sub_runs_from cls 1 [r] run s) = true.
Proof.
  induction s as [|c s IH]; intros run; simpl.
  - unfold emit_run. destruct run; reflexivity.
  - destruct (cls c) eqn:Ec; [apply IH|].
    unfold emit_run. destruct run; simpl; rewrite ?Ec, ?andb_false_r; apply IH.
Qed.

Lemma sub_runs_from_1_Forall (Q : codepoint -> Prop) (cls : codepoint -> bool)
    (r : codepoint) :
  Q r ->
  forall s run, Forall (fun c => cls c = false -> Q c) s ->
    Forall Q (sub_runs_from cls 1 [r] run s).
Proof.
  intros Hr. induction s as [|c s IH]; intros run Hs; simpl.
  - unfold emit_run. destruct run; simpl; [constructor|now constructor].
  - inversion Hs; subst. destruct (cls c) eqn:Ec; [now apply IH|].
    apply Forall_app. split.
    + unfold emit_run. destruct run; simpl; [constructor|now constructor].
    + constructor; [auto|now apply IH].
Qed.

Lemma sub_runs_from_1_id (cls : codepoint -> bool) (r : codepoint) :
  forall s run, (run = [] \/ run = [r]) ->
    Forall (fun c => cls c = true -> c = r) s ->
    no_adj_from cls (match run with [] => false | _ => true end) s = true ->
    sub_runs_from cls 1 [r] run s = run ++ s.
Proof.
  induction s as [|c s IH]; intros run Hrun Hall Hs; simpl.
  - rewrite app_nil_r. destruct Hrun as [-> | ->]; reflexivity.
  - inversion Hall as [|? ? Hc Hall']; subst.
    simpl in Hs. apply andb_true_iff in Hs. destruct Hs as [Hp Hs].
    destruct (cls c) eqn:Ec.
    + destruct Hrun as [-> | ->]; [|discriminate].
      rewrite (Hc eq_refl) in *.
      rewrite (IH [r]); [reflexivity|now right|assumption|exact Hs].
    + rewrite (IH []); [|now left|assumption|exact Hs].
      destruct Hrun as [-> | ->]; reflexivity.
Qed.

(** *** [strip] *)

Lemma lstrip_head (s : pystr) (c : codepoint) (t : pystr) :
  lstrip s = c :: t -> isspace c = false.
Proof.
  induction s as [|x s IH]; simpl; [discriminate|].
  destruct (isspace x) eqn:E; [exact IH|]. now intros [= <- _].
Qed.

Lemma lstrip_id (s : pystr) :
  match s with c :: _ => isspace c = false | [] => True end -> lstrip s = s.
Proof. destruct s as [|c s]; simpl; [reflexivity|]. now intros ->. Qed.

Lemma lstrip_lstrip (s : pystr) : lstrip (lstrip s) = lstrip s.
Proof.
  apply lstrip_id. destruct (lstrip s) as [|c t] eqn:E; [exact I|].
  exact (lstrip_head s c t E).
Qed.

Lemma rstrip_rstrip (s : pystr) : rstrip (rstrip s) = rstrip s.
Proof. unfold rstrip. now rewrite rev_involutive, lstrip_lstrip. Qed.

(** [rstrip] keeps a first character that is no whitespace. *)
Lemma lstrip_rstrip (s : pystr) :
  match s with c :: _ => isspace c = false | [] => True end ->
  lstrip (rstrip s) = rstrip s.
Proof.
  intros H. apply lstrip_id.
  destruct (rstrip_spec s) as [ws [Hws E]].
  destruct (rstrip s) as [|c t]; [exact I|].
  rewrite E in H. exact H.
Qed.

Lemma strip_strip (s : pystr) : strip (strip s) = strip s.
Proof.
  unfold strip. rewrite lstrip_rstrip, rstrip_rstrip; [reflexivity|].
  destruct (lstrip s) as [|c t] eqn:E; [exact I|].
  exact (lstrip_head s c t E).
Qed.

Lemma strip_infix (s : pystr) : exists a b, s = a ++ strip s ++ b.
Proof.
  destruct (lstrip_spec s) as [a [_ Ea]].
  destruct (rstrip_spec (lstrip s)) as [b [_ Eb]].
  exists a, b. unfold strip. now rewrite <- Eb.
Qed.

Lemma strip_Forall (Q : codepoint -> Prop) (s : pystr) :
  Forall Q s -> Forall Q (strip s).
Proof.
  destruct (strip_infix s) as [a [b E]]. intros H. rewrite E in H.
  apply Forall_app in H. destruct H as [_ H].
  apply Forall_app in H. tauto.
Qed.

Lemma strip_no_adjacent (P : codepoint -> bool) (s : pystr) :
  no_adjacent P s = true -> no_adjacent P (strip s) = true.
Proof.
  destruct (strip_infix s) as [a [b E]]. unfold no_adjacent. intros H.
  rewrite E in H. apply no_adj_from_app in H. destruct H as [_ H].
  apply no_adj_from_app in H. tauto.
Qed.

(** *** [translate] *)

Lemma translate_char_cases (table : list (codepoint * codepoint)) (c : codepoint) :
  (translate_char table c = c /\ is_key table c = false)
  \/ In (c, translate_char table c) table.
Proof.
  unfold translate_char, is_key.
  destruct (pairs_get table c) as [d|] eqn:E.
  - right. now apply pairs_get_In.
  - left. split; reflexivity.
Qed.

Lemma translate_id (table : list (codepoint * codepoint)) (s : pystr) :
  forallb (fun c => negb (is_key table c)) s = true -> translate table s = s.
Proof.
  induction s as [|c s IH]; simpl; [reflexivity|].
  rewrite andb_true_iff, negb_true_iff. intros [Hc Hs].
  rewrite (IH Hs). f_equal. unfold translate_char, is_key in *.
  destruct (pairs_get table c); [discriminate|reflexivity].
Qed.

(** A table whose entries map a character to one of the same class keeps
    the class of every character. *)
Lemma translate_char_class (P : codepoint -> bool)
    (table : list (codepoint * codepoint)) (c : codepoint) :
  forallb (fun kv => Bool.eqb (P (fst kv)) (P (snd kv))) table = true ->
  P (translate_char table c) = P c.
Proof.
  intros H. destruct (translate_char_cases table c) as [[-> _]|Hin]; [reflexivity|].
  rewrite forallb_forall in H. apply H in Hin. simpl in Hin.
  symmetry. now apply eqb_prop.
Qed.

Lemma translate_no_adjacent (P : codepoint -> bool)
    (table : list (codepoint * codepoint)) (s : pystr) :
  forallb (fun kv => Bool.eqb (P (fst kv)) (P (snd kv))) table = true ->
  no_adjacent P (translate table s) = no_adjacent P s.
Proof.
  intros H. apply no_adj_from_map, Forall_forall. intros c _.
  now apply translate_char_class.
Qed.

(** A property that holds of the images of a table and of the characters it
    leaves alone holds of every character of a translated text. *)
Lemma translate_Forall (Q0 Q : codepoint -> bool)
    (table : list (codepoint * codepoint)) (s : pystr) :
  forallb (fun kv => Q (snd kv)) table = true ->
  (forall c, Q0 c = true -> is_key table c = false -> Q c = true) ->
  forallb Q0 s = true -> forallb Q (translate table s) = true.
Proof.
  intros Ht Hk. rewrite !forallb_forall. intros Hs d Hd.
  apply in_map_iff in Hd. destruct Hd as [c [<- Hc]].
  destruct (translate_char_cases table c) as [[-> Hn]|Hin].
  - apply Hk; auto.
  - rewrite forallb_forall in Ht. exact (Ht _ Hin).
Qed.

(** *** The stages of [preprocess_text] *)

Lemma filter_id {A} (f : A -> bool) (l : list A) :
  forallb f l = true -> filter f l = l.
Proof.
  induction l as [|x l IH]; simpl; [reflexivity|].
  rewrite andb_true_iff. intros [-> H]. now rewrite IH.
Qed.

Lemma forallb_impl {A} (f g : A -> bool) (l : list A) :
  (forall x, f x = true -> g x = true) -> forallb f l = true -> forallb g l = true.
Proof. rewrite !forallb_forall. auto. Qed.

Lemma normal_char_spaced (c : codepoint) :
  normal_char c = true ->
  (isspace c = true -> c = 32) /\ is_control c = false
  /\ is_key alnum_table c = false /\ is_key punct_table c = false.
Proof.
  unfold normal_char, narrowed_char, spaced_char.
  rewrite !andb_true_iff, !negb_true_iff, orb_true_iff, negb_true_iff, N.eqb_eq.
  intros [[[H1 H2] H3] H4]. repeat split; try assumption.
  intros Hs. destruct H1 as [H1|H1]; congruence.
Qed.

Lemma preprocess_text_eq (text : pystr) :
  preprocess_text text =
  match text with [] => [] | _ => strip (before_last_strip text) end.
Proof. destruct text; reflexivity. Qed.

(** A text in normal form is left unchanged. *)
Lemma preprocess_text_normal_form (y : pystr) :
  normal_form y -> preprocess_text y = y.
Proof.
  intros (Hc & Hsp & Hpe & Hco & Hst).
  rewrite preprocess_text_eq. destruct y as [|c0 y0] eqn:Ey; [reflexivity|].
  rewrite <- Ey in *. clear Ey c0 y0.
  unfold before_last_strip. rewrite Hst.
  assert (sub_runs isspace 1 (u " ") y = y) as ->.
  { destruct y as [|c y]; [reflexivity|]. unfold sub_runs.
    change (u " ") with [32].
    apply (sub_runs_from_1_id isspace 32 (c :: y) []); [now left| |exact Hsp].
    apply Forall_forall. intros d Hd.
    rewrite forallb_forall in Hc. apply Hc, normal_char_spaced in Hd. tauto. }
  rewrite (translate_id alnum_table y).
  2:{ eapply forallb_impl; [|exact Hc]. intros d Hd.
      apply normal_char_spaced in Hd. now rewrite (proj1 (proj2 (proj2 Hd))). }
  rewrite (translate_id punct_table y).
  2:{ eapply forallb_impl; [|exact Hc]. intros d Hd.
      apply normal_char_spaced in Hd. now rewrite (proj2 (proj2 (proj2 Hd))). }
  rewrite filter_id.
  2:{ eapply forallb_impl; [|exact Hc]. intros d Hd.
      apply normal_char_spaced in Hd. now rewrite (proj1 (proj2 Hd)). }
  rewrite (sub_runs_2_id is_period_mark _ y Hpe).
  rewrite (sub_runs_2_id is_comma_mark _ y Hco).
  exact Hst.
Qed.

(** What the two tables do to the classes of characters. *)
Lemma alnum_table_classes :
  forallb (fun kv => Bool.eqb (isspace (fst kv)) (isspace (snd kv))) alnum_table = true
  /\ forallb (fun kv => Bool.eqb (is_comma_mark (fst kv)) (is_comma_mark (snd kv)))
       alnum_table = true
  /\ forallb (fun kv => narrowed_char (snd kv)) alnum_table = true.
Proof. vm_compute. repeat split. Qed.

Lemma punct_table_classes :
  forallb (fun kv => Bool.eqb (isspace (fst kv)) (isspace (snd kv))) punct_table = true
  /\ forallb (fun kv => Bool.eqb (is_comma_mark (fst kv)) (is_comma_mark (snd kv)))
       punct_table = true
  /\ forallb (fun kv => normal_char (snd kv)) punct_table = true.
Proof. vm_compute. repeat split. Qed.

Lemma marks_classes :
  normal_char 32 = true /\ spaced_char 32 = true
  /\ normal_char (cp "。") = true
  /\ isspace (cp "。") = false /\ is_comma_mark (cp "。") = false.
Proof. vm_compute. repeat split. Qed.

Lemma period_mark_classes (c : codepoint) :
  is_period_mark c = true -> isspace c = false /\ is_comma_mark c = false.
Proof.
  unfold is_period_mark, char_in. intros H. apply existsb_exists in H.
  destruct H as [d [Hd E]]. apply N.eqb_eq in E. subst d.
  vm_compute in Hd. repeat destruct Hd as [<-|Hd]; try contradiction;
    vm_compute; split; reflexivity.
Qed.

Lemma space_not_comma (c : codepoint) : isspace c = true -> is_comma_mark c = false.
Proof.
  intros Hs. destruct (is_comma_mark c) eqn:E; [|reflexivity].
  unfold is_comma_mark, char_in in E. apply existsb_exists in E.
  destruct E as [d [Hd E]]. apply N.eqb_eq in E. subst d.
  vm_compute in Hd. repeat destruct Hd as [<-|Hd]; try contradiction;
    vm_compute in Hs; discriminate.
Qed.

(** On an input of the stated kind, the text before the last [strip] has
    the first four properties of a normal form. *)
Lemma before_last_strip_normal (x : pystr) :
  no_stray_control x = true -> no_comma_run x = true ->
  let z := before_last_strip x in
  forallb normal_char z = true
  /\ no_adjacent isspace z = true
  /\ no_adjacent is_period_mark z = true
  /\ no_adjacent is_comma_mark z = true.
Proof.
  intros H1 H2. unfold before_last_strip.
  destruct alnum_table_classes as (A1 & A2 & A3).
  destruct punct_table_classes as (B1 & B2 & B3).
  destruct marks_classes as (M1 & M2 & M3 & M4 & M5).
  change (u " ") with [32]. change (u "。") with [cp "。"].
  (* the whitespace stage *)
  set (z1 := sub_runs isspace 1 [32] (strip x)).
  assert (forallb spaced_char z1 = true) as C1.
  { apply forallb_forall, Forall_forall. subst z1.
    destruct (strip x) as [|c s] eqn:E; [constructor|]. rewrite <- E.
    assert (Forall (fun c => isspace c = false -> spaced_char c = true) (strip x)) as F.
    { apply strip_Forall, Forall_forall. intros d Hd Hsp.
      unfold no_stray_control in H1. rewrite forallb_forall in H1.
      apply H1 in Hd. unfold spaced_char. rewrite Hsp in Hd |- *.
      rewrite orb_false_r in Hd. rewrite Hd. reflexivity. }
    rewrite E in *. now apply sub_runs_from_1_Forall. }
  assert (no_adjacent isspace z1 = true) as S1.
  { subst z1. destruct (strip x); [reflexivity|]. apply sub_runs_from_1_out. }
  assert (no_adjacent is_comma_mark z1 = true) as K1.
  { subst z1. apply sub_runs_no_adj.
    - apply space_not_comma.
    - reflexivity.
    - now apply strip_no_adjacent. }
  (* the two tables *)
  set (z2 := translate alnum_table z1).
  assert (forallb narrowed_char z2 = true) as C2.
  { subst z2. apply (translate_Forall spaced_char); [exact A3| |exact C1].
    intros c Hc Hk. unfold narrowed_char. now rewrite Hc, Hk. }
  assert (no_adjacent isspace z2 = true) as S2
    by (subst z2; now rewrite translate_no_adjacent).
  assert (no_adjacent is_comma_mark z2 = true) as K2
    by (subst z2; now rewrite translate_no_adjacent).
  set (z3 := translate punct_table z2).
  assert (forallb normal_char z3 = true) as C3.
  { subst z3. apply (translate_Forall narrowed_char); [exact B3| |exact C2].
    intros c Hc Hk. unfold normal_char. now rewrite Hc, Hk. }
  assert (no_adjacent isspace z3 = true) as S3
    by (subst z3; now rewrite translate_no_adjacent).
  assert (no_adjacent is_comma_mark z3 = true) as K3
    by (subst z3; now rewrite translate_no_adjacent).
  (* no control character is left to remove *)
  rewrite (filter_id _ z3).
  2:{ eapply forallb_impl; [|exact C3]. intros d Hd.
      apply normal_char_spaced in Hd. now rewrite (proj1 (proj2 Hd)). }
  (* the period stage *)
  set (z5 := sub_runs is_period_mark 2 [cp "。"] z3).
  assert (forallb normal_char z5 = true) as C5.
  { apply forallb_forall, Forall_forall. subst z5.
    apply sub_runs_Forall; [exact M3|]. now apply Forall_forall, forallb_forall. }
  assert (no_adjacent isspace z5 = true) as S5.
  { subst z5. apply sub_runs_no_adj; [|exact M4|exact S3].
    intros c Hc. exact (proj1 (period_mark_classes c Hc)). }
  assert (no_adjacent is_comma_mark z5 = true) as K5.
  { subst z5. apply sub_runs_no_adj; [|exact M5|exact K3].
    intros c Hc. exact (proj2 (period_mark_classes c Hc)). }
  assert (no_adjacent is_period_mark z5 = true) as P5
    by (subst z5; apply sub_runs_2_out).
  (* the comma stage finds no run *)
  rewrite (sub_runs_2_id is_comma_mark _ z5 K5).
  auto.
Qed.

Lemma preprocess_text_reaches_normal_form (x : pystr) :
  no_stray_control x = true -> no_comma_run x = true ->
  normal_form (preprocess_text x).
Proof.
  intros H1 H2. rewrite preprocess_text_eq.
  destruct x as [|c0 x0] eqn:Ex.
  - repeat split.
  - rewrite <- Ex in *. clear Ex c0 x0.
    destruct (before_last_strip_normal x H1 H2) as (C & S & P & K).
    repeat split.
    + apply forallb_forall, Forall_forall, strip_Forall, Forall_forall.
      now apply forallb_forall.
    + now apply strip_no_adjacent.
    + now apply strip_no_adjacent.
    + now apply strip_no_adjacent.
    + apply strip_strip.
Qed.

(** C3, as amended.  On a text with no control character other than
    whitespace and no two comma marks (、 ， ,) side by side, normalising
    twice gives what normalising once gives. *)
Theorem preprocess_text_idempotent (x : pystr) :
  no_stray_control x = true -> no_comma_run x = true ->
  preprocess_text (preprocess_text x) = preprocess_text x.
Proof.
  intros H1 H2.
  apply preprocess_text_normal_form, preprocess_text_reaches_normal_form;
    assumption.
Qed.

(** The result of [preprocess_text] is always an input of that kind... *)
Lemma preprocess_text_output_kind (x : pystr) :
  no_stray_control (preprocess_text x) = true
  /\ no_comma_run (preprocess_text x) = true.
Proof.
  rewrite preprocess_text_eq. destruct x as [|c0 x0] eqn:Ex; [split; reflexivity|].
  rewrite <- Ex. clear Ex c0 x0. unfold before_last_strip.
  change (u "、") with [cp "、"]. change (u "。") with [cp "。"].
  split.
  - unfold no_stray_control.
    apply forallb_forall, Forall_forall, strip_Forall.
    apply sub_runs_Forall; [reflexivity|].
    apply sub_runs_Forall; [reflexivity|].
    apply Forall_forall. intros c Hc. apply filter_In in Hc.
    destruct Hc as [_ Hc]. now rewrite Hc.
  - apply strip_no_adjacent, sub_runs_2_out.
Qed.

(** ... so that a third application changes nothing: normalisation is
    idempotent from its second application on, for every text. *)
Lemma preprocess_text_stable_after_two (x : pystr) :
  preprocess_text (preprocess_text (preprocess_text x))
  = preprocess_text (preprocess_text x).
Proof.
  destruct (preprocess_text_output_kind x) as [H1 H2].
  apply preprocess_text_normal_form, preprocess_text_reaches_normal_form;
    assumption.
Qed.

(** The amended C3 at a text with wide letters, wide spaces, a tab and
    repeated periods. *)
Lemma preprocess_text_idempotent_witness :
  preprocess_text (preprocess_text (u "  ＡＩ　は	最高。。。 ok, "))
  = preprocess_text (u "  ＡＩ　は	最高。。。 ok, ").
Proof.
  apply (preprocess_text_idempotent (u "  ＡＩ　は	最高。。。 ok, "));
    vm_compute; reflexivity.
Defined.

(** C3 as stated fails: two commas normalise to the wide comma 、, which
    normalises to the narrow one. *)
Lemma preprocess_text_not_idempotent :
  preprocess_text (u ",,") = u "、"
  /\ preprocess_text (preprocess_text (u ",,")) = u ","
  /\ preprocess_text (preprocess_text (u ",,")) <> preprocess_text (u ",,").
Proof. vm_compute. repeat split. discriminate. Qed.

(** ** _find_longest_match *)

Section LongestMatchFacts.
Context {R : Re}.

Lemma longest_step_cases (text : pystr) (lang : Language)
    (st : longest_state) (p : Pattern) (pos : string) :
  (candidate p text = None /\ longest_step text lang st (p, pos) = st)
  \/ (exists w, candidate p text = Some w /\ w <> []
        /\ (length w <= longest_length st)%nat
        /\ longest_step text lang st (p, pos) = st)
  \/ (exists w, candidate p text = Some w /\ w <> []
        /\ (longest_length st < length w)%nat
        /\ longest_step text lang st (p, pos) =
           {| longest_match := Some w;
              longest_length := length w;
              matched_pos := pos;
              matched_features := extract_features lang w pos |}).
Proof.
  unfold longest_step, candidate.
  destruct (pattern_match p text) as [g|]; [|now left].
  destruct (strip g) as [|c w] eqn:E; [now left|].
  right. destruct (Nat.ltb (longest_length st) (length (c :: w))) eqn:L.
  - right. exists (c :: w). apply Nat.ltb_lt in L. repeat split; try easy.
  - left. exists (c :: w). apply Nat.ltb_ge in L. repeat split; try easy.
Qed.

Lemma longest_step_inv (text : pystr) (lang : Language)
    (done : list (Pattern * string)) (st : longest_state)
    (entry : Pattern * string) :
  longest_inv text lang done st ->
  longest_inv text lang (done ++ [entry]) (longest_step text lang st entry).
Proof.
  destruct entry as [p pos]. intros Inv.
  destruct (longest_step_cases text lang st p pos)
    as [[Hc ->] | [(w & Hc & Hw & Hle & ->) | (w & Hc & Hw & Hlt & ->)]].
  - (* the pattern proposes nothing *)
    unfold longest_inv in *. destruct (longest_match st) as [w0|].
    + destruct Inv as (N0 & L0 & pre & p0 & pos0 & post & E & C & P & F & Hpre & Hpost).
      split; [assumption|]. split; [assumption|].
      exists pre, p0, pos0, (post ++ [(p, pos)]). subst done.
      rewrite <- app_assoc. repeat split; try assumption.
      intros q qpos w' Hin Hq. apply in_app_or in Hin.
      destruct Hin as [Hin|[[= -> ->]|[]]]; [eauto|congruence].
    + destruct Inv as [L0 Hnone]. split; [assumption|].
      intros q qpos Hin. apply in_app_or in Hin.
      destruct Hin as [Hin|[[= -> ->]|[]]]; [eauto|assumption].
  - (* its candidate is no longer than the best so far *)
    unfold longest_inv in *. destruct (longest_match st) as [w0|].
    + destruct Inv as (N0 & L0 & pre & p0 & pos0 & post & E & C & P & F & Hpre & Hpost).
      split; [assumption|]. split; [assumption|].
      exists pre, p0, pos0, (post ++ [(p, pos)]). subst done.
      rewrite <- app_assoc. repeat split; try assumption.
      intros q qpos w' Hin Hq. apply in_app_or in Hin.
      destruct Hin as [Hin|[[= -> ->]|[]]]; [eauto|].
      rewrite Hc in Hq. injection Hq as <-. lia.
    + destruct Inv as [L0 _]. destruct w; [congruence|simpl in Hle; lia].
  - (* its candidate is longer: it becomes the best *)
    unfold longest_inv in *. simpl.
    split; [assumption|]. split; [reflexivity|].
    exists done, p, pos, []. repeat split; try easy.
    intros q qpos w' Hin Hq.
    destruct (longest_match st) as [w0|].
    + destruct Inv as (N0 & L0 & pre & p0 & pos0 & post & E & C & P & F & Hpre & Hpost).
      subst done. apply in_app_or in Hin. destruct Hin as [Hin|[[= -> ->]|Hin]].
      * specialize (Hpre _ _ _ Hin Hq). lia.
      * rewrite C in Hq. injection Hq as <-. lia.
      * specialize (Hpost _ _ _ Hin Hq). lia.
    + destruct Inv as [_ Hnone]. rewrite (Hnone _ _ Hin) in Hq. discriminate.
Qed.

Lemma fold_longest_step_inv (text : pystr) (lang : Language)
    (rest done : list (Pattern * string)) (st : longest_state) :
  longest_inv text lang done st ->
  longest_inv text lang (done ++ rest) (fold_left (longest_step text lang) rest st).
Proof.
  revert done st. induction rest as [|e rest IH]; intros done st Inv; simpl.
  - now rewrite app_nil_r.
  - replace (done ++ e :: rest) with ((done ++ [e]) ++ rest)
      by now rewrite <- app_assoc.
    apply IH, longest_step_inv, Inv.
Qed.

(** C9, as amended.  [_find_longest_match] returns nothing exactly when no
    pattern of the table matches at the cursor with a match that is not
    empty once stripped.  Otherwise it returns the stripped match [w] of one
    pattern of the table, with the tag of that pattern and [len(w)]; no
    pattern of the table has a longer stripped match, and every pattern
    declared before it has a strictly shorter one: among the longest, the
    earliest wins. *)
Theorem find_longest_match_spec (input : pystr)
    (patterns : list (Pattern * string)) (lang : Language) :
  match _find_longest_match input patterns lang with
  | None => forall p tag, In (p, tag) patterns -> candidate p input = None
  | Some (tok, n) =>
      exists pre p tag post,
        patterns = pre ++ (p, tag) :: post
        /\ candidate p input = Some (text tok)
        /\ pos tok = tag
        /\ n = length (text tok)
        /\ language tok = lang
        /\ features tok = extract_features lang (text tok) tag
        /\ (forall q qtag w', In (q, qtag) pre ->
              candidate q input = Some w' -> (length w' < n)%nat)
        /\ (forall q qtag w', In (q, qtag) post ->
              candidate q input = Some w' -> (length w' <= n)%nat)
  end.
Proof.
  unfold _find_longest_match.
  pose proof (fold_longest_step_inv input lang patterns []
                {| longest_match := None; longest_length := 0;
                   matched_pos := ""; matched_features := [] |}) as Inv.
  simpl app in Inv.
  destruct (fold_left _ _ _) as [lm ll mp mf]. unfold longest_inv in Inv.
  simpl in *.
  destruct lm as [[|c w]|].
  - destruct Inv as [N _]; [split; [reflexivity|intros ? ? []]|]. congruence.
  - destruct Inv as (N0 & L0 & pre & p0 & pos0 & post & E & C & P & F & Hpre & Hpost);
      [split; [reflexivity|intros ? ? []]|].
    exists pre, p0, pos0, post. rewrite L0. repeat split; assumption.
  - destruct Inv as [_ Hnone]; [split; [reflexivity|intros ? ? []]|].
    exact Hnone.
Qed.

End LongestMatchFacts.

(** C9 as stated fails when a match ends in whitespace: on the text "a  b"
    the second pattern consumes three characters and the first two, and the
    engine returns the first, with the length 1 of its stripped match. *)
Lemma find_longest_match_not_longest_consumed :
  let P1 := {| source := u "a "; ignorecase := false |} in
  let P2 := {| source := u "a  "; ignorecase := false |} in
  pattern_match P1 (u "a  b") = Some (u "a ")
  /\ pattern_match P2 (u "a  b") = Some (u "a  ")
  /\ option_map (fun r => (text (fst r), pos (fst r), snd r))
       (_find_longest_match (u "a  b") [(P1, "first"); (P2, "second")]%string
          ENGLISH)
     = Some (u "a", "first"%string, 1%nat).
Proof. vm_compute. repeat split. Qed.

(** ** The analyzer: classification never raises *)

Section AnalyzerFacts.
Context {R : Re}.

Lemma any_entry_ok (test : pattern_entry -> result bool)
    (patterns : list pattern_entry) :
  Forall (fun p => exists b, test p = Ok b) patterns ->
  exists b, any_entry test patterns = Ok b.
Proof.
  induction 1 as [|p ps [b Hb] _ [b' IH]]; simpl.
  - now exists false.
  - rewrite Hb. simpl. destruct b; [now exists true|now exists b'].
Qed.

Lemma first_category_ok (test : list pattern_entry -> result bool)
    (table : patterns_dict) :
  Forall (fun kv => exists b, test (snd kv) = Ok b) table ->
  exists found, first_category test table = Ok found.
Proof.
  induction 1 as [|[pos ps] t [b Hb] _ [f IH]]; simpl.
  - now exists None.
  - simpl in Hb. rewrite Hb. simpl. destruct b; [now exists (Some pos)|now exists f].
Qed.

Lemma match_entry_unflagged_ok (word : pystr) (table : patterns_dict) :
  forallb (fun kv => forallb plain_or_compiled (snd kv)) table = true ->
  exists found,
    first_category (any_entry (fun p => match_entry false p word)) table = Ok found.
Proof.
  intros H. apply first_category_ok, Forall_forall. intros [pos ps] Hin.
  rewrite forallb_forall in H. specialize (H _ Hin). simpl in *.
  apply any_entry_ok, Forall_forall. intros p Hp.
  rewrite forallb_forall in H. specialize (H _ Hp).
  destruct p; simpl in *; [eauto|eauto|discriminate].
Qed.

Lemma _match_patterns_ok (word : pystr) (table : patterns_dict) :
  forallb (fun kv => forallb plain_or_list (snd kv)) table = true ->
  exists found, first_category (_match_patterns word) table = Ok found.
Proof.
  intros H. apply first_category_ok, Forall_forall. intros [pos ps] Hin.
  rewrite forallb_forall in H. specialize (H _ Hin). simpl in *.
  apply any_entry_ok, Forall_forall. intros p Hp.
  rewrite forallb_forall in H. specialize (H _ Hp).
  destruct p; simpl in *; [eauto|discriminate|eauto].
Qed.

(** The Japanese tables hold no list and the English ones no compiled
    pattern. *)
Lemma tables_well_typed :
  forallb (fun kv => forallb plain_or_compiled (snd kv)) DEPENDENT_WORDS = true
  /\ forallb (fun kv => forallb plain_or_compiled (snd kv)) JP_INDEPENDENT_WORDS = true
  /\ forallb (fun kv => forallb plain_or_list (snd kv)) FUNCTION_WORDS = true
  /\ forallb (fun kv => forallb plain_or_list (snd kv)) INDEPENDENT_WORDS = true.
Proof. vm_compute. repeat split. Qed.

Lemma _identify_japanese_pos_ok (w : pystr) :
  exists pos imp, _identify_japanese_pos w = Ok (pos, imp) /\ base_importance imp.
Proof.
  destruct tables_well_typed as (T1 & T2 & _ & _).
  unfold _identify_japanese_pos, base_importance.
  destruct (match_entry_unflagged_ok w _ T1) as [[pos|] ->]; cbn [bind]; [eauto 6|].
  destruct (match_entry_unflagged_ok w _ T2) as [[pos|] ->]; cbn [bind]; eauto 6.
Qed.

Lemma _identify_english_pos_ok (w : pystr) :
  exists pos imp, _identify_english_pos w = Ok (pos, imp) /\ base_importance imp.
Proof.
  destruct tables_well_typed as (_ & _ & T3 & T4).
  unfold _identify_english_pos, base_importance.
  destruct (_ || _); [eauto 6|].
  destruct (_match_patterns_ok w _ T3) as [[pos|] ->]; cbn [bind]; [eauto 6|].
  destruct (_match_patterns_ok w _ T4) as [[pos|] ->]; cbn [bind]; eauto 6.
Qed.

Lemma _identify_part_of_speech_ok (w : pystr) :
  exists pos imp, _identify_part_of_speech w = Ok (pos, imp) /\ base_importance imp.
Proof.
  unfold _identify_part_of_speech. destruct (_is_japanese_text w).
  - apply _identify_japanese_pos_ok.
  - apply _identify_english_pos_ok.
Qed.

(** ** The analyzer: the adjusted importance *)

Lemma previous_tag_in_ok (guard : bool) (words : list pystr) (index : Z)
    (tags : list string) :
  exists b, previous_tag_in guard words index tags = Ok b.
Proof.
  unfold previous_tag_in. destruct guard; [|now exists false].
  destruct (_identify_part_of_speech_ok (word_at words (index - 1)))
    as (pos & imp & -> & _).
  cbn [bind]. eauto.
Qed.

Lemma _adjust_by_grammar_ok (imp : float) (w : pystr) (pos : string)
    (words : list pystr) (index : Z) :
  exists v, _adjust_by_grammar imp w pos words index = Ok v
            /\ (v = imp \/ v = (imp * 1.3)%float \/ v = (imp * 1.2)%float).
Proof.
  unfold _adjust_by_grammar. destruct (_is_japanese_text w).
  - destruct (_ && _ && _); [eauto|]. destruct (_ && _); eauto.
  - destruct (previous_tag_in_ok (String.eqb pos "noun" && (0 <? index)%Z)
                words index ["article"; "adjective"]%string) as [b ->].
    cbn [bind]. destruct b; [eauto|].
    destruct (previous_tag_in_ok (String.eqb pos "verb" && (0 <? index)%Z)
                words index ["noun"; "pronoun"]%string) as [b ->].
    cbn [bind]. destruct b; eauto.
Qed.

(** The thirty-six products of a base importance by the factors of the
    three adjustments, capped at 3.0. *)
Lemma adjusted_products_in_range (base : float) (p c : bool) (g : option bool) :
  base_importance base ->
  let x1 := if p then (base * 1.2)%float else base in
  let x2 := if c then (x1 * 1.5)%float else x1 in
  let x3 := match g with
            | None => x2
            | Some true => (x2 * 1.3)%float
            | Some false => (x2 * 1.2)%float
            end in
  importance_in_range (py_min x3 3.0).
Proof.
  intros [-> | [-> | ->]]; destruct p, c, g as [[|]|]; vm_compute; split; reflexivity.
Qed.

Lemma _adjust_importance_ok (w : pystr) (pos : string) (base : float)
    (words : list pystr) (index : Z) (prev_words next_words : list pystr) :
  base_importance base ->
  exists v, _adjust_importance w pos base words index prev_words next_words = Ok v
            /\ importance_in_range v.
Proof.
  intros Hb. unfold _adjust_importance, _adjust_by_position, _adjust_by_context.
  set (p := (index =? 0)%Z || (index =? Z.of_nat (length words) - 1)%Z).
  set (c := str_in w prev_words || str_in w next_words).
  set (x1 := if p then (base * 1.2)%float else base).
  set (x2 := if c then (x1 * 1.5)%float else x1).
  destruct (_adjust_by_grammar_ok x2 w pos words index) as (v & -> & Hv).
  cbn [bind]. exists (py_min v 3.0). split; [reflexivity|].
  destruct Hv as [-> | [-> | ->]].
  - exact (adjusted_products_in_range base p c None Hb).
  - exact (adjusted_products_in_range base p c (Some true) Hb).
  - exact (adjusted_products_in_range base p c (Some false) Hb).
Qed.

Lemma analyze_word_ok (words prev_words next_words : list pystr) (i : Z)
    (w : pystr) :
  exists a, analyze_word words prev_words next_words i w = Ok a
            /\ importance_in_range (importance a).
Proof.
  unfold analyze_word.
  destruct (_identify_part_of_speech_ok w) as (pos & imp & -> & Hb). cbn [bind].
  destruct (_adjust_importance_ok w pos imp words i prev_words next_words Hb)
    as (v & -> & Hv).
  cbn [bind]. eexists. split; [reflexivity|exact Hv].
Qed.

Lemma analyze_from_ok (words prev_words next_words todo : list pystr) :
  forall i, exists results,
    analyze_from words prev_words next_words i todo = Ok results
    /\ Forall (fun a => importance_in_range (importance a)) results.
Proof.
  induction todo as [|w rest IH]; intros i; cbn [analyze_from].
  - exists []. split; [reflexivity|constructor].
  - destruct (analyze_word_ok words prev_words next_words i w) as (a & -> & Ha).
    destruct (IH (i + 1)%Z) as (results & -> & Hr).
    cbn [bind]. exists (a :: results). split; [reflexivity|now constructor].
Qed.

(** C7.  For every sentence, with or without a previous and a next
    sentence, the context-aware analysis returns a list (it raises nothing),
    and the importance of every element is greater than 0 and at most
    3.0, as binary64 numbers. *)
Theorem analyze_with_context_importance_range (sentence : pystr)
    (prev_sentence next_sentence : option pystr) :
  exists results,
    _analyze_with_context sentence prev_sentence next_sentence = Ok results
    /\ Forall (fun a => (0 <? importance a)%float = true
                        /\ (importance a <=? 3.0)%float = true)
         results.
Proof. unfold _analyze_with_context. apply analyze_from_ok. Qed.

End AnalyzerFacts.

(** ** update_trends *)

Section UpdateTrendsFacts.
Context {R : Re}.

Lemma trend_keyword_ok (w : pystr) : exists kept, trend_keyword w = Ok kept.
Proof.
  unfold trend_keyword.
  destruct (_identify_part_of_speech_ok w) as (pos & imp & -> & _). cbn [bind].
  destruct (imp <=? 0.5)%float; [eauto|].
  destruct (re_sub _ _ _ _); eauto.
Qed.

(** A stored word costs one write and one commit, and the row returned
    carries the word. *)
Lemma store_keyword_spec (d : db) (w : pystr) :
  keyword (fst (store_keyword d w)) = w
  /\ exists op, is_write op
                /\ log (snd (store_keyword d w)) = log d ++ [op; OpCommit].
Proof.
  unfold store_keyword, select_by_keyword.
  destruct (find _ (rows d)) as [r|] eqn:E; simpl.
  - apply find_some in E. destruct E as [_ E]. apply pystr_eqb_eq in E.
    split; [exact E|]. exists (OpUpdate (trend_id r) (count r + 1)).
    split; [exact I|]. now rewrite <- app_assoc.
  - split; [reflexivity|]. exists (OpInsert w 1).
    split; [exact I|]. now rewrite <- app_assoc.
Qed.

Lemma update_loop_spec (words : list pystr) :
  forall (trends : list trend_row) (d : db),
  exists trends' d' kws writes,
    update_loop words trends d = Ok (trends', d')
    /\ trend_keywords words = Ok kws
    /\ map keyword trends' = map keyword trends ++ kws
    /\ log d' = log d ++ flat_map (fun op => [op; OpCommit]) writes
    /\ length writes = length kws
    /\ Forall is_write writes.
Proof.
  induction words as [|w rest IH]; intros trends d; cbn [update_loop trend_keywords].
  - exists trends, d, [], []. cbn. rewrite !app_nil_r. repeat split; constructor.
  - destruct (trend_keyword_ok w) as [kept ->]. cbn [bind].
    destruct kept as [w'|].
    + destruct (store_keyword_spec d w') as (Hk & op & Hop & Hlog).
      destruct (store_keyword d w') as [result d1]. cbn [fst snd] in *.
      destruct (IH (trends ++ [result]) d1)
        as (trends' & d' & kws & writes & -> & -> & Ht & Hl & Hn & Hw).
      cbn [bind]. exists trends', d', (w' :: kws), (op :: writes).
      repeat split.
      * rewrite Ht, map_app. cbn. rewrite Hk, <- app_assoc. reflexivity.
      * rewrite Hl, Hlog, <- app_assoc. reflexivity.
      * cbn. now rewrite Hn.
      * now constructor.
    + destruct (IH trends d)
        as (trends' & d' & kws & writes & -> & -> & Ht & Hl & Hn & Hw).
      cbn [bind]. exists trends', d', kws, writes. repeat split; assumption.
Qed.

(** C8, as amended.  One pass of [update_trends] raises nothing and
    executes exactly one [UPDATE] or [INSERT] for each occurrence of a word
    that passes its two filters (importance above 0.5, and not empty once the
    trailing symbols are removed), followed each time by a commit that
    [update_trends] issues itself; the rows it returns carry these words in
    order.  A keyword that occurs k times is written k times. *)
Theorem update_trends_one_write_per_occurrence (d : db) (input : pystr) :
  exists trends d' kws writes,
    update_trends d input = Ok (trends, d')
    /\ trend_keywords (_extract_words input) = Ok kws
    /\ map keyword trends = kws
    /\ log d' = log d ++ flat_map (fun op => [op; OpCommit]) writes
    /\ length writes = length kws
    /\ Forall is_write writes.
Proof. unfold update_trends. apply (update_loop_spec (_extract_words input) [] d). Qed.

End UpdateTrendsFacts.

(** C8 as stated fails: on an empty store, the text of twice the word 猫
    holds one distinct keyword and causes two store updates, an [INSERT]
    and then an [UPDATE], each with its own commit. *)
Lemma update_trends_repeated_keyword_written_twice :
  _extract_words (u "猫猫") = [u "猫"; u "猫"]
  /\ update_trends {| rows := []; log := [] |} (u "猫猫")
     = Ok ([{| trend_id := 1; keyword := u "猫"; count := 1 |};
            {| trend_id := 1; keyword := u "猫"; count := 1 |}],
           {| rows := [{| trend_id := 1; keyword := u "猫"; count := 2 |}];
              log := [OpInsert (u "猫") 1; OpCommit; OpUpdate 1 2; OpCommit] |}).
Proof. vm_compute. split; reflexivity. Qed.

(** ** The trend-scoring calculator *)

Section CalculatorFacts.
Context {R : Re}.

(** The two guards of [calculate_popularity_score]. *)
Lemma calculate_popularity_score_guards (self : ScoringCalculator)
    (cache : regex_cache) (n : Z) (hours_old : float) (kw : pystr)
    (jp_patterns en_patterns : patterns_dict) :
  kw = [] \/ (hours_old <? 0)%float = true ->
  calculate_popularity_score self cache n hours_old kw jp_patterns en_patterns
  = Ok (0.0%float, cache).
Proof.
  unfold calculate_popularity_score. intros [-> | H]; [reflexivity|].
  rewrite H. destruct kw; reflexivity.
Qed.

(** A compiled pattern in a table makes the scan of that table raise
    [ValueError], whatever the keyword, once the patterns before it have
    been compiled and searched without an error. *)
Lemma check_pattern_list_compiled (self : ScoringCalculator) (kw : pystr)
    (pattern_type : string) (weight : float) (before : list string) (p : string)
    (after : list pattern_entry) :
  dict_get (importance_weights self) pattern_type = Some weight ->
  forallb (fun q => re_compiles (u q)) before = true ->
  forall st,
    check_pattern_list self kw pattern_type
      (map PStr before ++ PCompiled p :: after) st = Raise ValueError.
Proof.
  intros Hw. induction before as [|q before IH]; intros Hc [mw cache].
  - reflexivity.
  - cbn [forallb] in Hc. apply andb_true_iff in Hc. destruct Hc as [Hq Hc].
    cbn [map app check_pattern_list check_pattern].
    destruct (existsb (String.eqb q) cache); [|rewrite Hq]; cbn [bind];
      (destruct (re_search (u q) true kw); [rewrite Hw|]; cbn [bind];
       apply IH, Hc).
Qed.

(** On a table of plain patterns that compile, in categories that have a
    weight, the scan raises nothing: it folds [max] over the weights of the
    patterns found in the keyword. *)
Lemma check_pattern_list_scannable (self : ScoringCalculator) (kw : pystr)
    (pattern_type : string) (weight : float) (patterns : list pattern_entry) :
  dict_get (importance_weights self) pattern_type = Some weight ->
  forallb (fun p => match p with
                    | PStr s => re_compiles (u s)
                    | _ => false
                    end) patterns = true ->
  forall mw cache, exists cache',
    check_pattern_list self kw pattern_type patterns (mw, cache)
    = Ok (fold_left py_max
            (flat_map (fun p => match p with
                                | PStr s =>
                                    if re_search (u s) true kw then [weight] else []
                                | _ => []
                                end) patterns)
            mw,
          cache').
Proof.
  intros Hw. induction patterns as [|p ps IH]; intros Hc mw cache.
  - exists cache. reflexivity.
  - cbn [forallb] in Hc. apply andb_true_iff in Hc. destruct Hc as [Hp Hc].
    destruct p as [s| |]; try discriminate.
    cbn [check_pattern_list check_pattern flat_map].
    destruct (existsb (String.eqb s) cache); [|rewrite Hp]; cbn [bind];
      (destruct (re_search (u s) true kw); [rewrite Hw|]; cbn [bind app fold_left];
       apply IH, Hc).
Qed.

Lemma check_patterns_scannable (self : ScoringCalculator) (kw : pystr)
    (table : patterns_dict) :
  scannable self table = true ->
  forall mw cache, exists cache',
    check_patterns self kw table (mw, cache)
    = Ok (fold_left py_max (matched_weights self kw table) mw, cache').
Proof.
  unfold scannable, matched_weights.
  induction table as [|[ty ps] table IH]; intros Hc mw cache.
  - exists cache. reflexivity.
  - cbn [forallb fst snd] in Hc. apply andb_true_iff in Hc.
    destruct Hc as [Hk Hc]. apply andb_true_iff in Hk. destruct Hk as [Hw Hps].
    destruct (dict_get (importance_weights self) ty) as [weight|] eqn:E;
      [|discriminate].
    cbn [check_patterns flat_map fst snd]. rewrite E.
    destruct (check_pattern_list_scannable self kw ty weight ps E Hps mw cache)
      as [cache1 ->].
    cbn [bind]. rewrite fold_left_app. apply IH, Hc.
Qed.

(** On two such tables the importance weight is the greatest of 1.0 and of
    the weights of the patterns found in the lower-cased keyword. *)
Lemma _calculate_keyword_importance_scannable (self : ScoringCalculator)
    (cache : regex_cache) (kw : pystr) (jp_patterns en_patterns : patterns_dict) :
  scannable self jp_patterns = true -> scannable self en_patterns = true ->
  exists cache',
    _calculate_keyword_importance self cache kw jp_patterns en_patterns
    = Ok (fold_left py_max
            (matched_weights self (lower kw) jp_patterns
             ++ matched_weights self (lower kw) en_patterns)
            1.0%float,
          cache').
Proof.
  intros Hj He. unfold _calculate_keyword_importance.
  destruct (check_patterns_scannable self (lower kw) jp_patterns Hj 1.0%float cache)
    as [cache1 ->].
  cbn [bind]. rewrite fold_left_app.
  apply check_patterns_scannable, He.
Qed.

End CalculatorFacts.

(** With the tables and weights [TrendScoring] configures, the scan stops
    at the compiled pattern [ALPHA_NUM], the fourth entry of the first
    category of the Japanese table. *)
Lemma configured_importance_raises (cache : regex_cache) (kw : pystr) :
  _calculate_keyword_importance configured_calculator cache kw
    JP_PATTERNS EN_PATTERNS = Raise ValueError.
Proof.
  unfold _calculate_keyword_importance.
  change JP_PATTERNS with
    (("名詞"%string,
      map PStr [KANJI; HIRAGANA; KATAKANA]
      ++ PCompiled ALPHA_NUM
         :: skipn 4 (snd (hd (""%string, []) JP_PATTERNS)))
     :: tl JP_PATTERNS).
  cbn [check_patterns].
  rewrite (check_pattern_list_compiled configured_calculator (lower kw)
             "名詞"%string 1.0%float); reflexivity.
Qed.

(** Past its two guards, [trend_score] returns nothing, whatever the count,
    the age and the keyword. *)
Lemma trend_score_raises (cache : regex_cache) (n : Z) (hours_old : float)
    (kw : pystr) :
  kw <> [] -> (hours_old <? 0)%float = false ->
  exists e, trend_score cache n hours_old kw = Raise e.
Proof.
  intros Hk Hh. unfold trend_score, calculate_popularity_score.
  destruct kw as [|c kw]; [congruence|]. rewrite Hh.
  destruct (py_float_of_int (n * 10)) as [x|e]; cbn [bind]; [|eauto].
  rewrite configured_importance_raises. cbn [bind]. eauto.
Qed.

(** C1 on the code.  With the tables and weights [TrendScoring] configures,
    [_calculate_keyword_importance] returns no value: for every keyword and
    every state of the cache it raises [ValueError], at the compiled pattern
    [ALPHA_NUM] in the first category of the Japanese table. *)
Theorem keyword_importance_raises_on_configured_tables
    (cache : regex_cache) (kw : pystr) :
  _calculate_keyword_importance configured_calculator cache kw
    JP_PATTERNS EN_PATTERNS = Raise ValueError.
Proof. exact (configured_importance_raises cache kw). Qed.

(** C2 on the code.  The call of the specification's own example,
    [trend_score(count=5, hours_old=0.2, keyword="AI")], raises [ValueError]
    where 90.75 is expected; with tables of plain patterns the calculator
    does return 90.75. *)
Theorem trend_score_raises_on_example :
  trend_score [] 5 0.2%float (u "AI") = Raise ValueError
  /\ calculate_popularity_score configured_calculator [] 5 0.2%float (u "AI") [] []
     = Ok (90.75%float, []).
Proof. vm_compute. split; reflexivity. Qed.

(** ** analyze_sentiment *)

#[local] Open Scope R_scope.

Lemma round_half_even_near (y : R) (k : Z) :
  IZR k - 1/2 < y < IZR k + 1/2 -> round_half_even y = k.
Proof.
  intros [Hlo Hhi]. unfold round_half_even.
  destruct (Rlt_le_dec y (IZR k)) as [Hlt|Hge].
  - assert (Int_part y = (k - 1)%Z) as ->.
    { symmetry. apply Int_part_spec. rewrite minus_IZR. lra. }
    rewrite minus_IZR.
    destruct (Rlt_dec (y - (IZR k - 1)) (1/2)) as [H|_]; [lra|].
    destruct (Rlt_dec (1/2) (y - (IZR k - 1))) as [_|H]; [lia|lra].
  - assert (Int_part y = k) as ->.
    { symmetry. apply Int_part_spec. lra. }
    destruct (Rlt_dec (y - IZR k) (1/2)) as [_|H]; [reflexivity|lra].
Qed.

Lemma py_round3_near (x : R) (k : Z) :
  IZR k - 1/2 < x * 1000 < IZR k + 1/2 -> py_round3 x = IZR k / 1000.
Proof. intros H. unfold py_round3. now rewrite (round_half_even_near _ k H). Qed.

(** A positive real lies between two positive reals when its [n]-th power
    lies between theirs. *)
Lemma between_by_powers (a b x : R) (n : nat) :
  0 <= a -> 0 <= x -> 0 <= b -> a ^ n < x ^ n < b ^ n -> a < x < b.
Proof.
  intros Ha Hx Hb [H1 H2]. split; apply Rnot_le_lt; intros H.
  - assert (x ^ n <= a ^ n) by (apply pow_incr; lra). lra.
  - assert (b ^ n <= x ^ n) by (apply pow_incr; lra). lra.
Qed.

(** [1.5 ** (c * 1.2)] is the fifth root of [1.5 ** (6 c)]. *)
Lemma power_of_best_word (c : nat) :
  Rpower (15/10) (INR c * (12/10)) ^ 5 = (15/10) ^ (6 * c).
Proof.
  rewrite <- (Rpower_pow 5) by apply exp_pos.
  rewrite Rpower_mult.
  replace (INR c * (12/10) * INR 5) with (INR (6 * c)).
  - apply Rpower_pow. lra.
  - rewrite mult_INR. simpl. lra.
Qed.

Lemma sentiment_product_best_word (c : nat) :
  sentiment_product [("最高"%string, c)] SENTIMENT_PATTERNS 1
  = Rpower (15/10) (INR c * (12/10)).
Proof. unfold sentiment_product, SENTIMENT_PATTERNS. cbn. lra. Qed.

Lemma word_counts_best_word :
  word_counts (u "最高") = [("最高"%string, 1%nat)]
  /\ word_counts (u "最高最高") = [("最高"%string, 2%nat)].
Proof. vm_compute. split; reflexivity. Qed.

(** The values of the scorer on the three inputs of the specification. *)
Lemma analyze_sentiment_examples_aux :
  analyze_sentiment (u "") = 1
  /\ analyze_sentiment (u "最高") = 1627 / 1000
  /\ analyze_sentiment (u "最高最高") = 2646 / 1000.
Proof.
  destruct word_counts_best_word as [W1 W2].
  split; [reflexivity|]. split.
  - change (analyze_sentiment (u "最高"))
      with (py_round3 (sentiment_product (word_counts (u "最高")) SENTIMENT_PATTERNS 1)).
    rewrite W1, sentiment_product_best_word.
    apply (py_round3_near _ 1627).
    pose proof (power_of_best_word 1) as P.
    assert (16265/10000 < Rpower (15/10) (INR 1 * (12/10)) < 1627/1000) as B.
    { apply (between_by_powers _ _ _ 5); try lra.
      - left. apply exp_pos.
      - rewrite P. simpl. lra. }
    lra.
  - change (analyze_sentiment (u "最高最高"))
      with (py_round3 (sentiment_product (word_counts (u "最高最高")) SENTIMENT_PATTERNS 1)).
    rewrite W2, sentiment_product_best_word.
    apply (py_round3_near _ 2646).
    pose proof (power_of_best_word 2) as P.
    assert (26456/10000 < Rpower (15/10) (INR 2 * (12/10)) < 26465/10000) as B.
    { apply (between_by_powers _ _ _ 5); try lra.
      - left. apply exp_pos.
      - rewrite P. simpl. lra. }
    lra.
Qed.

(** C6, as amended.  The scorer returns 1.0 for the empty string, 1.627 for
    "最高" and 2.646 for "最高最高": the rule of 最高 has the score 1.5 and
    the weight 1.2, so one occurrence contributes 1.5 ** 1.2 and two
    contribute 1.5 ** 2.4, rounded to three places. *)
Theorem analyze_sentiment_examples :
  analyze_sentiment (u "") = 1
  /\ analyze_sentiment (u "最高") = 1627 / 1000
  /\ analyze_sentiment (u "最高最高") = 2646 / 1000.
Proof. exact analyze_sentiment_examples_aux. Qed.

(** C6 as stated fails on the two non-empty inputs: the scorer returns
    neither 1.5 for "最高" nor 2.25 for "最高最高". *)
Lemma analyze_sentiment_not_plain_powers :
  analyze_sentiment (u "最高") <> 15 / 10
  /\ analyze_sentiment (u "最高最高") <> 225 / 100.
Proof.
  destruct analyze_sentiment_examples_aux as (_ & E1 & E2).
  rewrite E1, E2. split; lra.
Qed.

#[local] Close Scope R_scope.

(** * Properties of the rest of the pipeline *)

(** ** _extract_words *)

Section ExtractWordsFacts.
Context {R : Re}.

Lemma building_extracted (w : pystr) :
  building w -> w <> [] -> extracted_word w.
Proof.
  intros [Hs Hj] Hn. split; [exact Hn|]. split; [exact Hs|].
  destruct Hj as [[c [-> _]]|Hj]; [now left|now right].
Qed.

Lemma flushed_extracted (words : list pystr) (current_word : pystr) :
  Forall extracted_word words -> building current_word ->
  Forall extracted_word
    (match current_word with [] => words | _ => words ++ [current_word] end)
  /\ concat (match current_word with [] => words | _ => words ++ [current_word] end)
     = concat words ++ current_word.
Proof.
  intros Hw Hc. destruct current_word as [|c w].
  - split; [exact Hw|now rewrite app_nil_r].
  - split.
    + apply Forall_app. split; [exact Hw|]. constructor; [|constructor].
      apply building_extracted; [exact Hc|discriminate].
    + rewrite concat_app. cbn [concat]. now rewrite app_nil_r.
Qed.

Lemma building_one (c : codepoint) :
  isspace c = false ->
  _is_japanese_text [c] = true \/ _is_japanese_text [c] = false ->
  building [c].
Proof.
  intros Hs Hj. split; [cbn; now rewrite Hs|].
  destruct Hj as [Hj|Hj]; [left; now exists c|right; cbn; now rewrite Hj].
Qed.

Lemma extract_step_inv (read : pystr) (st : list pystr * pystr) (char : codepoint) :
  extract_inv read st -> extract_inv (read ++ [char]) (extract_step st char).
Proof.
  destruct st as [words cur]. intros (Hw & Hc & Hr). cbn [fst snd] in *.
  destruct (flushed_extracted words cur Hw Hc) as [Fw Fc].
  assert (filter (fun c => negb (isspace c)) (read ++ [char])
          = (concat words ++ cur) ++ (if isspace char then [] else [char])) as Hf.
  { rewrite filter_app, Hr. cbn [filter]. now destruct (isspace char). }
  unfold extract_step, extract_inv. cbv zeta. rewrite Hf.
  destruct (isspace char) eqn:Hs.
  - (* whitespace ends the word *)
    cbn [fst snd]. split; [exact Fw|]. split; [split; [reflexivity|now right]|].
    f_equal; exact Fc.
  - destruct (_is_japanese_text [char]) eqn:Hj.
    + (* a Japanese character is a word of its own *)
      cbn [fst snd]. split; [exact Fw|]. split; [apply building_one; auto|].
      f_equal; exact Fc.
    + destruct (_is_japanese_text cur) eqn:Hjc.
      * (* the first character after a Japanese one *)
        cbn [fst snd]. split; [exact Fw|]. split; [apply building_one; auto|].
        f_equal; exact Fc.
      * (* one more character of the word *)
        cbn [fst snd]. split; [exact Hw|]. split.
        -- destruct Hc as [Hsp Hk]. split.
           ++ rewrite forallb_app, Hsp. cbn. now rewrite Hs.
           ++ right. destruct Hk as [[c [-> Hk]]|Hk]; [congruence|].
              rewrite forallb_app, Hk. cbn. now rewrite Hj.
        -- now rewrite app_assoc.
Qed.

Lemma fold_extract_step_inv (todo read : pystr) (st : list pystr * pystr) :
  extract_inv read st ->
  extract_inv (read ++ todo) (fold_left extract_step todo st).
Proof.
  revert read st. induction todo as [|c todo IH]; intros read st Inv; cbn [fold_left].
  - now rewrite app_nil_r.
  - replace (read ++ c :: todo) with ((read ++ [c]) ++ todo)
      by now rewrite <- app_assoc.
    apply IH, extract_step_inv, Inv.
Qed.

Lemma _extract_words_inv (text : pystr) :
  Forall extracted_word (_extract_words text)
  /\ concat (_extract_words text) = filter (fun c => negb (isspace c)) text.
Proof.
  unfold _extract_words.
  destruct text as [|c0 t0] eqn:E; [split; [constructor|reflexivity]|].
  rewrite <- E. clear E c0 t0.
  assert (extract_inv [] ([], [])) as Inv0.
  { split; [constructor|]. split; [split; [reflexivity|now right]|reflexivity]. }
  pose proof (fold_extract_step_inv text [] ([], []) Inv0) as Inv.
  cbn [app] in Inv.
  destruct (fold_left extract_step text ([], [])) as [words cur].
  destruct Inv as (Hw & Hc & Hr). cbn [fst snd] in *.
  destruct (flushed_extracted words cur Hw Hc) as [Fw Fc].
  split; [exact Fw|]. exact (eq_trans Fc Hr).
Qed.


End ExtractWordsFacts.

(** ** _identify_part_of_speech: the classes *)

Section ClassFacts.
Context {R : Re}.

Lemma first_category_key (test : list pattern_entry -> result bool)
    (table : patterns_dict) (pos : string) :
  first_category test table = Ok (Some pos) -> In pos (map fst table).
Proof.
  induction table as [|[k ps] table IH]; cbn [first_category map fst].
  - discriminate.
  - destruct (test ps) as [[|]|e]; cbn [bind].
    + intros [= <-]. now left.
    + intros H. right. exact (IH H).
    + discriminate.
Qed.

(** The keys of the four tables, and the colours of the sixteen tags. *)
Lemma table_keys :
  map fst DEPENDENT_WORDS = JP_DEPENDENT_TAGS
  /\ map fst JP_INDEPENDENT_WORDS = JP_INDEPENDENT_TAGS
  /\ map fst FUNCTION_WORDS = EN_FUNCTION_TAGS
  /\ map fst INDEPENDENT_WORDS = EN_INDEPENDENT_TAGS.
Proof. repeat split. Qed.

Lemma tags_have_colours :
  forallb (fun pos => is_some (dict_get POS_COLORS pos))
    (JP_DEPENDENT_TAGS ++ JP_INDEPENDENT_TAGS ++ ["記号"%string]
     ++ EN_FUNCTION_TAGS ++ EN_INDEPENDENT_TAGS ++ ["symbol"%string]) = true.
Proof. vm_compute. reflexivity. Qed.

Lemma _identify_japanese_pos_class (w : pystr) :
  exists pos imp,
    _identify_japanese_pos w = Ok (pos, imp)
    /\ class_of JP_DEPENDENT_TAGS JP_INDEPENDENT_TAGS "記号" pos imp.
Proof.
  destruct tables_well_typed as (T1 & T2 & _ & _).
  destruct table_keys as (K1 & K2 & _ & _).
  unfold _identify_japanese_pos, class_of.
  destruct (match_entry_unflagged_ok w _ T1) as [[pos|] E]; rewrite E; cbn [bind].
  - apply first_category_key in E. rewrite K1 in E. eauto 7.
  - clear E.
    destruct (match_entry_unflagged_ok w _ T2) as [[pos|] E]; rewrite E; cbn [bind].
    + apply first_category_key in E. rewrite K2 in E. eauto 7.
    + eauto 7.
Qed.

Lemma _identify_english_pos_class (w : pystr) :
  exists pos imp,
    _identify_english_pos w = Ok (pos, imp)
    /\ class_of EN_FUNCTION_TAGS EN_INDEPENDENT_TAGS "symbol" pos imp.
Proof.
  destruct tables_well_typed as (_ & _ & T3 & T4).
  destruct table_keys as (_ & _ & K3 & K4).
  unfold _identify_english_pos, class_of.
  destruct (_ || _).
  - exists "verb"%string, 2.0%float. split; [reflexivity|].
    right. left. split; [reflexivity|]. cbn. tauto.
  - destruct (_match_patterns_ok w _ T3) as [[pos|] E]; rewrite E; cbn [bind].
    + apply first_category_key in E. rewrite K3 in E. eauto 7.
    + clear E.
      destruct (_match_patterns_ok w _ T4) as [[pos|] E]; rewrite E; cbn [bind].
      * apply first_category_key in E. rewrite K4 in E. eauto 7.
      * eauto 7.
Qed.

Lemma class_has_colour (pos : string) (imp : float) :
  class_of JP_DEPENDENT_TAGS JP_INDEPENDENT_TAGS "記号" pos imp
  \/ class_of EN_FUNCTION_TAGS EN_INDEPENDENT_TAGS "symbol" pos imp ->
  is_some (dict_get POS_COLORS pos) = true.
Proof.
  pose proof tags_have_colours as H. rewrite forallb_forall in H.
  intros C. apply H. rewrite !in_app_iff. unfold class_of in C. cbn [In].
  intuition (subst; auto).
Qed.


End ClassFacts.

(** ** analyze *)

Section AnalyzeFacts.
Context {R : Re}.

Lemma analyze_from_words (words prev_words next_words todo : list pystr) :
  forall i results,
    analyze_from words prev_words next_words i todo = Ok results ->
    map word results = todo.
Proof.
  induction todo as [|w rest IH]; intros i results; cbn [analyze_from].
  - intros [= <-]. reflexivity.
  - unfold analyze_word.
    destruct (_identify_part_of_speech w) as [[pos imp]|e]; cbn [bind]; [|discriminate].
    destruct (_adjust_importance w pos imp words i prev_words next_words) as [v|e];
      cbn [bind]; [|discriminate].
    destruct (analyze_from words prev_words next_words (i + 1) rest) as [rs|e] eqn:E;
      cbn [bind]; [|discriminate].
    intros [= <-]. cbn [map word]. f_equal. exact (IH _ _ E).
Qed.

Lemma _analyze_with_context_ok (sentence : pystr)
    (prev_sentence next_sentence : option pystr) :
  exists results,
    _analyze_with_context sentence prev_sentence next_sentence = Ok results
    /\ Forall (fun a => importance_in_range (importance a)) results
    /\ map word results = _extract_words sentence.
Proof.
  unfold _analyze_with_context.
  match goal with
  | |- context [analyze_from ?ws ?p ?n ?i ?t] =>
      destruct (analyze_from_ok ws p n t i) as (results & E & Hr)
  end.
  exists results. split; [exact E|]. split; [exact Hr|].
  exact (analyze_from_words _ _ _ _ _ _ E).
Qed.

Lemma sentence_break_in_range : importance_in_range (importance sentence_break).
Proof. vm_compute. split; reflexivity. Qed.

Lemma analyze_loop_spec (todo : list pystr) :
  forall done : list pystr,
  exists results,
    analyze_loop (done ++ todo) (Z.of_nat (length done)) todo = Ok results
    /\ Forall (fun a => importance_in_range (importance a)) results
    /\ map word results = join_with (u "。") (map _extract_words todo).
Proof.
  induction todo as [|s rest IH]; intros done.
  - exists []. repeat split. constructor.
  - cbn [analyze_loop]. cbv zeta.
    match goal with
    | |- context [_analyze_with_context s ?p ?n] =>
        destruct (_analyze_with_context_ok s p n) as (rs & -> & Hr & Hw)
    end.
    cbn [bind].
    specialize (IH (done ++ [s])).
    rewrite <- app_assoc in IH. cbn [app] in IH.
    replace (Z.of_nat (length (done ++ [s]))) with (Z.of_nat (length done) + 1)%Z in IH
      by (rewrite length_app; cbn [length]; lia).
    destruct IH as (more & -> & Hm & Hmw). cbn [bind].
    eexists. split; [reflexivity|].
    assert ((Z.of_nat (length done) <? Z.of_nat (length (done ++ s :: rest)) - 1)%Z
            = match rest with [] => false | _ => true end) as ->.
    { rewrite length_app. cbn [length]. destruct rest; cbn [length].
      - apply Z.ltb_ge. lia.
      - apply Z.ltb_lt. lia. }
    destruct rest as [|s2 rest].
    + cbn [analyze_loop] in *. cbn [map join_with].
      split.
      * rewrite !Forall_app. repeat split; [exact Hr|constructor|exact Hm].
      * rewrite !map_app, Hw, Hmw. cbn [map join_with app]. now rewrite !app_nil_r.
    + split.
      * rewrite !Forall_app. repeat split; [exact Hr| |exact Hm].
        constructor; [exact sentence_break_in_range|constructor].
      * rewrite !map_app, Hw, Hmw. cbn [map join_with app word sentence_break].
        rewrite <- app_assoc. reflexivity.
Qed.


End AnalyzeFacts.

(** ** update_trends: the counts it stores and the counts it returns *)

Lemma find_map_same {A} (p : A -> bool) (f : A -> A) (l : list A) :
  (forall x, p (f x) = p x) -> find p (map f l) = option_map f (find p l).
Proof.
  intros H. induction l as [|x l IH]; cbn [map find option_map]; [reflexivity|].
  rewrite H. destruct (p x); [reflexivity|exact IH].
Qed.

Lemma find_app_one {A} (p : A -> bool) (l : list A) (x : A) :
  find p (l ++ [x]) = match find p l with
                      | Some y => Some y
                      | None => if p x then Some x else None
                      end.
Proof.
  induction l as [|y l IH]; cbn [app find]; [reflexivity|].
  destruct (p y); [reflexivity|exact IH].
Qed.

Lemma NoDup_map_eq {A B} (g : A -> B) (l : list A) (a b : A) :
  NoDup (map g l) -> In a l -> In b l -> g a = g b -> a = b.
Proof.
  induction l as [|x l IH]; cbn [map]; [intros _ []|].
  intros N Ha Hb E. inversion N as [|? ? Hx N']; subst.
  destruct Ha as [->|Ha], Hb as [->|Hb]; [reflexivity| | |now apply IH].
  - exfalso. apply Hx. rewrite E. now apply in_map.
  - exfalso. apply Hx. rewrite <- E. now apply in_map.
Qed.

Lemma le_max_of (l : list nat) (x : nat) :
  In x l -> (x <= fold_right Nat.max 0 l)%nat.
Proof.
  induction l as [|y l IH]; cbn [fold_right]; [intros []|].
  intros [->|H]; [lia|]. specialize (IH H). lia.
Qed.

Lemma pystr_eqb_sym (a b : pystr) : pystr_eqb a b = pystr_eqb b a.
Proof.
  destruct (pystr_eqb a b) eqn:E1, (pystr_eqb b a) eqn:E2; try reflexivity.
  - apply pystr_eqb_eq in E1. subst. 
    assert (pystr_eqb b b = true) by now apply pystr_eqb_eq. congruence.
  - apply pystr_eqb_eq in E2. subst.
    assert (pystr_eqb a a = true) by now apply pystr_eqb_eq. congruence.
Qed.

Lemma occurrences_cons (w k : pystr) (kws : list pystr) :
  occurrences w (k :: kws)
  = ((if pystr_eqb w k then 1 else 0) + occurrences w kws)%Z.
Proof.
  unfold occurrences. cbn [filter]. destruct (pystr_eqb w k); cbn [length]; lia.
Qed.

Lemma occurrences_nonneg (w : pystr) (kws : list pystr) : (0 <= occurrences w kws)%Z.
Proof. unfold occurrences. lia. Qed.

Section StoreFacts.
Context {R : Re}.

(** One stored word: the key stays a key, the count of the word goes up by
    one and no other count changes, the word is in the table afterwards,
    and the row returned carries the count read before the write, or 1 for
    a word the table did not hold. *)
Lemma store_keyword_counts (d : db) (w : pystr) :
  NoDup (map trend_id (rows d)) ->
  NoDup (map trend_id (rows (snd (store_keyword d w))))
  /\ (forall k, stored_count (snd (store_keyword d w)) k
                = (stored_count d k + if pystr_eqb k w then 1 else 0)%Z)
  /\ (forall k, is_some (select_by_keyword (snd (store_keyword d w)) k)
                = is_some (select_by_keyword d k) || pystr_eqb k w)
  /\ keyword (fst (store_keyword d w)) = w
  /\ count (fst (store_keyword d w)) = reported_count d [] w.
Proof.
  intros N. unfold store_keyword, reported_count, stored_count, select_by_keyword.
  change (occurrences w []) with 0%Z. rewrite orb_false_r, Z.add_0_r.
  destruct (find (fun r => pystr_eqb (keyword r) w) (rows d)) as [r0|] eqn:E.
  - (* the word is in the table: UPDATE *)
    pose proof (find_some _ _ E) as [Hin Hk]. apply pystr_eqb_eq in Hk.
    cbn [fst snd commit execute_update rows is_some].
    set (f := fun r => if Nat.eqb (trend_id r) (trend_id r0)
                       then {| trend_id := trend_id r; keyword := keyword r;
                               count := (count r0 + 1)%Z |}
                       else r).
    assert (forall r, trend_id (f r) = trend_id r) as Fid
      by (intros r; unfold f; now destruct (Nat.eqb _ _)).
    assert (forall r, keyword (f r) = keyword r) as Fk
      by (intros r; unfold f; now destruct (Nat.eqb _ _)).
    assert (forall k, find (fun r => pystr_eqb (keyword r) k) (map f (rows d))
                      = option_map f (find (fun r => pystr_eqb (keyword r) k) (rows d)))
      as Ff by (intros k; apply find_map_same; intros x; now rewrite Fk).
    split; [|split; [|split; [|split]]].
    + rewrite map_map. erewrite map_ext; [exact N|]. exact Fid.
    + intros k. rewrite Ff.
      destruct (find (fun r => pystr_eqb (keyword r) k) (rows d)) as [r1|] eqn:E1;
        cbn [option_map].
      * destruct (pystr_eqb k w) eqn:Ekw.
        -- apply pystr_eqb_eq in Ekw. rewrite Ekw, E in E1. injection E1 as <-.
           unfold f. rewrite Nat.eqb_refl. reflexivity.
        -- pose proof (find_some _ _ E1) as [Hin1 Hk1]. apply pystr_eqb_eq in Hk1.
           unfold f. destruct (Nat.eqb (trend_id r1) (trend_id r0)) eqn:Eid.
           ++ apply Nat.eqb_eq in Eid.
              pose proof (NoDup_map_eq trend_id _ _ _ N Hin1 Hin Eid) as Er.
              rewrite Er, Hk in Hk1.
              rewrite <- Hk1, (proj2 (pystr_eqb_eq w w) eq_refl) in Ekw.
              discriminate.
           ++ lia.
      * destruct (pystr_eqb k w) eqn:Ekw; [|lia].
        apply pystr_eqb_eq in Ekw. rewrite Ekw, E in E1. discriminate.
    + intros k. rewrite Ff.
      destruct (find (fun r => pystr_eqb (keyword r) k) (rows d)) as [r1|] eqn:E1;
        cbn [option_map is_some]; [reflexivity|].
      destruct (pystr_eqb k w) eqn:Ekw; [|reflexivity].
      apply pystr_eqb_eq in Ekw. rewrite Ekw, E in E1. discriminate.
    + exact Hk.
    + reflexivity.
  - (* the word is new: INSERT *)
    cbn [fst snd commit execute_insert rows is_some keyword count].
    set (r := {| trend_id := S (fold_right Nat.max 0%nat (map trend_id (rows d)));
                 keyword := w; count := 1 |}).
    split; [|split; [|split; [|split]]].
    + rewrite map_app. cbn [map].
      apply NoDup_app; [exact N|repeat constructor; intros []|].
      intros a Ha [<-|[]]. apply le_max_of in Ha. cbn [trend_id r] in Ha. lia.
    + intros k. rewrite find_app_one.
      destruct (find (fun r => pystr_eqb (keyword r) k) (rows d)) as [r1|] eqn:E1.
      * destruct (pystr_eqb k w) eqn:Ekw; [|lia].
        apply pystr_eqb_eq in Ekw. rewrite Ekw, E in E1. discriminate.
      * cbn [keyword r]. rewrite (pystr_eqb_sym w k).
        destruct (pystr_eqb k w); reflexivity.
    + intros k. rewrite find_app_one.
      destruct (find (fun r => pystr_eqb (keyword r) k) (rows d)) as [r1|] eqn:E1;
        [reflexivity|].
      cbn [keyword r]. rewrite (pystr_eqb_sym w k).
      destruct (pystr_eqb k w); reflexivity.
    + reflexivity.
    + reflexivity.
Qed.

End StoreFacts.

Section UpdateCountsFacts.
Context {R : Re}.

Lemma reported_count_shift (d d1 : db) (w w' : pystr) (pre : list pystr) :
  stored_count d1 w = (stored_count d w + if pystr_eqb w w' then 1 else 0)%Z ->
  is_some (select_by_keyword d1 w) = is_some (select_by_keyword d w) || pystr_eqb w w' ->
  reported_count d1 pre w = reported_count d (w' :: pre) w.
Proof.
  intros Hc Hp. unfold reported_count. rewrite Hc, Hp, occurrences_cons.
  pose proof (occurrences_nonneg w pre) as Hn.
  destruct (pystr_eqb w w').
  - rewrite orb_true_r. cbn [orb].
    replace (0 <? 1 + occurrences w pre)%Z with true by (symmetry; apply Z.ltb_lt; lia).
    rewrite orb_true_r. lia.
  - rewrite orb_false_r, !Z.add_0_r. cbn [Z.add]. reflexivity.
Qed.

Lemma update_loop_counts (words : list pystr) :
  forall (trends : list trend_row) (d : db),
  NoDup (map trend_id (rows d)) ->
  exists rs d' kws,
    update_loop words trends d = Ok (trends ++ rs, d')
    /\ trend_keywords words = Ok kws
    /\ NoDup (map trend_id (rows d'))
    /\ (forall k, stored_count d' k = (stored_count d k + occurrences k kws)%Z)
    /\ (forall k, is_some (select_by_keyword d' k)
                  = is_some (select_by_keyword d k) || (0 <? occurrences k kws)%Z)
    /\ length rs = length kws
    /\ (forall pre w post, kws = pre ++ w :: post ->
          exists r, nth_error rs (length pre) = Some r
                    /\ keyword r = w /\ count r = reported_count d pre w).
Proof.
  induction words as [|x rest IH]; intros trends d N; cbn [update_loop trend_keywords].
  - exists [], d, []. rewrite app_nil_r. repeat split; try assumption.
    + intros k. change (occurrences k []) with 0%Z. lia.
    + intros k. change (occurrences k []) with 0%Z. now rewrite orb_false_r.
    + intros [|? ?] w post; discriminate.
  - destruct (trend_keyword_ok x) as [kept ->]. cbn [bind].
    destruct kept as [w'|].
    + destruct (store_keyword_counts d w' N) as (N1 & C1 & P1 & K1 & Rp1).
      destruct (store_keyword d w') as [r0 d1]. cbn [fst snd] in *.
      destruct (IH (trends ++ [r0]) d1 N1)
        as (rs1 & d' & kws1 & -> & -> & N' & C' & P' & L' & Rp').
      cbn [bind]. exists (r0 :: rs1), d', (w' :: kws1).
      split; [now rewrite <- app_assoc|]. split; [reflexivity|].
      split; [exact N'|]. split; [|split; [|split]].
      * intros k. rewrite C', C1, occurrences_cons. lia.
      * intros k. rewrite P', P1, occurrences_cons.
        pose proof (occurrences_nonneg k kws1) as Hn.
        destruct (pystr_eqb k w').
        -- replace (0 <? 1 + occurrences k kws1)%Z with true
             by (symmetry; apply Z.ltb_lt; lia).
           now rewrite !orb_true_r.
        -- now rewrite orb_false_r.
      * cbn [length]. now rewrite L'.
      * intros [|p pre] w post E; cbn [app] in E; injection E as E1 E2.
        -- subst. exists r0. cbn [length nth_error]. repeat split; assumption.
        -- subst p. destruct (Rp' pre w post E2) as (r & Hr & Hk & Hc).
           exists r. cbn [length nth_error]. split; [exact Hr|]. split; [exact Hk|].
           rewrite Hc. apply reported_count_shift; [apply C1|apply P1].
    + destruct (IH trends d N) as (rs1 & d' & kws1 & -> & -> & N' & C' & P' & L' & Rp').
      cbn [bind]. exists rs1, d', kws1. repeat split; assumption.
Qed.



End UpdateCountsFacts.



(** ** _estimate_base_form *)

Lemma startswith_app (p s : pystr) :
  startswith s p = true -> s = p ++ skipn (length p) s.
Proof.
  revert s. induction p as [|x p IH]; intros s; [reflexivity|].
  destruct s as [|y s]; cbn [startswith]; [discriminate|].
  rewrite andb_true_iff, N.eqb_eq. intros [-> H].
  cbn [length skipn app]. f_equal. exact (IH s H).
Qed.

(** A word that ends with [e] is its slice [word[:-len(e)]] followed by
    [e]. *)
Lemma endswith_split (word e : pystr) :
  endswith word e = true -> firstn (length word - length e) word ++ e = word.
Proof.
  unfold endswith. intros H. apply startswith_app in H.
  rewrite length_rev, skipn_rev in H.
  apply (f_equal (@rev codepoint)) in H.
  rewrite rev_app_distr, !rev_involutive in H. now symmetry.
Qed.

Lemma estimate_by_ending_same (endings : list (string * string)) (word b : pystr) :
  forallb (fun eb => String.eqb (fst eb) (snd eb)
                     && Nat.ltb 0 (length (u (fst eb)))) endings = true ->
  estimate_by_ending endings word = Some b -> b = word.
Proof.
  induction endings as [|[e base] endings IH]; cbn [estimate_by_ending forallb fst snd];
    [discriminate|].
  rewrite !andb_true_iff, String.eqb_eq, Nat.ltb_lt. intros [[<- Hn] Hs].
  destruct (endswith word (u e)) eqn:E; [|exact (IH Hs)].
  intros [= <-]. unfold drop_last.
  destruct (length (u e)) eqn:L; [lia|]. rewrite <- L.
  exact (endswith_split word (u e) E).
Qed.

Lemma VERB_STEM_ENDINGS_same :
  forallb (fun eb => String.eqb (fst eb) (snd eb)
                     && Nat.ltb 0 (length (u (fst eb)))) VERB_STEM_ENDINGS = true.
Proof. vm_compute. reflexivity. Qed.


(** ** _check_compound_word *)

Lemma str_in_cons_false (x y : pystr) (l : list pystr) :
  str_in x (y :: l) = false -> x <> y.
Proof.
  unfold str_in. cbn [existsb]. rewrite orb_false_iff. intros [H _] ->.
  rewrite (proj2 (pystr_eqb_eq y y) eq_refl) in H. discriminate.
Qed.

(** What a call that finds a compound returns. *)
Lemma _check_compound_word_found (input : pystr) (lang : Language)
    (seen seen' : list pystr) (tok : Token) (n : nat) :
  _check_compound_word input lang seen = (Some (tok, n), seen') ->
  is_compound tok = true
  /\ n = length (text tok)
  /\ str_in (text tok) seen = false
  /\ seen' = text tok :: seen
  /\ match lang with
     | JAPANESE =>
         In (text tok) (map u COMPOUND_WORDS)
         /\ startswith input (text tok) = true
     | _ =>
         In (text tok) (map u TECH_WORDS)
         /\ startswith (lower input) (lower (text tok)) = true
     end.
Proof.
  unfold _check_compound_word. destruct lang.
  - destruct (find _ _) as [c|] eqn:E; [|discriminate].
    intros [= <- <- <-]. apply find_some in E. destruct E as [Hin Hs].
    apply filter_In in Hin. destruct Hin as [Hin Hn]. apply negb_true_iff in Hn.
    cbn [is_compound text compound_token]. repeat split; assumption.
  - destruct (find _ _) as [c|] eqn:E; [|discriminate].
    intros [= <- <- <-]. apply find_some in E. destruct E as [Hin Hs].
    apply filter_In in Hin. destruct Hin as [Hin Hn]. apply negb_true_iff in Hn.
    cbn [is_compound text compound_token]. repeat split; assumption.
  - destruct (find _ _) as [c|] eqn:E; [|discriminate].
    intros [= <- <- <-]. apply find_some in E. destruct E as [Hin Hs].
    apply filter_In in Hin. destruct Hin as [Hin Hn]. apply negb_true_iff in Hn.
    cbn [is_compound text compound_token]. repeat split; assumption.
Qed.


(** Every compound of the two lists begins with a backslash: they are the
    sources of patterns, compared as plain text. *)
Lemma compounds_begin_with_backslash :
  forallb (fun c => match c with x :: _ => x =? cp "\" | [] => false end)
    (map u COMPOUND_WORDS ++ map u TECH_WORDS) = true.
Proof. vm_compute. reflexivity. Qed.

Lemma lower_char_backslash (c : codepoint) :
  lower_char c = cp "\" -> c = cp "\".
Proof.
  unfold lower_char, is_ascii_upper, in_range. change (cp "\") with 92.
  destruct (N.leb_spec 65 c), (N.leb_spec c 90), (N.leb_spec 65313 c),
    (N.leb_spec c 65338); cbn [andb orb]; lia.
Qed.

Lemma find_all_false {A} (test : A -> bool) (l : list A) :
  (forall x, In x l -> test x = false) -> find test l = None.
Proof.
  induction l as [|x l IH]; intros H; cbn [find]; [reflexivity|].
  rewrite (H x (or_introl eq_refl)). apply IH. intros y Hy. apply H. now right.
Qed.




(** ** The matcher: a match consumes at least the least width *)

Lemma rmatch_repeat (ic : bool) (a : Regex.regex) (lo : nat) (hi : option nat)
    (k : Regex.cursor) :
  Regex.rmatch ic (Regex.RRepeat a lo hi) k
  = repeat_matches (Regex.rmatch ic a) (S (length (Regex.rest k) + lo)) lo hi k.
Proof. reflexivity. Qed.

Lemma advance_width (k k' : Regex.cursor) (ok : codepoint -> bool) :
  In k' (Regex.advance k ok) ->
  (length (Regex.rest k') + 1 <= length (Regex.rest k))%nat.
Proof.
  unfold Regex.advance. destruct (Regex.rest k) as [|c r]; [intros []|].
  destruct (ok c); [|intros []]. intros [<-|[]]. cbn [Regex.rest length]. lia.
Qed.

Lemma repeat_matches_width (step : Regex.cursor -> list Regex.cursor) (m : nat) :
  (forall k k', In k' (step k) ->
     (length (Regex.rest k') + m <= length (Regex.rest k))%nat) ->
  forall fuel lo hi k k',
    In k' (repeat_matches step fuel lo hi k) ->
    (length (Regex.rest k') + lo * m <= length (Regex.rest k))%nat.
Proof.
  intros Hstep. induction fuel as [|f IH]; intros lo hi k k'; cbn [repeat_matches].
  - intros [].
  - cbv zeta. rewrite in_app_iff. intros [H|H].
    + assert (In k' (flat_map
                (fun k1 =>
                   if Nat.ltb (length (Regex.rest k1)) (length (Regex.rest k))
                      || Nat.ltb 0 lo
                   then repeat_matches step f (Nat.pred lo) (option_map Nat.pred hi) k1
                   else [])
                (step k))) as H'
        by (destruct hi as [[|h]|]; [destruct H|exact H|exact H]).
      apply in_flat_map in H'. destruct H' as [k1 [H1 H2]].
      destruct (_ || _); [|destruct H2].
      apply Hstep in H1. apply IH in H2.
      destruct lo as [|lo]; cbn [Nat.pred] in H2; nia.
    + destruct (Nat.eqb lo 0) eqn:E; [|destruct H].
      apply Nat.eqb_eq in E. destruct H as [<-|[]]. subst lo. lia.
Qed.

Lemma rmatch_min_width (ic : bool) (r : Regex.regex) :
  forall k k', In k' (Regex.rmatch ic r k) ->
    (length (Regex.rest k') + min_width r <= length (Regex.rest k))%nat.
Proof.
  induction r as [ | c | | neg items | a IHa b IHb | a IHa b IHb | a IHa lo hi
                 | | | | neg a IHa | neg a IHa ]; intros k k'.
  - cbn [Regex.rmatch min_width]. intros [<-|[]]. lia.
  - cbn [Regex.rmatch min_width]. apply advance_width.
  - cbn [Regex.rmatch min_width]. apply advance_width.
  - cbn [Regex.rmatch min_width]. apply advance_width.
  - cbn [Regex.rmatch min_width]. rewrite in_flat_map. intros [k1 [H1 H2]].
    apply IHa in H1. apply IHb in H2. lia.
  - cbn [Regex.rmatch min_width]. rewrite in_app_iff.
    intros [H|H]; [apply IHa in H|apply IHb in H]; lia.
  - rewrite rmatch_repeat. cbn [min_width].
    apply repeat_matches_width. exact IHa.
  - cbn [Regex.rmatch min_width].
    destruct (Regex.at_word_boundary k); [intros [<-|[]]; lia|intros []].
  - cbn [Regex.rmatch min_width].
    destruct (Regex.seen k); [intros [<-|[]]; lia|intros []].
  - cbn [Regex.rmatch min_width]. intros H.
    assert (k' = k) as ->; [|lia].
    revert H. destruct (Regex.rest k) as [|c [|d t]].
    + now intros [<-|[]].
    + destruct (c =? 10); [now intros [<-|[]]|intros []].
    + intros [].
  - cbn [Regex.rmatch min_width].
    destruct (Regex.rmatch ic a k), neg; try (intros [<-|[]]; lia); intros [].
  - cbn [Regex.rmatch min_width].
    match goal with |- In _ (if ?b then _ else _) -> _ => destruct b end;
      [intros [<-|[]]; lia|intros []].
Qed.

(** What [re.match] returns is a prefix of the text, and it is not empty
    when the pattern cannot match the empty string. *)
Lemma py_re_match_prefix (p : pystr) (ic : bool) (s g : pystr) :
  py_re_match p ic s = Some g ->
  (exists after, s = g ++ after)
  /\ forall r, Regex.parse p = Some r -> (1 <= min_width r)%nat -> g <> [].
Proof.
  unfold py_re_match, Regex.match_at.
  destruct (Regex.parse p) as [r|]; [|discriminate].
  destruct (Regex.rmatch ic r {| Regex.seen := []; Regex.rest := s |})
    as [|k' ks] eqn:E; cbn [hd_error]; [discriminate|].
  intros [= <-]. unfold Regex.matched_text. cbn [Regex.rest]. split.
  - eexists. symmetry. apply firstn_skipn.
  - intros r' [= <-] Hw.
    assert (In k' (Regex.rmatch ic r {| Regex.seen := []; Regex.rest := s |})) as Hin
      by (rewrite E; now left).
    apply rmatch_min_width in Hin. cbn [Regex.rest] in Hin.
    intros Hnil. apply (f_equal (@length codepoint)) in Hnil.
    rewrite length_firstn in Hnil. cbn [length] in Hnil. lia.
Qed.

(** ** _handle_unknown_token *)

(** The three patterns of [_handle_unknown_token] compile, and none of
    them can match the empty string. *)
Lemma unknown_token_patterns :
  forallb (fun p => match Regex.parse (u p) with
                    | Some r => Nat.leb 1 (min_width r)
                    | None => false
                    end)
    ["\b[a-zA-Z]+(?:'[a-zA-Z]+)?\b"; "\b\d+(?:\.\d+)?\b"; BASIC_PARTICLES]%string
  = true.
Proof. vm_compute. reflexivity. Qed.

Lemma py_re_match_progress (p : string) (s g : pystr) :
  match Regex.parse (u p) with
  | Some r => Nat.leb 1 (min_width r)
  | None => false
  end = true ->
  py_re_match (u p) false s = Some g ->
  g <> [] /\ exists after, s = g ++ after.
Proof.
  intros Hp Hm. destruct (py_re_match_prefix _ _ _ _ Hm) as [Hpre Hne].
  split; [|exact Hpre].
  destruct (Regex.parse (u p)) as [r|]; [|discriminate].
  apply (Hne r eq_refl). now apply Nat.leb_le.
Qed.


(** ** _is_balanced: escapes *)

Lemma balanced_loop_escaped_char (a b : pystr) (c c' : codepoint) :
  (c =? cp "\") = false -> (c' =? cp "\") = false ->
  forall i stack escaped,
    balanced_loop (a ++ cp "\" :: c :: b) i stack escaped
    = balanced_loop (a ++ cp "\" :: c' :: b) i stack escaped.
Proof.
  intros Hc Hc'. induction a as [|x a IH]; intros i stack escaped.
  - cbn [app]. rewrite !(balanced_loop_cons (cp "\")), N.eqb_refl.
    rewrite (balanced_loop_cons c), (balanced_loop_cons c'), Hc, Hc'.
    reflexivity.
  - rewrite <- !app_comm_cons, !(balanced_loop_cons x).
    destruct (x =? cp "\"); [apply IH|].
    destruct escaped; [apply IH|].
    destruct (is_some (pairs_get pairs x)); [apply IH|].
    destruct (in_values pairs x); [|apply IH].
    destruct stack as [|[l n] stack]; [reflexivity|].
    destruct (pairs_get pairs l) as [close|]; [|reflexivity].
    destruct (negb (close =? x)); [reflexivity|apply IH].
Qed.



(** ** tokenize_sentence: the shape of a token *)

Section TokenShapeFacts.
Context {R : Re}.

Lemma word_of_type_token (ty : option char_type) (w : pystr) :
  word_of_type ty w -> w <> [] -> token_text w.
Proof.
  intros [Hs Ht] Hn. split; [exact Hn|]. split; [exact Hs|].
  destruct ty as [[| |]|].
  - assert (length w = 1%nat) as L
      by (destruct w as [|c [|d w]]; cbn [length] in *; [congruence|reflexivity|lia]).
    split; [|now left].
    destruct w as [|c [|d w]]; try discriminate.
    cbn [forallb]. destruct (isascii_char c); [now left|now right].
  - destruct Ht as [Ha Hj]. split; [now left|now right].
  - destruct Ht as [Ha Hj]. split; [now right|now right].
  - contradiction.
Qed.

Lemma flush_shape (st : tok_state) :
  shape_inv st -> Forall (fun t => token_text (text t)) (flush st).
Proof.
  intros [Ht Hw]. unfold flush. destruct (current_word st) as [|c w] eqn:E;
    [exact Ht|].
  apply Forall_app. split; [exact Ht|]. constructor; [|constructor].
  rewrite _create_token_text.
  apply (word_of_type_token (current_type st)); [exact Hw|discriminate].
Qed.

Lemma tokenize_step_shape (st : tok_state) (char : codepoint) :
  shape_inv st -> shape_inv (tokenize_step st char).
Proof.
  intros Inv. pose proof (flush_shape st Inv) as F.
  unfold tokenize_step, shape_inv.
  destruct (char_in char (u "、，,。．.")) eqn:Ep.
  { split; [exact F|]. split; reflexivity. }
  destruct (isspace char) eqn:Es.
  { split; [exact F|]. split; reflexivity. }
  assert (negb (is_separator char) = true) as Hsep
    by (unfold is_separator; now rewrite Ep, Es).
  assert (forallb (fun c => negb (is_separator c)) [char] = true) as Hsep1
    by (cbn [forallb]; now rewrite Hsep).
  destruct Inv as [Ht [Hs Hw]].
  destruct (is_some (re_match (u JAPANESE_CHARS) false [char])) eqn:Ej.
  - (* a Japanese character starts a word of its own *)
    cbn [char_type_eqb]. rewrite orb_true_r.
    cbn [tokens current_word current_type app].
    split; [exact F|]. split; [exact Hsep1|]. cbn [length]. lia.
  - assert (forallb (fun c => negb (is_some (re_match (u JAPANESE_CHARS) false [c])))
              [char] = true) as Hj1 by (cbn [forallb]; now rewrite Ej).
    destruct (isascii_char char) eqn:Ea.
    + assert (forallb isascii_char [char] = true) as Ha1
        by (cbn [forallb]; now rewrite Ea).
      destruct (current_type st) as [[| |]|] eqn:Ety;
        cbn [char_type_eqb negb orb tokens current_word current_type app].
      * split; [exact F|]. split; [exact Hsep1|]. split; assumption.
      * split; [exact Ht|]. destruct Hw as [Ha Hj]. rewrite Ety. split.
        -- rewrite forallb_app, Hs. exact Hsep1.
        -- rewrite !forallb_app, Ha, Hj. split; assumption.
      * split; [exact F|]. split; [exact Hsep1|]. split; assumption.
      * split; [exact F|]. split; [exact Hsep1|]. split; assumption.
    + assert (forallb (fun c => negb (isascii_char c)) [char] = true) as Ha1
        by (cbn [forallb]; now rewrite Ea).
      destruct (current_type st) as [[| |]|] eqn:Ety;
        cbn [char_type_eqb negb orb tokens current_word current_type app].
      * split; [exact F|]. split; [exact Hsep1|]. split; assumption.
      * split; [exact F|]. split; [exact Hsep1|]. split; assumption.
      * split; [exact Ht|]. destruct Hw as [Ha Hj]. rewrite Ety. split.
        -- rewrite forallb_app, Hs. exact Hsep1.
        -- rewrite !forallb_app, Ha, Hj. split; assumption.
      * split; [exact F|]. split; [exact Hsep1|]. split; assumption.
Qed.

Lemma fold_tokenize_shape (s : pystr) (st : tok_state) :
  shape_inv st -> shape_inv (fold_left tokenize_step s st).
Proof.
  revert st. induction s as [|c s IH]; intros st H; cbn [fold_left]; [exact H|].
  apply IH, tokenize_step_shape, H.
Qed.


End TokenShapeFacts.

(** ** split_sentences: what it returns *)

Section SplitOutputFacts.
Context {R : Re}.

Lemma accumulate_stripped (st : split_state) (piece : pystr) :
  stripped_inv st -> stripped_inv (accumulate st piece).
Proof.
  destruct st as [sentences current]. unfold stripped_inv, accumulate.
  cbn [fst]. intros H. destruct (_is_balanced (current ++ piece)); cbn [fst];
    [|exact H].
  apply Forall_app. split; [exact H|]. constructor; [apply strip_strip|constructor].
Qed.

Lemma split_step_stripped (st : split_state) (s : pystr) :
  stripped_inv st -> stripped_inv (split_step st s).
Proof.
  unfold split_step. destruct (Nat.ltb 1 _); [|apply accumulate_stripped].
  generalize (re_split (u list_pattern) s) as items.
  intros items; revert st. induction items as [|item items IH]; intros st H;
    cbn [fold_left]; [exact H|].
  apply IH. destruct (strip item); [exact H|now apply accumulate_stripped].
Qed.

Lemma fold_split_step_stripped (raw : list pystr) (st : split_state) :
  stripped_inv st -> stripped_inv (fold_left split_step raw st).
Proof.
  revert st; induction raw as [|s raw IH]; intros st H; cbn [fold_left]; [exact H|].
  now apply IH, split_step_stripped.
Qed.


End SplitOutputFacts.

(** ** preprocess_text: what it returns *)

Lemma comma_not_period (c : codepoint) :
  is_comma_mark c = true -> is_period_mark c = false.
Proof.
  unfold is_comma_mark, char_in. intros H. apply existsb_exists in H.
  destruct H as [d [Hd E]]. apply N.eqb_eq in E. subst d.
  vm_compute in Hd. repeat destruct Hd as [<-|Hd]; try contradiction;
    vm_compute; reflexivity.
Qed.

Lemma tables_narrowed :
  forallb (fun kv => (negb (isspace (snd kv)) || (snd kv =? 32))
                     && negb (is_key alnum_table (snd kv))) alnum_table = true
  /\ forallb (fun kv => (negb (isspace (snd kv)) || (snd kv =? 32))
                        && negb (is_key alnum_table (snd kv))) punct_table = true
  /\ narrowed_char (cp "。") = true /\ narrowed_char (cp "、") = true
  /\ is_period_mark (cp "、") = false.
Proof. vm_compute. repeat split. Qed.

Lemma before_last_strip_output (x : pystr) :
  let z := before_last_strip x in
  forallb narrowed_char z = true
  /\ no_adjacent is_period_mark z = true
  /\ no_adjacent is_comma_mark z = true.
Proof.
  destruct tables_narrowed as (T1 & T2 & M1 & M2 & M3).
  unfold before_last_strip.
  change (u " ") with [32]. change (u "。") with [cp "。"].
  change (u "、") with [cp "、"].
  set (P1 := fun c : codepoint => negb (isspace c) || (c =? 32)).
  set (P2 := fun c : codepoint => P1 c && negb (is_key alnum_table c)).
  (* the whitespace stage *)
  set (z1 := sub_runs isspace 1 [32] (strip x)).
  assert (forallb P1 z1 = true) as C1.
  { apply forallb_forall, Forall_forall. subst z1.
    destruct (strip x) as [|c s]; [constructor|].
    apply (sub_runs_from_1_Forall (fun c => P1 c = true)); [reflexivity|].
    apply Forall_forall. intros d _ Hd. unfold P1. now rewrite Hd. }
  (* the two tables *)
  set (z2 := translate alnum_table z1).
  assert (forallb P2 z2 = true) as C2.
  { subst z2. apply (translate_Forall P1); [exact T1| |exact C1].
    intros c Hc Hk. unfold P2. now rewrite Hc, Hk. }
  set (z3 := translate punct_table z2).
  assert (forallb P2 z3 = true) as C3.
  { subst z3. apply (translate_Forall P2); [exact T2| |exact C2]. auto. }
  (* the control characters *)
  set (z4 := filter (fun c => negb (is_control c)) z3).
  assert (Forall (fun c => narrowed_char c = true) z4) as C4.
  { apply Forall_forall. intros c Hc. subst z4. apply filter_In in Hc.
    destruct Hc as [Hin Hn]. rewrite forallb_forall in C3. specialize (C3 c Hin).
    unfold P2, P1 in C3. apply andb_true_iff in C3. destruct C3 as [Ha Hb].
    unfold narrowed_char, spaced_char. now rewrite Ha, Hb, Hn. }
  (* the periods and the commas *)
  set (z5 := sub_runs is_period_mark 2 [cp "。"] z4).
  assert (Forall (fun c => narrowed_char c = true) z5) as C5
    by (subst z5; now apply sub_runs_Forall).
  assert (no_adjacent is_period_mark z5 = true) as D5
    by (subst z5; apply sub_runs_2_out).
  split; [|split].
  - apply forallb_forall, Forall_forall. now apply sub_runs_Forall.
  - apply sub_runs_no_adj; [exact comma_not_period|exact M3|exact D5].
  - apply sub_runs_2_out.
Qed.


(** ** Binary64 numbers: the sum of two numbers that are not negative *)

Lemma shr_1_nonneg (mrs : shr_record) :
  (0 <= shr_m mrs)%Z -> (0 <= shr_m (shr_1 mrs))%Z.
Proof.
  destruct mrs as [m r s]. cbn [shr_m]. intros H.
  destruct m as [|[p|p|]|p]; cbn [shr_1 shr_m]; lia.
Qed.

Lemma iter_pos_shr_1_nonneg (p : positive) :
  forall mrs, (0 <= shr_m mrs)%Z ->
    (0 <= shr_m (SpecFloat.iter_pos shr_1 p mrs))%Z.
Proof.
  induction p as [p IH|p IH|]; intros mrs H; cbn [SpecFloat.iter_pos].
  - apply IH, IH, shr_1_nonneg, H.
  - apply IH, IH, H.
  - apply shr_1_nonneg, H.
Qed.

Lemma shr_fexp_nonneg (m e : Z) (l : location) :
  (0 <= m)%Z -> (0 <= shr_m (fst (shr_fexp prec emax m e l)))%Z.
Proof.
  intros H. unfold shr_fexp, shr.
  assert (0 <= shr_m (shr_record_of_loc m l))%Z as H0
    by (destruct l as [|[| |]]; exact H).
  destruct (fexp prec emax (Zdigits2 m + e) - e)%Z; cbn [fst]; try exact H0.
  apply iter_pos_shr_1_nonneg, H0.
Qed.

Lemma round_nearest_even_nonneg (m : Z) (l : location) :
  (0 <= m)%Z -> (0 <= round_nearest_even m l)%Z.
Proof.
  intros H. unfold round_nearest_even.
  destruct l as [|[| |]]; try destruct (Z.even m); lia.
Qed.

Lemma binary_round_aux_nonneg (m e : Z) (l : location) :
  (0 <= m)%Z -> sf_nonneg (binary_round_aux prec emax false m e l) = true.
Proof.
  intros H. unfold binary_round_aux.
  pose proof (shr_fexp_nonneg m e l H) as H1.
  destruct (shr_fexp prec emax m e l) as [mrs' e']. cbn [fst] in H1.
  pose proof (shr_fexp_nonneg
                (round_nearest_even (shr_m mrs') (loc_of_shr_record mrs')) e'
                loc_Exact (round_nearest_even_nonneg _ _ H1)) as H2.
  destruct (shr_fexp prec emax _ e' loc_Exact) as [mrs'' e'']. cbn [fst] in H2.
  destruct (shr_m mrs'') as [|p|p]; [reflexivity| |lia].
  destruct (e'' <=? emax - prec)%Z; reflexivity.
Qed.

Lemma SF64add_nonneg (x y : spec_float) :
  sf_nonneg x = true -> sf_nonneg y = true -> sf_nonneg (SF64add x y) = true.
Proof.
  unfold SF64add, SFadd.
  destruct x as [sx|[|]| |[|] mx ex]; try discriminate;
    destruct y as [sy|[|]| |[|] my ey]; try discriminate; intros _ _;
    try reflexivity.
  - destruct sx, sy; reflexivity.
  - unfold binary_normalize, cond_Zopp.
    destruct (Z.pos (fst (shl_align mx ex (Z.min ex ey)))
              + Z.pos (fst (shl_align my ey (Z.min ex ey))))%Z eqn:E;
      [reflexivity| |lia].
    clear E. unfold binary_round. destruct (shl_align _ _ _) as [mz ez].
    apply binary_round_aux_nonneg. lia.
Qed.

Lemma add_nonneg (x y : float) :
  nonneg x = true -> nonneg y = true -> nonneg (x + y) = true.
Proof. unfold nonneg. rewrite add_spec. apply SF64add_nonneg. Qed.

(** ** Binary64 numbers: the order *)

Lemma SFcompare_antisym (x y : spec_float) :
  SFcompare y x = option_map CompOpp (SFcompare x y).
Proof.
  destruct x as [sx|sx| |sx mx ex], y as [sy|sy| |sy my ey]; cbn [SFcompare option_map];
    try reflexivity; try (destruct sx; reflexivity); try (destruct sy; reflexivity);
    try (destruct sx, sy; reflexivity).
  destruct sx, sy; cbn [CompOpp]; try reflexivity.
  - rewrite (Z.compare_antisym ex ey).
    destruct (ex ?= ey)%Z; cbn [CompOpp]; try reflexivity.
    f_equal. f_equal. exact (Pos.compare_antisym mx my).
  - rewrite (Z.compare_antisym ex ey).
    destruct (ex ?= ey)%Z; cbn [CompOpp]; try reflexivity.
    f_equal. exact (Pos.compare_antisym mx my).
Qed.

Lemma compare_cont_Eq (p q : positive) : Pos.compare_cont Eq p q = (p ?= q)%positive.
Proof. reflexivity. Qed.

Lemma SFleb_trans (x y z : spec_float) :
  SFleb x y = true -> SFleb y z = true -> SFleb x z = true.
Proof.
  unfold SFleb.
  destruct x as [sx|sx| |sx mx ex], y as [sy|sy| |sy my ey], z as [sz|sz| |sz mz ez];
    cbn [SFcompare]; try discriminate; try reflexivity;
    try (destruct sx; try discriminate; try reflexivity);
    try (destruct sy; try discriminate; try reflexivity);
    try (destruct sz; try discriminate; try reflexivity).
  all: destruct (Z.compare_spec ex ey), (Z.compare_spec ey ez), (Z.compare_spec ex ez);
    try discriminate; try reflexivity; try lia.
  all: subst.
  all: pose proof (Pos.compare_spec mx my) as Cxy;
    pose proof (Pos.compare_spec my mz) as Cyz;
    pose proof (Pos.compare_spec mx mz) as Cxz;
    unfold Pos.compare in Cxy, Cyz, Cxz;
    destruct Cxy, Cyz, Cxz;
    cbn [CompOpp]; try discriminate; try reflexivity; lia.
Qed.

Lemma leb_trans (x y z : float) :
  (x <=? y)%float = true -> (y <=? z)%float = true -> (x <=? z)%float = true.
Proof. rewrite !leb_spec. apply SFleb_trans. Qed.

Lemma ltb_leb (x y : float) : (x <? y)%float = true -> (x <=? y)%float = true.
Proof.
  rewrite ltb_spec, leb_spec. unfold SFltb, SFleb.
  destruct (SFcompare _ _) as [[| |]|]; easy.
Qed.

Lemma SFcompare_some (x y : spec_float) :
  SFcompare x x <> None -> SFcompare y y <> None -> SFcompare x y <> None.
Proof.
  destruct x as [sx|sx| |sx mx ex], y as [sy|sy| |sy my ey]; cbn [SFcompare];
    congruence.
Qed.

(** Two numbers are comparable: when [x < y] fails, [y <= x] holds. *)
Lemma not_ltb_leb (x y : float) :
  is_nan x = false -> is_nan y = false ->
  (x <? y)%float = false -> (y <=? x)%float = true.
Proof.
  unfold is_nan. rewrite !negb_false_iff, !eqb_spec, ltb_spec, leb_spec.
  unfold SFeqb, SFltb, SFleb. rewrite (SFcompare_antisym (Prim2SF x) (Prim2SF y)).
  intros Hx Hy.
  pose proof (SFcompare_some (Prim2SF x) (Prim2SF y)) as S.
  destruct (SFcompare (Prim2SF x) (Prim2SF x)); [|discriminate].
  destruct (SFcompare (Prim2SF y) (Prim2SF y)); [|discriminate].
  destruct (SFcompare (Prim2SF x) (Prim2SF y)) as [[| |]|];
    cbn [option_map CompOpp]; try easy.
  exfalso. apply S; [discriminate|discriminate|reflexivity].
Qed.

Lemma leb_refl (x : float) : is_nan x = false -> (x <=? x)%float = true.
Proof.
  unfold is_nan. rewrite negb_false_iff, eqb_spec, leb_spec.
  unfold SFeqb, SFleb. destruct (SFcompare _ _) as [[| |]|]; easy.
Qed.

Lemma nonneg_number (x : float) : nonneg x = true -> is_nan x = false.
Proof.
  unfold nonneg, is_nan. rewrite negb_false_iff, eqb_spec. unfold SFeqb.
  destruct (Prim2SF x) as [s|[|]| |[|] m e]; cbn [sf_nonneg SFcompare];
    try discriminate; intros _; try reflexivity.
  rewrite Z.compare_refl. fold (Pos.compare m m). now rewrite Pos.compare_refl.
Qed.

Lemma nonneg_ge_zero (x : float) : nonneg x = true -> (0 <=? x)%float = true.
Proof.
  unfold nonneg. rewrite leb_spec. change (Prim2SF 0) with (S754_zero false).
  unfold SFleb. destruct (Prim2SF x) as [s|[|]| |[|] m e]; cbn; easy.
Qed.

(** ** The calculator: the time weight *)



(** ** The calculator: the trend bonus *)

Lemma bump_nonneg (b k : float) (c : bool) :
  nonneg k = true -> nonneg b = true ->
  nonneg (if c then (b + k)%float else b) = true.
Proof. intros Hk Hb. destruct c; [now apply add_nonneg|exact Hb]. Qed.

Lemma fold_nonneg {A} (f : float -> A -> float) (l : list A) :
  (forall b x, nonneg b = true -> nonneg (f b x) = true) ->
  forall b, nonneg b = true -> nonneg (fold_left f l b) = true.
Proof.
  intros Hf. induction l as [|x l IH]; intros b Hb; cbn [fold_left]; [exact Hb|].
  apply IH, Hf, Hb.
Qed.

Lemma py_min_one_range (b : float) :
  nonneg b = true ->
  (0 <=? py_min b 1.0)%float = true /\ (py_min b 1.0 <=? 1.0)%float = true.
Proof.
  intros Hb. unfold py_min. destruct (1.0 <? b)%float eqn:E.
  - split; vm_compute; reflexivity.
  - split; [now apply nonneg_ge_zero|].
    apply not_ltb_leb; [reflexivity|now apply nonneg_number|exact E].
Qed.


(** ** The calculator: the importance weight on well-formed tables *)

Lemma dict_get_In {A} (d : list (string * A)) (k : string) (v : A) :
  dict_get d k = Some v -> In (k, v) d.
Proof.
  induction d as [|[k' v'] d IH]; cbn [dict_get]; [discriminate|].
  destruct (String.eqb k' k) eqn:E.
  - apply String.eqb_eq in E. intros [= ->]. left. now subst.
  - intros H. right. exact (IH H).
Qed.

Lemma py_max_fold (ws : list float) :
  Forall (fun x => is_nan x = false) ws ->
  forall a, is_nan a = false ->
    is_nan (fold_left py_max ws a) = false
    /\ (a <=? fold_left py_max ws a)%float = true
    /\ Forall (fun x => (x <=? fold_left py_max ws a)%float = true) ws
    /\ (fold_left py_max ws a = a \/ In (fold_left py_max ws a) ws).
Proof.
  induction 1 as [|x ws Hx Hws IH]; intros a Ha; cbn [fold_left].
  - repeat split; [exact Ha|now apply leb_refl|constructor|now left].
  - assert (is_nan (py_max a x) = false
            /\ (a <=? py_max a x)%float = true
            /\ (x <=? py_max a x)%float = true
            /\ (py_max a x = a \/ py_max a x = x)) as (N & A1 & A2 & A3).
    { unfold py_max. destruct (a <? x)%float eqn:E.
      - repeat split; [exact Hx|now apply ltb_leb|now apply leb_refl|now right].
      - repeat split; [exact Ha|now apply leb_refl|now apply not_ltb_leb|now left]. }
    destruct (IH (py_max a x) N) as (N' & B1 & B2 & B3).
    split; [exact N'|]. split; [exact (leb_trans _ _ _ A1 B1)|]. split.
    + constructor; [exact (leb_trans _ _ _ A2 B1)|exact B2].
    + destruct B3 as [B3|B3]; [|right; now right].
      rewrite B3. destruct A3 as [->| ->]; [now left|right; now left].
Qed.

Section ImportanceFacts.
Context {R : Re}.

Lemma matched_weights_In (self : ScoringCalculator) (kw : pystr)
    (table : patterns_dict) (x : float) :
  In x (matched_weights self kw table) ->
  exists k, In (k, x) (importance_weights self).
Proof.
  unfold matched_weights. rewrite in_flat_map. intros [[ty ps] [_ H]].
  cbn [fst snd] in H.
  destruct (dict_get (importance_weights self) ty) as [weight|] eqn:E; [|destruct H].
  apply in_flat_map in H. destruct H as [p [_ H]].
  destruct p as [s| |]; try destruct H.
  destruct (re_search (u s) true kw); [|destruct H].
  destruct H as [<-|[]]. exists ty. exact (dict_get_In _ _ _ E).
Qed.


End ImportanceFacts.


(** ** analyze_sentiment: neutral and one-sided texts *)

#[local] Open Scope R_scope.

Lemma round_half_even_ge (y : R) (k : Z) :
  IZR k <= y -> (k <= round_half_even y)%Z.
Proof.
  intros H. destruct (base_Int_part y) as [B1 B2].
  assert (k <= Int_part y)%Z as Hk.
  { apply Z.lt_succ_r. apply lt_IZR. rewrite succ_IZR. lra. }
  unfold round_half_even.
  destruct (Rlt_dec _ _); [exact Hk|].
  destruct (Rlt_dec _ _); [lia|]. destruct (Z.even _); lia.
Qed.

Lemma round_half_even_le (y : R) (k : Z) :
  y <= IZR k -> (round_half_even y <= k)%Z.
Proof.
  intros H. destruct (base_Int_part y) as [B1 B2].
  assert (Int_part y <= k)%Z as Hk by (apply le_IZR; lra).
  unfold round_half_even.
  destruct (Rlt_dec (y - IZR (Int_part y)) (1/2)) as [_|Hn]; [exact Hk|].
  assert (Int_part y < k)%Z as Hlt.
  { apply lt_IZR. lra. }
  destruct (Rlt_dec _ _); [lia|]. destruct (Z.even _); lia.
Qed.

Lemma py_round3_ge_one (x : R) : 1 <= x -> 1 <= py_round3 x.
Proof.
  intros H. unfold py_round3.
  assert (1000 <= round_half_even (x * 1000))%Z as K
    by (apply round_half_even_ge; lra).
  apply IZR_le in K. lra.
Qed.

Lemma py_round3_le_one (x : R) : x <= 1 -> py_round3 x <= 1.
Proof.
  intros H. unfold py_round3.
  assert (round_half_even (x * 1000) <= 1000)%Z as K
    by (apply round_half_even_le; lra).
  apply IZR_le in K. lra.
Qed.

Lemma Rpower_ge_one (s e : R) : 1 <= s -> 0 <= e -> 1 <= Rpower s e.
Proof.
  intros Hs He. rewrite <- (Rpower_O s) by lra. now apply Rle_Rpower.
Qed.

Lemma Rpower_le_one (s e : R) : 0 < s <= 1 -> 0 <= e -> 0 < Rpower s e <= 1.
Proof.
  intros Hs He. split; [apply exp_pos|].
  replace 1 with (Rpower 1 e).
  - now apply Rle_Rpower_l.
  - unfold Rpower. rewrite ln_1, Rmult_0_r. apply exp_0.
Qed.

(** The scores are positive and the weights are not negative. *)
Lemma SENTIMENT_PATTERNS_signs (p : SentimentPattern) :
  In p SENTIMENT_PATTERNS -> 0 < score p /\ 0 <= weight p.
Proof.
  unfold SENTIMENT_PATTERNS. cbn [In].
  intros H. repeat destruct H as [<-|H]; try contradiction; cbn [score weight]; lra.
Qed.

Section SentimentFacts.
Context {re_module : Re}.

(** An entry of [word_counts] is the positive number of matches of its
    word. *)
Lemma word_counts_entries (input : pystr) (patterns : list SentimentPattern) :
  forall counts : list (string * nat),
    (forall k c, In (k, c) counts ->
       (0 < c)%nat /\ c = re_findall_count (u k) input) ->
    forall k c,
      In (k, c)
        (fold_left
           (fun counts pattern =>
              let count := re_findall_count (u (sentiment_word pattern)) input in
              if Nat.ltb 0 count
              then (counts ++ [(sentiment_word pattern, count)])%list
              else counts)
           patterns counts) ->
      (0 < c)%nat /\ c = re_findall_count (u k) input.
Proof.
  induction patterns as [|p patterns IH]; intros counts Inv k c; cbn [fold_left].
  - apply Inv.
  - apply IH. cbv zeta.
    destruct (Nat.ltb 0 (re_findall_count (u (sentiment_word p)) input)) eqn:E;
      [|exact Inv].
    intros k' c' Hin. apply in_app_or in Hin. destruct Hin as [Hin|[[= <- <-]|[]]].
    + now apply Inv.
    + apply Nat.ltb_lt in E. split; [exact E|reflexivity].
Qed.

Lemma word_counts_found (input : pystr) (k : string) (c : nat) :
  dict_get (word_counts input) k = Some c ->
  (0 < c)%nat /\ c = re_findall_count (u k) input.
Proof.
  intros H. apply dict_get_In in H. unfold word_counts in H.
  revert H. apply word_counts_entries. intros ? ? [].
Qed.

Lemma sentiment_product_none (patterns : list SentimentPattern) (x : R) :
  sentiment_product [] patterns x = x.
Proof.
  unfold sentiment_product. revert x.
  induction patterns as [|p patterns IH]; intros x; cbn [fold_left dict_get];
    [reflexivity|apply IH].
Qed.

Lemma word_counts_none (input : pystr) :
  Forall (fun p => re_findall_count (u (sentiment_word p)) input = 0%nat)
    SENTIMENT_PATTERNS ->
  word_counts input = [].
Proof.
  unfold word_counts. generalize SENTIMENT_PATTERNS as patterns.
  induction 1 as [|p patterns Hp _ IH]; cbn [fold_left]; [reflexivity|].
  cbv zeta. rewrite Hp. exact IH.
Qed.


Lemma sentiment_product_ge_one (counts : list (string * nat))
    (patterns : list SentimentPattern) :
  (forall p c, In p patterns -> dict_get counts (sentiment_word p) = Some c ->
     1 <= Rpower (score p) (INR c * weight p)) ->
  forall x, 1 <= x -> 1 <= sentiment_product counts patterns x.
Proof.
  unfold sentiment_product.
  induction patterns as [|p patterns IH]; intros Hp x Hx; cbn [fold_left]; [exact Hx|].
  apply IH; [intros q c Hq; apply Hp; now right|].
  destruct (dict_get counts (sentiment_word p)) as [c|] eqn:E; [|exact Hx].
  specialize (Hp p c (or_introl eq_refl) E). nra.
Qed.

Lemma sentiment_product_le_one (counts : list (string * nat))
    (patterns : list SentimentPattern) :
  (forall p c, In p patterns -> dict_get counts (sentiment_word p) = Some c ->
     0 < Rpower (score p) (INR c * weight p) <= 1) ->
  forall x, 0 < x <= 1 -> 0 < sentiment_product counts patterns x <= 1.
Proof.
  unfold sentiment_product.
  induction patterns as [|p patterns IH]; intros Hp x Hx; cbn [fold_left]; [exact Hx|].
  apply IH; [intros q c Hq; apply Hp; now right|].
  destruct (dict_get counts (sentiment_word p)) as [c|] eqn:E; [|exact Hx].
  specialize (Hp p c (or_introl eq_refl) E). nra.
Qed.


End SentimentFacts.



#[local] Close Scope R_scope.

(** ** _analyze_with_context: the colours *)

Section ColourFacts.
Context {R : Re}.

Lemma _identify_part_of_speech_colour (w : pystr) :
  exists pos imp,
    _identify_part_of_speech w = Ok (pos, imp)
    /\ base_importance imp
    /\ is_some (dict_get POS_COLORS pos) = true.
Proof.
  destruct (_identify_part_of_speech_ok w) as (pos & imp & E & Hb).
  exists pos, imp. split; [exact E|]. split; [exact Hb|].
  revert E. unfold _identify_part_of_speech. destruct (_is_japanese_text w).
  - destruct (_identify_japanese_pos_class w) as (pos' & imp' & -> & C).
    intros [= <- <-]. apply (class_has_colour pos' imp'). now left.
  - destruct (_identify_english_pos_class w) as (pos' & imp' & -> & C).
    intros [= <- <-]. apply (class_has_colour pos' imp'). now right.
Qed.

(** No tag has the colour black. *)
Lemma POS_COLORS_not_black :
  forallb (fun kv => negb (String.eqb (snd kv) BLACK)) POS_COLORS = true
  /\ String.eqb GRAY BLACK = false.
Proof. vm_compute. split; reflexivity. Qed.

Lemma analyze_from_colours (words prev_words next_words todo : list pystr) :
  forall i, exists results,
    analyze_from words prev_words next_words i todo = Ok results
    /\ Forall (fun a =>
                 exists c, dict_get POS_COLORS (word_pos a) = Some c
                           /\ color a = if (importance a <=? 0.5)%float then GRAY else c)
         results.
Proof.
  induction todo as [|w rest IH]; intros i; cbn [analyze_from].
  - exists []. split; [reflexivity|constructor].
  - unfold analyze_word.
    destruct (_identify_part_of_speech_colour w) as (pos & imp & -> & Hb & Hc).
    cbn [bind].
    destruct (_adjust_importance_ok w pos imp words i prev_words next_words Hb)
      as (v & -> & _).
    cbn [bind]. destruct (IH (i + 1)%Z) as (results & -> & Hr). cbn [bind].
    eexists. split; [reflexivity|]. constructor; [|exact Hr].
    cbn [word_pos color importance]. unfold _get_color_for_pos.
    destruct (dict_get POS_COLORS pos) as [c|]; [|discriminate].
    exists c. split; reflexivity.
Qed.


End ColourFacts.

(** ** The calculator: the cache of compiled patterns *)

Section CacheFacts.
Context {R : Re}.

Lemma in_cache (p : string) (cache : regex_cache) :
  existsb (String.eqb p) cache = true <-> In p cache.
Proof.
  rewrite existsb_exists. split.
  - intros [x [Hx E]]. apply String.eqb_eq in E. now subst.
  - intros H. exists p. split; [exact H|apply String.eqb_refl].
Qed.

(** One pattern: the cache gets the pattern unless it holds it. *)
Lemma check_pattern_cache (self : ScoringCalculator) (kw : pystr)
    (pattern_type : string) (weight : float) (s : string) (mw : float)
    (cache : regex_cache) :
  dict_get (importance_weights self) pattern_type = Some weight ->
  re_compiles (u s) = true ->
  exists mw',
    check_pattern self kw pattern_type (mw, cache) (PStr s)
    = Ok (mw', if existsb (String.eqb s) cache then cache
               else (cache ++ [s])%list).
Proof.
  intros Hw Hc. unfold check_pattern. rewrite Hc, Hw.
  destruct (existsb (String.eqb s) cache); cbn [bind];
    destruct (re_search (u s) true kw); eexists; reflexivity.
Qed.

Lemma check_pattern_list_cache (self : ScoringCalculator) (kw : pystr)
    (pattern_type : string) (weight : float) (patterns : list pattern_entry) :
  dict_get (importance_weights self) pattern_type = Some weight ->
  forallb (fun p => match p with
                    | PStr s => re_compiles (u s)
                    | _ => false
                    end) patterns = true ->
  forall mw cache, exists mw' cache',
    check_pattern_list self kw pattern_type patterns (mw, cache) = Ok (mw', cache')
    /\ incl cache cache'
    /\ (forall s, In (PStr s) patterns -> In s cache')
    /\ ((forall s, In (PStr s) patterns -> In s cache) -> cache' = cache).
Proof.
  intros Hw. induction patterns as [|p ps IH]; intros Hc mw cache.
  - exists mw, cache. repeat split; [apply incl_refl|intros s []].
  - cbn [forallb] in Hc. apply andb_true_iff in Hc. destruct Hc as [Hp Hc].
    destruct p as [s| |]; try discriminate.
    cbn [check_pattern_list].
    destruct (check_pattern_cache self kw pattern_type weight s mw cache Hw Hp)
      as [mw1 ->].
    cbn [bind]. destruct (existsb (String.eqb s) cache) eqn:Ein.
    + (* the pattern is in the cache *)
      apply (proj1 (in_cache s cache)) in Ein.
      destruct (IH Hc mw1 cache) as (mw' & cache' & -> & I1 & I2 & I3).
      exists mw', cache'. split; [reflexivity|]. split; [exact I1|]. split.
      * intros t [[= <-]|Ht]; [now apply I1|now apply I2].
      * intros Hall. apply I3. intros t Ht. apply Hall. now right.
    + (* the pattern is compiled and added *)
      destruct (IH Hc mw1 (cache ++ [s])%list)
        as (mw' & cache' & -> & I1 & I2 & I3).
      exists mw', cache'. split; [reflexivity|]. split; [|split].
      * intros t Ht. apply I1, in_or_app. now left.
      * intros t [[= <-]|Ht]; [|now apply I2].
        apply I1, in_or_app. right. now left.
      * intros Hall. exfalso.
        assert (In s cache) as Hin by (apply Hall; now left).
        apply (proj2 (in_cache s cache)) in Hin. congruence.
Qed.

Lemma check_patterns_cache (self : ScoringCalculator) (kw : pystr)
    (table : patterns_dict) :
  scannable self table = true ->
  forall mw cache, exists mw' cache',
    check_patterns self kw table (mw, cache) = Ok (mw', cache')
    /\ incl cache cache'
    /\ incl (table_patterns table) cache'
    /\ (incl (table_patterns table) cache -> cache' = cache).
Proof.
  unfold scannable, table_patterns.
  induction table as [|[ty ps] table IH]; intros Hc mw cache.
  - exists mw, cache. repeat split; [apply incl_refl|intros s []].
  - cbn [forallb fst snd] in Hc. apply andb_true_iff in Hc.
    destruct Hc as [Hk Hc]. apply andb_true_iff in Hk. destruct Hk as [Hw Hps].
    destruct (dict_get (importance_weights self) ty) as [weight|] eqn:E;
      [|discriminate].
    cbn [check_patterns flat_map fst snd].
    destruct (check_pattern_list_cache self kw ty weight ps E Hps mw cache)
      as (mw1 & cache1 & -> & I1 & I2 & I3).
    cbn [bind].
    destruct (IH Hc mw1 cache1) as (mw' & cache' & -> & J1 & J2 & J3).
    assert (forall s,
               In s (flat_map
                       (fun p => match p with PStr s => [s] | _ => [] end) ps)
               <-> In (PStr s) ps) as Hflat.
    { intros s. rewrite in_flat_map. split.
      - intros [p [Hp Hs]]. destruct p as [t| |]; [|destruct Hs|destruct Hs].
        destruct Hs as [<-|[]]. exact Hp.
      - intros H. exists (PStr s). split; [exact H|now left]. }
    exists mw', cache'. split; [reflexivity|]. split; [|split].
    + intros t Ht. now apply J1, I1.
    + intros t Ht. apply in_app_or in Ht. destruct Ht as [Ht|Ht].
      * apply J1, I2. now apply Hflat.
      * now apply J2.
    + intros Hall.
      assert (cache1 = cache) as ->.
      { apply I3. intros s Hs. apply Hall, in_or_app. left. now apply Hflat. }
      apply J3. intros t Ht. apply Hall, in_or_app. now right.
Qed.


End CacheFacts.

